(** * Celtic knot curves from mesh topology

    A shallow embedding of [celtic-knot.py]: the half-edge walk of
    [make_loop], the seeding scan of [create_bezier], the per-crossing
    geometry and the operator's [execute].

    Half-edges (bmesh "loops") and vertices are identified by a number;
    [edge.index] is the integer the code indexes [midpoints] with.  The
    geometry is written once, over the operations on Python floats and on
    the C floats of [mathutils], and read twice: in IEEE 754 arithmetic,
    which is what the code runs on, and in exact real arithmetic, which is
    what it approximates.  A statement over any [Arith] holds of both; one
    over [MeshData R] is about exact arithmetic, one over
    [ControlPoint spec_float] about IEEE arithmetic.  "In range" is said of
    an index that Python accepts for the list it is used on. *)

From Stdlib Require Import Reals Lra ZArith SpecFloat.
From stdpp Require Import base option list gmap finite.

(** ** The bmesh query surface *)

(** What the code reads from a [BMesh]: the faces with their loops, the
    edges with their loops, and for a loop its [vert.index], [edge.index],
    [link_loop_next], [link_loop_prev] and [link_loops] (the other loops
    around the same edge, in radial order). *)
Record BMesh := {
  bm_faces : list (list nat);
  bm_edges : list nat;
  edge_link_loops : nat -> list nat;
  loop_vert : nat -> nat;
  loop_edge : nat -> Z;
  link_loop_next : nat -> nat;
  link_loop_prev : nat -> nat;
  link_loops : nat -> list nat
}.

(** Every loop of the mesh, in the order the scan meets them. *)
Definition all_loops (bm : BMesh) : list nat := concat (bm_faces bm).

(** ** Outcomes *)

Inductive exn := AssertionError | IndexError.

(** [OutOfGas] is the model's own: a [while True] that was cut off. *)
Inductive outcome (A : Type) :=
| Done (a : A)
| Raise (e : exn)
| OutOfGas.
Arguments Done {A} a.
Arguments Raise {A} e.
Arguments OutOfGas {A}.

Global Instance outcome_bind : MBind outcome := fun A B k o =>
  match o with
  | Done a => k a
  | Raise e => Raise e
  | OutOfGas => OutOfGas
  end.

(** A Python [for] loop whose body may raise. *)
Fixpoint for_each {A S} (xs : list A) (body : S -> A -> outcome S) (s : S)
  : outcome S :=
  match xs with
  | [] => Done s
  | x :: xs' => s' ← body s x; for_each xs' body s'
  end.

(** ** Twists *)

Inductive twist := TWIST_CW | STRAIGHT | TWIST_CCW | IGNORE.

Definition get_celtic_twists (bm : BMesh) : list twist :=
  (fun edge => if length (edge_link_loops bm edge) =? 0
               then IGNORE else TWIST_CW)
    <$> bm_edges bm.

(** ** Visited state *)

(** One assignment [loops_entered[l] = True] or [loops_exited[l] = True]. *)
Inductive mark := Entered (l : nat) | Exited (l : nat).

Global Instance mark_eq_dec : EqDecision mark.
Proof. solve_decision. Defined.

Definition mark_loop (m : mark) : nat :=
  match m with Entered l | Exited l => l end.

(** The two [defaultdict(lambda: False)] of [create_bezier].  [marks] is a
    ghost trace: each assignment of [True] is appended to it, so that "set
    exactly once" can be counted.  The code never reads it. *)
Record visited := {
  loops_entered : gmap nat bool;
  loops_exited : gmap nat bool;
  marks : list mark
}.

Definition fresh : visited :=
  {| loops_entered := ∅; loops_exited := ∅; marks := [] |}.

(** Reading a [defaultdict]: a missing key reads as [False].  (Python also
    stores that [False]; no later read can tell.) *)
Definition dd_get (d : gmap nat bool) (k : nat) : bool := default false (d !! k).

Definition set_entered (st : visited) (l : nat) : visited :=
  {| loops_entered := <[l := true]> (loops_entered st);
     loops_exited := loops_exited st;
     marks := marks st ++ [Entered l] |}.

Definition set_exited (st : visited) (l : nat) : visited :=
  {| loops_entered := loops_entered st;
     loops_exited := <[l := true]> (loops_exited st);
     marks := marks st ++ [Exited l] |}.

(** ** Walking inside a face *)

(** Loops on the boundary of a surface. *)
Definition ignorable_loop (bm : BMesh) (loop : nat) : bool :=
  length (link_loops bm loop) =? 0.

(** [while True: loop = loop.link_loop_next; if not ignorable_loop(loop): break] *)
Fixpoint walk_next (bm : BMesh) (n : nat) (loop : nat) : option nat :=
  match n with
  | 0 => None
  | S n' =>
      let loop := link_loop_next bm loop in
      if negb (ignorable_loop bm loop) then Some loop
      else walk_next bm n' loop
  end.

(** [while True: v = loop.vert.index; loop = loop.link_loop_prev;
    if not ignorable_loop(loop): break], returning [(v, loop)]. *)
Fixpoint walk_prev (bm : BMesh) (n : nat) (loop : nat) : option (nat * nat) :=
  match n with
  | 0 => None
  | S n' =>
      let v := loop_vert bm loop in
      let loop := link_loop_prev bm loop in
      if negb (ignorable_loop bm loop) then Some (v, loop)
      else walk_prev bm n' loop
  end.

(** ** One iteration of [make_loop] *)

(** What an iteration that does not [break] leaves behind. *)
Record crossed := {
  c_state : visited;
  c_prev_loop : nat;
  c_loop : nat;
  c_forward : bool
}.

Definition py_assert (b : bool) : outcome unit :=
  if b then Done tt else Raise AssertionError.

Definition of_walk {A} (o : option A) : outcome A :=
  match o with Some a => Done a | None => OutOfGas end.

(** [seq[i]] on a list: [IndexError] when there is no such element. *)
Definition of_index {A} (o : option A) : outcome A :=
  match o with Some a => Done a | None => Raise IndexError end.

(** The [if forward:] branch; [None] is the [break]. *)
Definition forward_step (bm : BMesh) (n : nat) (st : visited) (loop : nat)
  : outcome (option crossed) :=
  if dd_get (loops_exited st) loop then Done None
  else
    let st := set_exited st loop in
    loop ← of_walk (walk_next bm n loop);
    _ ← py_assert (negb (dd_get (loops_entered st) loop));
    let st := set_entered st loop in
    let v := loop_vert bm loop in
    let prev_loop := loop in
    first_radial ← of_index (head (link_loops bm loop));
    _ ← py_assert (negb (first_radial =? loop));
    let loop := first_radial in
    let forward := loop_vert bm loop =? v in
    Done (Some {| c_state := st; c_prev_loop := prev_loop;
                  c_loop := loop; c_forward := forward |}).

(** The [else:] branch. *)
Definition backward_step (bm : BMesh) (n : nat) (st : visited) (loop : nat)
  : outcome (option crossed) :=
  if dd_get (loops_entered st) loop then Done None
  else
    let st := set_entered st loop in
    '(v, loop) ← of_walk (walk_prev bm n loop);
    _ ← py_assert (negb (dd_get (loops_exited st) loop));
    let st := set_exited st loop in
    let prev_loop := loop in
    last_radial ← of_index (last (link_loops bm loop));
    _ ← py_assert (negb (last_radial =? loop));
    let loop := last_radial in
    let forward := loop_vert bm loop =? v in
    Done (Some {| c_state := st; c_prev_loop := prev_loop;
                  c_loop := loop; c_forward := forward |}).

Definition step (bm : BMesh) (n : nat) (st : visited) (loop : nat)
    (forward : bool) : outcome (option crossed) :=
  if forward then forward_step bm n st loop else backward_step bm n st loop.

(** ** [make_loop] and the seeding scan *)

Section Traversal.
Context {P : Type}.
Variable bm : BMesh.

(** Lines 136-152: the point of one crossing, from [loop], [prev_loop]
    and [forward]. *)
Variable point : nat -> nat -> bool -> outcome P.

(** The [while True] of [make_loop], from the state it is in at the top of
    an iteration, with the points it still makes.  [n] bounds the inner
    walks, [gas] the iterations. *)
Fixpoint make_loop_from (n gas : nat) (st : visited) (loop : nat)
    (forward : bool) : outcome (list P * visited) :=
  match gas with
  | 0 => OutOfGas
  | S gas' =>
      r ← step bm n st loop forward;
      match r with
      | None => Done ([], st)
      | Some c =>
          p ← point (c_loop c) (c_prev_loop c) (c_forward c);
          '(ps, st') ← make_loop_from n gas' (c_state c) (c_loop c)
                          (c_forward c);
          Done (p :: ps, st')
      end
  end.

(** [make_loop(loop, forward)]: the points of the new spline, in the order
    they are appended, and the visited maps afterwards.  The scan calls it
    only where the closure flag of [loop] is unset, so that the first
    iteration does not break and the spline gets at least one point;
    loading the arrays into the spline is the host's. *)
Definition make_loop (n : nat) (st : visited) (loop : nat) (forward : bool)
  : outcome (list P * visited) :=
  make_loop_from n n st loop forward.

(** The body of [for loop in face.loops]. *)
Definition seed (n : nat) (acc : list (list P) * visited) (loop : nat)
  : outcome (list (list P) * visited) :=
  if ignorable_loop bm loop then Done acc
  else
    acc ← (if negb (dd_get (loops_exited acc.2) loop)
            then '(ps, st) ← make_loop n acc.2 loop true;
                 Done (acc.1 ++ [ps], st)
            else Done acc);
    (if negb (dd_get (loops_entered acc.2) loop)
     then '(ps, st) ← make_loop n acc.2 loop false;
          Done (acc.1 ++ [ps], st)
     else Done acc).

(** [for face in bm.faces: for loop in face.loops: ...] *)
Definition scan (n : nat) : outcome (list (list P) * visited) :=
  for_each (bm_faces bm) (fun acc face => for_each face (seed n) acc)
           ([], fresh).
End Traversal.

(** The crossings themselves, for looking at a traversal without its
    geometry. *)
Definition crossing (loop prev_loop : nat) (forward : bool)
  : outcome (nat * nat * bool) := Done (loop, prev_loop, forward).

(** ** Arithmetic *)

(** The two kinds of number the code computes with: Python floats ([D], C
    doubles) and the components of a [mathutils.Vector] ([F], C floats),
    with the operations the code and [mathutils] apply to them.  [fadd],
    [fsub], [fmul] and [fdiv] are the C float operations behind the sum,
    the difference and the cross product of two vectors and behind a vector
    times or over a number.  [dmul] is Python's [*] on two floats; [dadd],
    [dsqrt] and [dltb] (the test [<]) are the double operations of
    [normalize] and of [thickness > 0].  [widen] and [narrow] are the casts
    between the two kinds, [f_of_Z] and [d_of_Z] the literals of integer
    value, and [tiny] is the [1.0e-35] that a squared length has to exceed
    for [normalize] to scale the vector. *)
Class Arith (F D : Type) := {
  fadd : F -> F -> F;
  fsub : F -> F -> F;
  fmul : F -> F -> F;
  fdiv : F -> F -> F;
  f_of_Z : Z -> F;
  dadd : D -> D -> D;
  dmul : D -> D -> D;
  dsqrt : D -> D;
  dltb : D -> D -> bool;
  d_of_Z : Z -> D;
  tiny : D;
  widen : F -> D;
  narrow : D -> F
}.

(** [math.sin] and [math.cos]. *)
Class Trig (D : Type) := {
  dsin : D -> D;
  dcos : D -> D
}.

(** Exact arithmetic: both kinds of number are real numbers, and the casts
    change nothing. *)
Definition tiny_real : R := (/ 10 ^ 35)%R.

Global Instance real_arith : Arith R R := {|
  fadd := Rplus;
  fsub := Rminus;
  fmul := Rmult;
  fdiv := Rdiv;
  f_of_Z := IZR;
  dadd := Rplus;
  dmul := Rmult;
  dsqrt := sqrt;
  dltb := fun a b => if Rlt_dec a b then true else false;
  d_of_Z := IZR;
  tiny := tiny_real;
  widen := fun x => x;
  narrow := fun x => x
|}.

Global Instance real_trig : Trig R := {| dsin := sin; dcos := cos |}.

(** The arithmetic the code runs on: IEEE 754 binary32 for [F] and binary64
    for [D], every operation rounded to nearest, ties to even.  No
    [math.sin] and [math.cos] are given for it: those are the platform's. *)
Definition binary32 (m e : Z) : spec_float := binary_normalize 24 128 m e false.
Definition binary64 (m e : Z) : spec_float := binary_normalize 53 1024 m e false.

Definition cast (prec emax : Z) (x : spec_float) : spec_float :=
  match x with
  | S754_finite s m e => binary_round prec emax s m e
  | _ => x
  end.

Global Instance ieee_arith : Arith spec_float spec_float := {|
  fadd := SFadd 24 128;
  fsub := SFsub 24 128;
  fmul := SFmul 24 128;
  fdiv := SFdiv 24 128;
  f_of_Z := fun z => binary32 z 0;
  dadd := SFadd 53 1024;
  dmul := SFmul 53 1024;
  dsqrt := SFsqrt 53 1024;
  dltb := SFltb;
  d_of_Z := fun z => binary64 z 0;
  tiny := binary64 7482888383134223 (-169);
  widen := cast 53 1024;
  narrow := cast 24 128
|}.

(** ** Vectors *)

(** [mathutils.Vector] with three coordinates. *)
Record Vector (F : Type) := vec { vx : F; vy : F; vz : F }.
Arguments vec {F} vx vy vz.
Arguments vx {F} v.
Arguments vy {F} v.
Arguments vz {F} v.

Section Vectors.
Context {F D : Type} {A : Arith F D}.

Definition origin : Vector F := vec (f_of_Z 0) (f_of_Z 0) (f_of_Z 0).

(** [a + b] and [a - b]. *)
Definition vadd (a b : Vector F) : Vector F :=
  vec (fadd (vx a) (vx b)) (fadd (vy a) (vy b)) (fadd (vz a) (vz b)).
Definition vsub (a b : Vector F) : Vector F :=
  vec (fsub (vx a) (vx b)) (fsub (vy a) (vy b)) (fsub (vz a) (vz b)).

(** Every component times a C float. *)
Definition vmul_fl (a : Vector F) (f : F) : Vector F :=
  vec (fmul (vx a) f) (fmul (vy a) f) (fmul (vz a) f).

(** [k * a] and [a *= k] for a Python number [k], which is cast to a C float
    first. *)
Definition vscale (k : D) (a : Vector F) : Vector F := vmul_fl a (narrow k).

(** [a / k] for a Python number [k] other than zero: [a] times the
    reciprocal of the cast [k]. *)
Definition vdiv (a : Vector F) (k : D) : Vector F :=
  vmul_fl a (fdiv (f_of_Z 1) (narrow k)).

(** [a.cross(b)]. *)
Definition cross (a b : Vector F) : Vector F :=
  vec (fsub (fmul (vy a) (vz b)) (fmul (vz a) (vy b)))
      (fsub (fmul (vz a) (vx b)) (fmul (vx a) (vz b)))
      (fsub (fmul (vx a) (vy b)) (fmul (vy a) (vx b))).

(** The squared length: the squares are taken and summed as doubles, last
    component first. *)
Definition len_squared (a : Vector F) : D :=
  let sqr x := dmul (widen x) (widen x) in
  dadd (dadd (dadd (d_of_Z 0) (sqr (vz a))) (sqr (vy a))) (sqr (vx a)).

(** [Vector.normalize] / [Vector.normalized]: a vector whose squared length
    is above [1.0e-35] is multiplied by the reciprocal of its length; any
    other becomes the zero vector. *)
Definition normalized (a : Vector F) : Vector F :=
  let d := len_squared a in
  if dltb tiny d then vmul_fl a (fdiv (f_of_Z 1) (narrow (dsqrt d)))
  else origin.
End Vectors.

(** ** Geometry of one crossing *)

(** What the code reads of the mesh's shape: vertex coordinates
    ([obj.vertices[i].co], which is also [loop.vert.co] for a loop at vertex
    [i]), the vertex pairs of [obj.edges] in index order, and
    [loop.calc_normal()]. *)
Record MeshData (F : Type) := {
  vertex_co : nat -> Vector F;
  mesh_edges : list (nat * nat);
  calc_normal : nat -> Vector F
}.
Arguments vertex_co {F} m i.
Arguments mesh_edges {F} m.
Arguments calc_normal {F} m loop.

Inductive handle_kind := AUTO | ALIGNED.

(** One bezier point: its entry in [cos] and, unless the handle type is
    AUTO, its entries in [handle_lefts] and [handle_rights]. *)
Record ControlPoint (F : Type) := {
  co : Vector F;
  handle_left : option (Vector F);
  handle_right : option (Vector F)
}.
Arguments co {F} c.
Arguments handle_left {F} c.
Arguments handle_right {F} c.

(** [xs[i]] for a Python list: a negative index counts from the end. *)
Definition py_index {A} (xs : list A) (i : Z) : option A :=
  if (0 <=? i)%Z then xs !! Z.to_nat i
  else if (- Z.of_nat (length xs) <=? i)%Z
       then xs !! Z.to_nat (Z.of_nat (length xs) + i)
       else None.

(** The operator's properties. *)
Record CelticKnotOperator (D : Type) := {
  weave_up : D;
  weave_down : D;
  handle_type : handle_kind;
  crossing_angle : D;
  crossing_strength : D;
  thickness : D
}.
Arguments weave_up {D} c.
Arguments weave_down {D} c.
Arguments handle_type {D} c.
Arguments crossing_angle {D} c.
Arguments crossing_strength {D} c.
Arguments thickness {D} c.

(** A run that returned [{'FINISHED'}]: the curve, and the radius handed to
    [create_pipe_from_bezier] when that was called. *)
Record finished (F D : Type) := {
  curve : list (list (ControlPoint F));
  pipe : option D
}.
Arguments curve {F D} f.
Arguments pipe {F D} f.

Section Geometry.
Context {F D : Type} {A : Arith F D}.

(** [midpoints] as [create_bezier] caches them. *)
Definition edge_midpoints (geo : MeshData F) : list (Vector F) :=
  (fun e => vdiv (vadd (vertex_co geo e.1) (vertex_co geo e.2)) (d_of_Z 2))
    <$> mesh_edges geo.

(** Lines 136-152 of [make_loop]. *)
Definition control_point (geo : MeshData F) (bm : BMesh)
    (midpoints : list (Vector F)) (s c : D) (handle_type : handle_kind)
    (weave_up weave_down : D) (loop prev_loop : nat) (forward : bool)
  : outcome (ControlPoint F) :=
  midpoint ← of_index (py_index midpoints (loop_edge bm loop));
  let normal := vadd (calc_normal geo loop) (calc_normal geo prev_loop) in
  let normal := normalized normal in
  let offset := if forward then weave_up else weave_down in
  let midpoint := vadd midpoint (vscale offset normal) in
  match handle_type with
  | AUTO =>
      Done {| co := midpoint; handle_left := None; handle_right := None |}
  | ALIGNED =>
      let tangent :=
        vsub (vertex_co geo (loop_vert bm (link_loop_next bm loop)))
             (vertex_co geo (loop_vert bm loop)) in
      let tangent := normalized tangent in
      let binormal := normalized (cross normal tangent) in
      let tangent :=
        if forward then tangent else vscale (d_of_Z (-1)) tangent in
      let s_binormal := vscale s binormal in
      let c_tangent := vscale c tangent in
      let handle_left := vsub (vsub midpoint s_binormal) c_tangent in
      let handle_right := vadd (vadd midpoint s_binormal) c_tangent in
      Done {| co := midpoint; handle_left := Some handle_left;
              handle_right := Some handle_right |}
  end.

(** ** [create_bezier] and [execute] *)

Context {T : Trig D}.

(** The splines of the curve [create_bezier] builds.  [geo] stands for
    [context.active_object.data]; the calls into [bpy] that wrap the curve
    into an object are the host's. *)
Definition create_bezier (geo : MeshData F) (bm : BMesh) (twists : list twist)
    (crossing_angle crossing_strength : D) (handle_type : handle_kind)
    (weave_up weave_down : D) (n : nat)
  : outcome (list (list (ControlPoint F))) :=
  let s := dmul (dsin crossing_angle) crossing_strength in
  let c := dmul (dcos crossing_angle) crossing_strength in
  let midpoints := edge_midpoints geo in
  '(splines, _) ← scan bm (control_point geo bm midpoints s c handle_type
                              weave_up weave_down) n;
  Done splines.

Definition execute (self : CelticKnotOperator D) (geo : MeshData F)
    (bm : BMesh) (n : nat) : outcome (finished F D) :=
  let twists := get_celtic_twists bm in
  curve_obj ← create_bezier geo bm twists (crossing_angle self)
                (crossing_strength self) (handle_type self) (weave_up self)
                (weave_down self) n;
  Done {| curve := curve_obj;
          pipe := if dltb (d_of_Z 0) (thickness self)
                  then Some (thickness self) else None |}.
End Geometry.

(** Numerals given for Python floats read as real numbers. *)
Arguments vec {F} (vx vy vz)%_R.
Arguments vscale {F D A} k%_R a.
Arguments vdiv {F D A} a k%_R.
Arguments control_point {F D A} geo bm midpoints (s c)%_R handle_type
  (weave_up weave_down)%_R loop prev_loop forward.
Arguments create_bezier {F D A T} geo bm twists
  (crossing_angle crossing_strength)%_R handle_type (weave_up weave_down)%_R n.
Arguments Build_CelticKnotOperator {D} (weave_up weave_down)%_R handle_type
  (crossing_angle crossing_strength thickness)%_R.

(** The parameter ranges named in the operator's properties. *)
Definition in_range (self : CelticKnotOperator R) : Prop :=
  (0 <= crossing_angle self <= PI / 2 /\ 0 <= crossing_strength self
   /\ 0 <= thickness self)%R.

(** ** Sample meshes *)

Definition table {A} (d : A) (xs : list A) (i : nat) : A := nth i xs d.

(** One quad on its own: every loop is on the boundary. *)
Definition single_quad : BMesh := {|
  bm_faces := [[0; 1; 2; 3]];
  bm_edges := [0; 1; 2; 3];
  edge_link_loops := table [] [[0]; [1]; [2]; [3]];
  loop_vert := table 0 [0; 1; 2; 3];
  loop_edge := table 0%Z [0; 1; 2; 3]%Z;
  link_loop_next := table 0 [1; 2; 3; 0];
  link_loop_prev := table 0 [3; 0; 1; 2];
  link_loops := table [] [[]; []; []; []]
|}.

(** Two quads sharing one edge: loops 0-3 and 4-7, loops 0 and 4 on the
    shared edge. *)
Definition two_quads : BMesh := {|
  bm_faces := [[0; 1; 2; 3]; [4; 5; 6; 7]];
  bm_edges := [0; 1; 2; 3; 4; 5; 6];
  edge_link_loops := table [] [[0; 4]; [1]; [2]; [3]; [5]; [6]; [7]];
  loop_vert := table 0 [0; 1; 2; 3; 1; 0; 4; 5];
  loop_edge := table 0%Z [0; 1; 2; 3; 0; 4; 5; 6]%Z;
  link_loop_next := table 0 [1; 2; 3; 0; 5; 6; 7; 4];
  link_loop_prev := table 0 [3; 0; 1; 2; 7; 4; 5; 6];
  link_loops := table [] [[4]; []; []; []; [0]; []; []; []]
|}.

(** A tetrahedron with outward faces (0,2,1), (0,1,3), (1,2,3), (0,3,2). *)
Definition tetrahedron : BMesh := {|
  bm_faces := [[0; 1; 2]; [3; 4; 5]; [6; 7; 8]; [9; 10; 11]];
  bm_edges := [0; 1; 2; 3; 4; 5];
  edge_link_loops :=
    table [] [[2; 3]; [0; 11]; [5; 9]; [1; 6]; [4; 8]; [7; 10]];
  loop_vert := table 0 [0; 2; 1; 0; 1; 3; 1; 2; 3; 0; 3; 2];
  loop_edge := table 0%Z [1; 3; 0; 0; 4; 2; 3; 5; 4; 2; 5; 1]%Z;
  link_loop_next := table 0 [1; 2; 0; 4; 5; 3; 7; 8; 6; 10; 11; 9];
  link_loop_prev := table 0 [2; 0; 1; 5; 3; 4; 8; 6; 7; 11; 9; 10];
  link_loops :=
    table [] [[11]; [6]; [3]; [2]; [8]; [9]; [1]; [10]; [4]; [5]; [7]; [0]]
|}.

(** Three triangles around one edge (a "book" of three pages): loops 0, 3
    and 6 share edge 0, radial order 0, 3, 6. *)
Definition three_pages : BMesh := {|
  bm_faces := [[0; 1; 2]; [3; 4; 5]; [6; 7; 8]];
  bm_edges := [0; 1; 2; 3; 4; 5; 6];
  edge_link_loops := table [] [[0; 3; 6]; [1]; [2]; [4]; [5]; [7]; [8]];
  loop_vert := table 0 [0; 1; 2; 1; 0; 3; 0; 1; 4];
  loop_edge := table 0%Z [0; 1; 2; 0; 3; 4; 0; 5; 6]%Z;
  link_loop_next := table 0 [1; 2; 0; 4; 5; 3; 7; 8; 6];
  link_loop_prev := table 0 [2; 0; 1; 5; 3; 4; 8; 6; 7];
  link_loops := table [] [[3; 6]; []; []; [6; 0]; []; []; [0; 3]; []; []]
|}.

(** A flat "pillow": two triangles back to back on the same three
    vertices, loops 0-2 facing up and 3-5 facing down. *)
Definition pillow : BMesh := {|
  bm_faces := [[0; 1; 2]; [3; 4; 5]];
  bm_edges := [0; 1; 2];
  edge_link_loops := table [] [[0; 5]; [1; 4]; [2; 3]];
  loop_vert := table 0 [0; 1; 2; 0; 2; 1];
  loop_edge := table 0%Z [0; 1; 2; 2; 1; 0]%Z;
  link_loop_next := table 0 [1; 2; 0; 4; 5; 3];
  link_loop_prev := table 0 [2; 0; 1; 5; 3; 4];
  link_loops := table [] [[5]; [4]; [3]; [2]; [1]; [0]]
|}.

(** ** Sample shapes *)

Section Shapes.
Context {F D : Type} {A : Arith F D}.

(** The point with the integer coordinates [x], [y], [z]. *)
Definition at_Z (x y z : Z) : Vector F := vec (f_of_Z x) (f_of_Z y) (f_of_Z z).

(** The two quads side by side in the plane [z = 0], both facing up. *)
Definition two_quads_geo : MeshData F := {|
  vertex_co := table origin
    [at_Z 0 0 0; at_Z 0 1 0; at_Z (-1) 1 0; at_Z (-1) 0 0; at_Z 1 0 0;
     at_Z 1 1 0];
  mesh_edges := [(0, 1); (1, 2); (2, 3); (3, 0); (0, 4); (4, 5); (5, 1)];
  calc_normal := fun _ => at_Z 0 0 1
|}.

(** The pillow in the plane [z = 0]. *)
Definition pillow_geo : MeshData F := {|
  vertex_co := table origin [at_Z 0 0 0; at_Z 2 0 0; at_Z 0 2 0];
  mesh_edges := [(0, 1); (1, 2); (2, 0)];
  calc_normal := table origin
    [at_Z 0 0 1; at_Z 0 0 1; at_Z 0 0 1;
     at_Z 0 0 (-1); at_Z 0 0 (-1); at_Z 0 0 (-1)]
|}.

(** The three pages around the [z] axis. *)
Definition three_pages_geo : MeshData F := {|
  vertex_co := table origin
    [at_Z 0 0 0; at_Z 0 0 1; at_Z 1 0 0; at_Z 0 1 0; at_Z 0 (-1) 0];
  mesh_edges := [(0, 1); (1, 2); (2, 0); (0, 3); (3, 1); (1, 4); (4, 0)];
  calc_normal := table origin
    [at_Z 0 1 0; at_Z 0 1 0; at_Z 0 1 0; at_Z 1 0 0; at_Z 1 0 0; at_Z 1 0 0;
     at_Z 1 0 0; at_Z 1 0 0; at_Z 1 0 0]
|}.
End Shapes.

(** ** Well-formed meshes *)

(** What bmesh guarantees of a loop [l]: its face neighbours are loops of the
    mesh and [link_loop_next], [link_loop_prev] undo each other; and a loop
    [r] met around the edge of [l] is a loop of the mesh that meets [l]
    around its own edge. *)
Definition loop_ok (bm : BMesh) (l : nat) : bool :=
  bool_decide (link_loop_next bm l ∈ all_loops bm)
  && bool_decide (link_loop_prev bm l ∈ all_loops bm)
  && (link_loop_prev bm (link_loop_next bm l) =? l)
  && (link_loop_next bm (link_loop_prev bm l) =? l)
  && forallb (fun r => bool_decide (r ∈ all_loops bm)
                       && bool_decide (l ∈ link_loops bm r))
             (link_loops bm l).

Definition mesh_ok (bm : BMesh) : bool := forallb (loop_ok bm) (all_loops bm).

(** A loop and its successor in the face start at different vertices (an
    edge has two ends). *)
Definition edges_proper (bm : BMesh) : bool :=
  forallb (fun l => negb (loop_vert bm (link_loop_next bm l) =? loop_vert bm l))
          (all_loops bm).

(** ** Vocabulary of the statements *)

(** The visited state agrees with its trace, and only interior loops of the
    mesh were ever marked. *)
Record visited_ok (bm : BMesh) (st : visited) : Prop := {
  vo_nodup : NoDup (marks st);
  vo_entered : forall l, dd_get (loops_entered st) l = true <-> Entered l ∈ marks st;
  vo_exited : forall l, dd_get (loops_exited st) l = true <-> Exited l ∈ marks st;
  vo_interior : forall m, m ∈ marks st ->
      mark_loop m ∈ all_loops bm /\ ignorable_loop bm (mark_loop m) = false
}.

(** How often [loops_entered[l] = True] or [loops_exited[l] = True] ran. *)
Definition times_set (st : visited) (m : mark) : nat :=
  count_occ mark_eq_dec (marks st) m.

(** The mark an iteration starts with, and the one it sets after its walk. *)
Definition first_mark (forward : bool) (loop : nat) : mark :=
  if forward then Exited loop else Entered loop.
Definition second_mark (forward : bool) (prev_loop : nat) : mark :=
  if forward then Entered prev_loop else Exited prev_loop.

(** A point made at a crossing between two interior loops. *)
Definition from_interior {P} (bm : BMesh)
    (point : nat -> nat -> bool -> outcome P) (p : P) : Prop :=
  exists loop prev_loop forward,
    point loop prev_loop forward = Done p
    /\ ignorable_loop bm loop = false /\ ignorable_loop bm prev_loop = false.

(** The scan's state: a sound visited state, and splines made of points
    of interior crossings. *)
Definition scan_inv {P} (bm : BMesh) (point : nat -> nat -> bool -> outcome P)
    (acc : list (list P) * visited) : Prop :=
  visited_ok bm acc.2 /\ Forall (Forall (from_interior bm point)) acc.1.

(** The trace only grows. *)
Definition grows {P} (acc acc' : list (list P) * visited) : Prop :=
  exists new, marks acc'.2 = marks acc.2 ++ new.

(** An interior loop the scan has dealt with carries both marks. *)
Definition covered {P} (bm : BMesh) (loop : nat)
    (acc : list (list P) * visited) : Prop :=
  ignorable_loop bm loop = false ->
  Exited loop ∈ marks acc.2 /\ Entered loop ∈ marks acc.2.

(** The splines of a scan, without the visited maps. *)
Definition splines_of {P} (o : outcome (list (list P) * visited))
  : outcome (list (list P)) :=
  '(splines, _) ← o; Done splines.

(** The second outcome follows the first: results related by [R] when the
    first is a result; when [strict], also the same failure when the first
    is a failure. *)
Definition follows {A B} (strict : bool) (R : A -> B -> Prop)
    (o1 : outcome A) (o2 : outcome B) : Prop :=
  match o1 with
  | Done a => match o2 with Done b => R a b | _ => False end
  | Raise e => strict = true -> o2 = Raise e
  | OutOfGas => strict = true -> o2 = OutOfGas
  end.

(** Splines of two runs that went through the same crossings, with the same
    visited state at the end. *)
Definition same_run {P1 P2} (R : P1 -> P2 -> Prop)
    (a1 : list (list P1) * visited) (a2 : list (list P2) * visited) : Prop :=
  Forall2 (Forall2 R) a1.1 a2.1 /\ a1.2 = a2.2.

(** How a run ended, without what it returned. *)
Inductive verdict := Finished | Failed (e : exn) | CutOff.

Definition verdict_of {A} (o : outcome A) : verdict :=
  match o with
  | Done _ => Finished
  | Raise e => Failed e
  | OutOfGas => CutOff
  end.

(** The vertex an iteration holds in [v] when it recomputes [forward]
    after crossing at [prev_loop]. *)
Definition compared_vertex (bm : BMesh) (forward : bool) (prev_loop : nat) : nat :=
  if forward then loop_vert bm prev_loop
  else loop_vert bm (link_loop_next bm prev_loop).

(** The normal used at a crossing: the two loop normals, summed and
    normalized. *)
Definition averaged_normal {F D} {A : Arith F D} (geo : MeshData F)
    (loop prev_loop : nat) : Vector F :=
  normalized (vadd (calc_normal geo loop) (calc_normal geo prev_loop)).

(** The unit vector from the vertex of [loop] to the vertex of its
    successor. *)
Definition edge_direction {F D} {A : Arith F D} (geo : MeshData F)
    (bm : BMesh) (loop : nat) : Vector F :=
  normalized (vsub (vertex_co geo (loop_vert bm (link_loop_next bm loop)))
                   (vertex_co geo (loop_vert bm loop))).

(** [Vector.length]. *)
Definition magnitude {F D} {A : Arith F D} (a : Vector F) : D :=
  dsqrt (len_squared a).

(** [i] is an index Python accepts for a list of [len] elements. *)
Definition index_ok (len : nat) (i : Z) : Prop :=
  (- Z.of_nat len <= i < Z.of_nat len)%Z.

(** The operator as Blender first shows it. *)
Definition default_operator : CelticKnotOperator R := {|
  weave_up := 0;
  weave_down := 0;
  handle_type := AUTO;
  crossing_angle := PI / 4;
  crossing_strength := 0;
  thickness := 0
|}.

(** The marks a traversal from [(loop, forward)] sets on its way through
    [crossings], iteration by iteration. *)
Fixpoint marks_of (loop : nat) (forward : bool)
    (crossings : list (nat * nat * bool)) : list mark :=
  match crossings with
  | [] => []
  | x :: rest =>
      first_mark forward loop :: second_mark forward x.1.2
        :: marks_of x.1.1 x.2 rest
  end.

(** The (half-edge, direction) pairs at which the iterations that made
    [crossings] started, and the pair at which the traversal then broke. *)
Fixpoint completed_starts (loop : nat) (forward : bool)
    (crossings : list (nat * nat * bool)) : list (nat * bool) :=
  match crossings with
  | [] => []
  | x :: rest => (loop, forward) :: completed_starts x.1.1 x.2 rest
  end.

Fixpoint final_start (loop : nat) (forward : bool)
    (crossings : list (nat * nat * bool)) : nat * bool :=
  match crossings with
  | [] => (loop, forward)
  | x :: rest => final_start x.1.1 x.2 rest
  end.

(** ** Vocabulary of the further properties *)

(** No loop is met around its own edge. *)
Definition no_self_radial (bm : BMesh) : bool :=
  forallb (fun l => negb (bool_decide (l ∈ link_loops bm l))) (all_loops bm).

(** Faces are wound consistently: a loop met around the edge of [l] runs
    along it the other way, starting where [l] ends. *)
Definition oriented (bm : BMesh) : bool :=
  forallb (fun l =>
    forallb (fun r =>
      (loop_vert bm r =? loop_vert bm (link_loop_next bm l))
      && negb (loop_vert bm r =? loop_vert bm l))
      (link_loops bm l))
    (all_loops bm).

(** The two marks of a stretch, from an interior loop [a] to the next
    interior loop [p] of its face, go together: [loops_exited[a]] reads as
    [loops_entered[p]] does. *)
Definition paired (bm : BMesh) (n : nat) (st : visited) : Prop :=
  forall a p, a ∈ all_loops bm -> ignorable_loop bm a = false ->
    walk_next bm n a = Some p ->
    dd_get (loops_exited st) a = dd_get (loops_entered st) p.

(** The recomputed directions along [crossings] flip at every crossing,
    starting from [forward]. *)
Fixpoint alternates (forward : bool) (crossings : list (nat * nat * bool))
  : Prop :=
  match crossings with
  | [] => True
  | x :: rest => x.2 = negb forward /\ alternates x.2 rest
  end.

(** The interior loops of the mesh. *)
Definition interior_loops (bm : BMesh) : list nat :=
  filter (fun l => ignorable_loop bm l = false) (all_loops bm).

(** Every interior loop has exactly one radial neighbour, and the two lie
    on the same pair of vertices: the mesh is a 2-manifold away from its
    boundary. *)
Definition manifold (bm : BMesh) : bool :=
  forallb (fun l =>
    match link_loops bm l with
    | [] => true
    | [r] =>
        ((loop_vert bm r =? loop_vert bm l)
         && (loop_vert bm (link_loop_next bm r)
             =? loop_vert bm (link_loop_next bm l)))
        || ((loop_vert bm r =? loop_vert bm (link_loop_next bm l))
            && (loop_vert bm (link_loop_next bm r) =? loop_vert bm l))
    | _ => false
    end)
    (all_loops bm).

(** The crossing an iteration makes from [loop] in direction [forward], as
    far as the mesh alone decides it: [(loop', prev_loop, forward')]. *)
Definition crossing_from (bm : BMesh) (n : nat) (loop : nat) (forward : bool)
  : option (nat * nat * bool) :=
  if forward then
    p ← walk_next bm n loop;
    r ← head (link_loops bm p);
    Some (r, p, loop_vert bm r =? loop_vert bm p)
  else
    '(v, q) ← walk_prev bm n loop;
    r ← last (link_loops bm q);
    Some (r, q, loop_vert bm r =? v).

(** A spline closes: from where its last crossing lands, in the direction
    recomputed there, the next crossing would be its first one again. *)
Definition closes (bm : BMesh) (n : nat) (crossings : list (nat * nat * bool))
  : Prop :=
  exists first final,
    head crossings = Some first /\ last crossings = Some final
    /\ crossing_from bm n final.1.1 final.2 = Some first.

(** The next and the previous interior loop of a face, the radial
    neighbour, and with them: where an iteration from a state lands, the
    state that runs the same stretch the other way, and the loop that
    stretch starts at. *)
Definition next_interior (bm : BMesh) (n : nat) (l : nat) : nat :=
  default l (walk_next bm n l).
Definition prev_interior (bm : BMesh) (n : nat) (l : nat) : nat :=
  default l (snd <$> walk_prev bm n l).
Definition radial (bm : BMesh) (l : nat) : nat :=
  default l (head (link_loops bm l)).

Definition landing (bm : BMesh) (n : nat) (s : nat * bool) : nat * bool :=
  if s.2 then
    let p := next_interior bm n s.1 in
    (radial bm p, loop_vert bm (radial bm p) =? loop_vert bm p)
  else
    let q := prev_interior bm n s.1 in
    (radial bm q,
     loop_vert bm (radial bm q) =? loop_vert bm (link_loop_next bm q)).

Definition reversed (bm : BMesh) (n : nat) (s : nat * bool) : nat * bool :=
  if s.2 then (next_interior bm n s.1, false)
  else (prev_interior bm n s.1, true).

Definition stretch (bm : BMesh) (n : nat) (s : nat * bool) : nat :=
  if s.2 then s.1 else prev_interior bm n s.1.

Definition valid (bm : BMesh) (s : nat * bool) : Prop :=
  s.1 ∈ all_loops bm /\ ignorable_loop bm s.1 = false.

(** The states a traversal from [s0] has iterated from, latest first, and
    the state it is in: each is where the one before it landed, and no
    stretch was run twice. *)
Inductive chain (bm : BMesh) (n : nat) (s0 : nat * bool)
  : list (nat * bool) -> nat * bool -> Prop :=
| chain_start : chain bm n s0 [] s0
| chain_step y older :
    chain bm n s0 older y ->
    stretch bm n y ∉ (stretch bm n <$> older) ->
    chain bm n s0 (y :: older) (landing bm n y).

(** Whole strands are done: if the stretch of a state is marked, so is the
    stretch of the state it lands in. *)
Definition strands_done (bm : BMesh) (n : nat) (st : visited) : Prop :=
  forall s, valid bm s ->
    dd_get (loops_exited st) (stretch bm n s) = true ->
    dd_get (loops_exited st) (stretch bm n (landing bm n s)) = true.

(** * Properties *)

(** ** The sample meshes *)

Example single_quad_ok : mesh_ok single_quad = true.
Proof. vm_compute. reflexivity. Qed.
Example two_quads_ok : mesh_ok two_quads = true.
Proof. vm_compute. reflexivity. Qed.
Example tetrahedron_ok :
  mesh_ok tetrahedron = true /\ edges_proper tetrahedron = true.
Proof. vm_compute. auto. Qed.
Example three_pages_ok : mesh_ok three_pages = true.
Proof. vm_compute. reflexivity. Qed.
Example pillow_ok : mesh_ok pillow = true /\ edges_proper pillow = true.
Proof. vm_compute. auto. Qed.

(** Crossings are written [(loop, prev_loop, forward)]. *)

(** A quad on its own seeds nothing. *)
Example single_quad_crossings :
  scan single_quad crossing 5 = Done ([], fresh).
Proof. vm_compute. reflexivity. Qed.

(** Two quads: one spline, crossing the shared edge once each way. *)
Example two_quads_crossings :
  splines_of (scan two_quads crossing 9)
  = Done [[(4, 0, false); (0, 4, true)]].
Proof. vm_compute. reflexivity. Qed.

(** The tetrahedron: three splines of four points. *)
Example tetrahedron_crossings :
  splines_of (scan tetrahedron crossing 13)
  = Done [[(6, 1, false); (4, 8, true); (9, 5, false); (0, 11, true)];
          [(3, 2, true); (8, 4, false); (10, 7, true); (0, 11, false)];
          [(3, 2, false); (9, 5, true); (7, 10, false); (1, 6, true)]].
Proof. vm_compute. reflexivity. Qed.

Example three_pages_crossings :
  splines_of (scan three_pages crossing 10)
  = Done [[(3, 0, false); (0, 3, true)]; [(0, 6, true)]].
Proof. vm_compute. reflexivity. Qed.

Example pillow_crossings :
  splines_of (scan pillow crossing 7)
  = Done [[(4, 1, false); (2, 3, true); (5, 0, false);
           (1, 4, true); (3, 2, false); (0, 5, true)]].
Proof. vm_compute. reflexivity. Qed.

(** ** Orbits of a function with a left inverse on a finite list *)

Section Orbit.
Variables (f g : nat -> nat) (L : list nat).
Hypothesis f_closed : forall x, x ∈ L -> f x ∈ L.
Hypothesis g_f : forall x, x ∈ L -> g (f x) = x.

Lemma iter_closed k x : x ∈ L -> Nat.iter k f x ∈ L.
Proof. intros Hx. induction k as [|k IH]; simpl; auto. Qed.

Lemma iter_cancel a k x :
  x ∈ L -> Nat.iter (a + k) f x = Nat.iter a f x -> Nat.iter k f x = x.
Proof.
  intros Hx. induction a as [|a IH]; simpl; [done|].
  intros Heq. apply IH.
  rewrite <- (g_f (Nat.iter (a + k) f x)), <- (g_f (Nat.iter a f x))
    by (apply iter_closed; done).
  by rewrite Heq.
Qed.

(** Pigeonhole: among [x, f x, ..., f^|L| x] two coincide, and [g] peels
    the common prefix off. *)
Lemma orbit_returns x :
  x ∈ L -> exists k, 1 <= k <= length L /\ Nat.iter k f x = x.
Proof.
  intros Hx.
  destruct (list_pigeonhole ((fun i => Nat.iter i f x) <$> seq 0 (S (length L))) L)
    as (i1 & i2 & y & Hlt & H1 & H2).
  - intros y Hy. apply list_elem_of_fmap in Hy as (i & -> & _).
    by apply iter_closed.
  - rewrite length_fmap, length_seq. lia.
  - rewrite list_lookup_fmap in H1, H2.
    destruct (seq 0 (S (length L)) !! i1) as [j1|] eqn:E1; [|done].
    destruct (seq 0 (S (length L)) !! i2) as [j2|] eqn:E2; [|done].
    apply lookup_seq in E1 as [-> ?], E2 as [-> ?]. simpl in *.
    injection H1 as H1. injection H2 as H2.
    exists (i2 - i1). split; [lia|].
    apply (iter_cancel i1); [done|].
    replace (i1 + (i2 - i1)) with i2 by lia. congruence.
Qed.
End Orbit.

(** ** Reading the well-formedness checks *)

Lemma mesh_ok_at bm l :
  mesh_ok bm = true -> l ∈ all_loops bm ->
  link_loop_next bm l ∈ all_loops bm
  /\ link_loop_prev bm l ∈ all_loops bm
  /\ link_loop_prev bm (link_loop_next bm l) = l
  /\ link_loop_next bm (link_loop_prev bm l) = l
  /\ forall r, r ∈ link_loops bm l -> r ∈ all_loops bm /\ l ∈ link_loops bm r.
Proof.
  unfold mesh_ok. rewrite forallb_forall. intros Hall Hl.
  apply list_elem_of_In, Hall in Hl. unfold loop_ok in Hl.
  apply andb_true_iff in Hl as [Hl Hrad].
  apply andb_true_iff in Hl as [Hl Hnp].
  apply andb_true_iff in Hl as [Hl Hpn].
  apply andb_true_iff in Hl as [Hn Hp].
  apply bool_decide_eq_true in Hn, Hp. apply Nat.eqb_eq in Hnp, Hpn.
  repeat split; try done.
  all: rewrite forallb_forall in Hrad; apply list_elem_of_In, Hrad in H;
    apply andb_true_iff in H as [H1 H2];
    apply bool_decide_eq_true in H1, H2; done.
Qed.

Lemma elem_of_all_loops bm l :
  l ∈ all_loops bm <-> exists face, l ∈ face /\ face ∈ bm_faces bm.
Proof.
  unfold all_loops. rewrite list_elem_of_In, in_concat.
  split; intros (face & H1 & H2); exists face; by rewrite !list_elem_of_In in *.
Qed.

Lemma neighbour_interior bm l r :
  l ∈ link_loops bm r -> ignorable_loop bm r = false.
Proof.
  unfold ignorable_loop. intros Hin. apply Nat.eqb_neq.
  destruct (link_loops bm r); [by apply not_elem_of_nil in Hin | done].
Qed.

Lemma interior_head bm l :
  ignorable_loop bm l = false -> exists r, head (link_loops bm l) = Some r.
Proof.
  unfold ignorable_loop. intros H. apply Nat.eqb_neq in H.
  destruct (link_loops bm l); [done | eauto].
Qed.

Lemma interior_last bm l :
  ignorable_loop bm l = false -> exists r, last (link_loops bm l) = Some r.
Proof.
  unfold ignorable_loop. intros H. apply Nat.eqb_neq in H.
  destruct (link_loops bm l) as [|x xs] using rev_ind; [done|].
  rewrite last_snoc. eauto.
Qed.

(** ** The walks inside a face end *)

Lemma walk_next_finds bm n : forall k l,
  1 <= k <= n ->
  ignorable_loop bm (Nat.iter k (link_loop_next bm) l) = false ->
  exists j, 1 <= j <= k
    /\ walk_next bm n l = Some (Nat.iter j (link_loop_next bm) l)
    /\ ignorable_loop bm (Nat.iter j (link_loop_next bm) l) = false.
Proof.
  induction n as [|n IH]; intros k l Hk Hint; [lia|]. simpl.
  destruct (ignorable_loop bm (link_loop_next bm l)) eqn:E; simpl.
  - destruct k as [|[|k]]; [lia | simpl in Hint; congruence |].
    rewrite Nat.iter_succ_r in Hint.
    destruct (IH (S k) (link_loop_next bm l)) as (j & Hj & Hw & Hi);
      [lia | done |].
    exists (S j). rewrite Nat.iter_succ_r. split; [lia | done].
  - exists 1. simpl. split; [lia | done].
Qed.

Lemma walk_prev_finds bm n : forall k l,
  1 <= k <= n ->
  ignorable_loop bm (Nat.iter k (link_loop_prev bm) l) = false ->
  exists j, 1 <= j <= k
    /\ walk_prev bm n l =
         Some (loop_vert bm (Nat.iter (j - 1) (link_loop_prev bm) l),
               Nat.iter j (link_loop_prev bm) l)
    /\ ignorable_loop bm (Nat.iter j (link_loop_prev bm) l) = false.
Proof.
  induction n as [|n IH]; intros k l Hk Hint; [lia|]. simpl.
  destruct (ignorable_loop bm (link_loop_prev bm l)) eqn:E; simpl.
  - destruct k as [|[|k]]; [lia | simpl in Hint; congruence |].
    rewrite Nat.iter_succ_r in Hint.
    destruct (IH (S k) (link_loop_prev bm l)) as (j & Hj & Hw & Hi);
      [lia | done |].
    exists (S j). rewrite Nat.iter_succ_r.
    replace (S j - 1) with (S (j - 1)) by lia.
    rewrite Nat.iter_succ_r. split; [lia | done].
  - exists 1. simpl. split; [lia | done].
Qed.

Section Walks.
Variable bm : BMesh.
Hypothesis Hok : mesh_ok bm = true.

Lemma next_closed l : l ∈ all_loops bm -> link_loop_next bm l ∈ all_loops bm.
Proof. intros H. by apply mesh_ok_at in H as (? & _). Qed.

Lemma prev_closed l : l ∈ all_loops bm -> link_loop_prev bm l ∈ all_loops bm.
Proof. intros H. by apply mesh_ok_at in H as (_ & ? & _). Qed.

Lemma prev_next l :
  l ∈ all_loops bm -> link_loop_prev bm (link_loop_next bm l) = l.
Proof. intros H. by apply mesh_ok_at in H as (_ & _ & ? & _). Qed.

Lemma next_prev l :
  l ∈ all_loops bm -> link_loop_next bm (link_loop_prev bm l) = l.
Proof. intros H. by apply mesh_ok_at in H as (_ & _ & _ & ? & _). Qed.

Lemma radial_closed l r :
  l ∈ all_loops bm -> r ∈ link_loops bm l ->
  r ∈ all_loops bm /\ ignorable_loop bm r = false.
Proof.
  intros H Hr. apply mesh_ok_at in H as (_ & _ & _ & _ & H); [|done].
  destruct (H r Hr). eauto using neighbour_interior.
Qed.

(** From an interior loop the forward walk comes to rest on an interior
    loop of the mesh within one turn of the face. *)
Lemma walk_next_ends n l :
  l ∈ all_loops bm -> ignorable_loop bm l = false ->
  length (all_loops bm) <= n ->
  exists p, walk_next bm n l = Some p
    /\ p ∈ all_loops bm /\ ignorable_loop bm p = false.
Proof.
  intros Hl Hint Hn.
  destruct (orbit_returns _ _ _ next_closed prev_next l Hl) as (k & Hk & Hret).
  destruct (walk_next_finds bm n k l) as (j & _ & Hw & Hi);
    [lia | by rewrite Hret |].
  eexists. split; [done|]. split; [|done].
  by apply (iter_closed _ _ next_closed).
Qed.

(** The backward walk likewise; the vertex it hands on is the one at the
    start of the successor of the loop it rests on. *)
Lemma walk_prev_ends n l :
  l ∈ all_loops bm -> ignorable_loop bm l = false ->
  length (all_loops bm) <= n ->
  exists p, walk_prev bm n l =
              Some (loop_vert bm (link_loop_next bm p), p)
    /\ p ∈ all_loops bm /\ ignorable_loop bm p = false.
Proof.
  intros Hl Hint Hn.
  destruct (orbit_returns _ _ _ prev_closed next_prev l Hl) as (k & Hk & Hret).
  destruct (walk_prev_finds bm n k l) as (j & Hj & Hw & Hi);
    [lia | by rewrite Hret |].
  eexists. split; [|split; [|done]]; [|by apply (iter_closed _ _ prev_closed)].
  rewrite Hw. do 3 f_equal.
  destruct j as [|j]; [lia|]. simpl. rewrite Nat.sub_0_r.
  symmetry. apply next_prev. by apply (iter_closed _ _ prev_closed).
Qed.
End Walks.

(** ** The visited maps and their trace *)

Lemma dd_get_insert d l k :
  dd_get (<[l := true]> d) k = if decide (l = k) then true else dd_get d k.
Proof. unfold dd_get. rewrite lookup_insert. by case_decide. Qed.

Lemma fresh_ok bm : visited_ok bm fresh.
Proof.
  split; simpl.
  - constructor.
  - intros l. unfold dd_get. rewrite lookup_empty. simpl.
    split; [done | intros H; by apply not_elem_of_nil in H].
  - intros l. unfold dd_get. rewrite lookup_empty. simpl.
    split; [done | intros H; by apply not_elem_of_nil in H].
  - intros m H. by apply not_elem_of_nil in H.
Qed.

Lemma set_exited_ok bm st l :
  visited_ok bm st -> dd_get (loops_exited st) l = false ->
  l ∈ all_loops bm -> ignorable_loop bm l = false ->
  visited_ok bm (set_exited st l).
Proof.
  intros [Hnd Hen Hex Hin] Hfalse Hl Hint. split; simpl.
  - apply NoDup_app. split; [done|]. split; [|apply NoDup_singleton].
    intros m Hm Hm'. apply list_elem_of_singleton in Hm' as ->.
    apply Hex in Hm. congruence.
  - intros k. rewrite Hen, elem_of_app, list_elem_of_singleton.
    split; [auto | intros [? | ?]; [done | discriminate]].
  - intros k. rewrite dd_get_insert, elem_of_app, list_elem_of_singleton.
    case_decide as Hk.
    + subst. split; auto.
    + rewrite Hex. split; [auto | intros [? | ?]; [done | congruence]].
  - intros m. rewrite elem_of_app, list_elem_of_singleton.
    intros [Hm | ->]; [by apply Hin | done].
Qed.

Lemma set_entered_ok bm st l :
  visited_ok bm st -> dd_get (loops_entered st) l = false ->
  l ∈ all_loops bm -> ignorable_loop bm l = false ->
  visited_ok bm (set_entered st l).
Proof.
  intros [Hnd Hen Hex Hin] Hfalse Hl Hint. split; simpl.
  - apply NoDup_app. split; [done|]. split; [|apply NoDup_singleton].
    intros m Hm Hm'. apply list_elem_of_singleton in Hm' as ->.
    apply Hen in Hm. congruence.
  - intros k. rewrite dd_get_insert, elem_of_app, list_elem_of_singleton.
    case_decide as Hk.
    + subst. split; auto.
    + rewrite Hen. split; [auto | intros [? | ?]; [done | congruence]].
  - intros k. rewrite Hex, elem_of_app, list_elem_of_singleton.
    split; [auto | intros [? | ?]; [done | discriminate]].
  - intros m. rewrite elem_of_app, list_elem_of_singleton.
    intros [Hm | ->]; [by apply Hin | done].
Qed.

(** There are only [2 * |loops|] marks to hand out. *)
Lemma marks_bound bm st :
  visited_ok bm st -> length (marks st) <= 2 * length (all_loops bm).
Proof.
  intros [Hnd _ _ Hin].
  transitivity (length ((Entered <$> all_loops bm) ++ (Exited <$> all_loops bm))).
  - apply submseteq_length, NoDup_submseteq; [done|].
    intros m Hm. apply Hin in Hm as [Hm _]. apply elem_of_app.
    destruct m; [left | right]; by apply list_elem_of_fmap_2.
  - rewrite length_app, !length_fmap. lia.
Qed.

Lemma times_set_once bm st m :
  visited_ok bm st -> m ∈ marks st -> times_set st m = 1.
Proof.
  intros [Hnd _ _ _] Hm. unfold times_set.
  apply NoDup_count_occ'; [by apply NoDup_ListNoDup | by apply list_elem_of_In].
Qed.

Lemma times_set_never st m : m ∉ marks st -> times_set st m = 0.
Proof.
  intros Hm. unfold times_set. apply count_occ_not_In.
  by rewrite <- list_elem_of_In.
Qed.

(** ** What one iteration does *)

Lemma walk_next_inv bm n : forall l p,
  mesh_ok bm = true -> l ∈ all_loops bm -> walk_next bm n l = Some p ->
  p ∈ all_loops bm /\ ignorable_loop bm p = false.
Proof.
  induction n as [|n IH]; intros l p Hok Hl; simpl; [done|].
  pose proof (next_closed bm Hok l Hl) as Hn.
  destruct (ignorable_loop bm (link_loop_next bm l)) eqn:E; simpl.
  - by apply IH.
  - by intros [= <-].
Qed.

Lemma walk_prev_inv bm n : forall l v p,
  mesh_ok bm = true -> l ∈ all_loops bm -> walk_prev bm n l = Some (v, p) ->
  p ∈ all_loops bm /\ ignorable_loop bm p = false
  /\ v = loop_vert bm (link_loop_next bm p).
Proof.
  induction n as [|n IH]; intros l v p Hok Hl; simpl; [done|].
  pose proof (prev_closed bm Hok l Hl) as Hn.
  destruct (ignorable_loop bm (link_loop_prev bm l)) eqn:E; simpl.
  - by apply IH.
  - intros [= <- <-]. by rewrite next_prev.
Qed.

Lemma forward_step_inv bm n st loop c :
  forward_step bm n st loop = Done (Some c) ->
  dd_get (loops_exited st) loop = false
  /\ walk_next bm n loop = Some (c_prev_loop c)
  /\ dd_get (loops_entered st) (c_prev_loop c) = false
  /\ head (link_loops bm (c_prev_loop c)) = Some (c_loop c)
  /\ c_loop c <> c_prev_loop c
  /\ c_forward c = (loop_vert bm (c_loop c) =? loop_vert bm (c_prev_loop c))
  /\ c_state c = set_entered (set_exited st loop) (c_prev_loop c).
Proof.
  unfold forward_step.
  destruct (dd_get (loops_exited st) loop); [intros ?; discriminate|].
  destruct (walk_next bm n loop) as [p|]; simpl; [|intros ?; discriminate].
  destruct (dd_get (loops_entered st) p) eqn:Een; simpl; [intros ?; discriminate|].
  destruct (head (link_loops bm p)) as [r|] eqn:Ehd; simpl; [|intros ?; discriminate].
  destruct (r =? p) eqn:Erp; simpl; [intros ?; discriminate|].
  intros [= <-]. simpl. apply Nat.eqb_neq in Erp. repeat split; auto.
Qed.

Lemma backward_step_inv bm n st loop c :
  backward_step bm n st loop = Done (Some c) ->
  dd_get (loops_entered st) loop = false
  /\ (exists v, walk_prev bm n loop = Some (v, c_prev_loop c)
        /\ c_forward c = (loop_vert bm (c_loop c) =? v))
  /\ dd_get (loops_exited st) (c_prev_loop c) = false
  /\ last (link_loops bm (c_prev_loop c)) = Some (c_loop c)
  /\ c_loop c <> c_prev_loop c
  /\ c_state c = set_exited (set_entered st loop) (c_prev_loop c).
Proof.
  unfold backward_step.
  destruct (dd_get (loops_entered st) loop); [intros ?; discriminate|].
  destruct (walk_prev bm n loop) as [[v p]|]; simpl; [|intros ?; discriminate].
  destruct (dd_get (loops_exited st) p) eqn:Een; simpl; [intros ?; discriminate|].
  destruct (last (link_loops bm p)) as [r|] eqn:Ehd; simpl; [|intros ?; discriminate].
  destruct (r =? p) eqn:Erp; simpl; [intros ?; discriminate|].
  intros [= <-]. simpl. apply Nat.eqb_neq in Erp. repeat split; eauto.
Qed.

(** An iteration breaks exactly on the closure check. *)
Lemma step_break bm n st loop forward :
  step bm n st loop forward = Done None <->
  dd_get (if forward then loops_exited st else loops_entered st) loop = true.
Proof.
  destruct forward; simpl; unfold forward_step, backward_step.
  - destruct (dd_get (loops_exited st) loop); [done|]. split; [|done].
    destruct (walk_next bm n loop) as [p|]; simpl; [|done].
    destruct (dd_get (loops_entered st) p); simpl; [done|].
    destruct (head (link_loops bm p)) as [r|]; simpl; [|done].
    by destruct (r =? p).
  - destruct (dd_get (loops_entered st) loop); [done|]. split; [|done].
    destruct (walk_prev bm n loop) as [[v p]|]; simpl; [|done].
    destruct (dd_get (loops_exited st) p); simpl; [done|].
    destruct (last (link_loops bm p)) as [r|]; simpl; [|done].
    by destruct (r =? p).
Qed.

Lemma step_ok bm n st loop forward c :
  mesh_ok bm = true -> visited_ok bm st ->
  loop ∈ all_loops bm -> ignorable_loop bm loop = false ->
  step bm n st loop forward = Done (Some c) ->
  visited_ok bm (c_state c)
  /\ c_loop c ∈ all_loops bm /\ ignorable_loop bm (c_loop c) = false
  /\ c_prev_loop c ∈ all_loops bm /\ ignorable_loop bm (c_prev_loop c) = false
  /\ marks (c_state c) =
       marks st ++ [first_mark forward loop; second_mark forward (c_prev_loop c)].
Proof.
  intros Hok Hst Hl Hint. destruct forward; simpl.
  - intros (Hex & Hw & Hen & Hhd & _ & _ & ->)%forward_step_inv.
    destruct (walk_next_inv _ _ _ _ Hok Hl Hw) as [Hp Hpi].
    apply head_Some_elem_of in Hhd.
    destruct (radial_closed bm Hok _ _ Hp Hhd) as [Hr Hri].
    split_and!; try done; [|simpl; by rewrite <- app_assoc].
    apply set_entered_ok; [by apply set_exited_ok | done..].
  - intros (Hen & (v & Hw & _) & Hex & Hhd & _ & ->)%backward_step_inv.
    destruct (walk_prev_inv _ _ _ _ _ Hok Hl Hw) as (Hp & Hpi & _).
    apply last_Some_elem_of in Hhd.
    destruct (radial_closed bm Hok _ _ Hp Hhd) as [Hr Hri].
    split_and!; try done; [|simpl; by rewrite <- app_assoc].
    apply set_exited_ok; [by apply set_entered_ok | done..].
Qed.

Lemma step_terminates bm n st loop forward :
  mesh_ok bm = true ->
  loop ∈ all_loops bm -> ignorable_loop bm loop = false ->
  length (all_loops bm) <= n ->
  step bm n st loop forward <> OutOfGas.
Proof.
  intros Hok Hl Hint Hn. destruct forward; simpl;
    unfold forward_step, backward_step.
  - destruct (dd_get (loops_exited st) loop); [done|].
    destruct (walk_next_ends bm Hok n loop) as (p & -> & Hp & Hpi); [done..|].
    simpl. destruct (dd_get (loops_entered st) p); simpl; [done|].
    destruct (head (link_loops bm p)) as [r|]; simpl; [|done].
    by destruct (r =? p).
  - destruct (dd_get (loops_entered st) loop); [done|].
    destruct (walk_prev_ends bm Hok n loop) as (p & -> & Hp & Hpi); [done..|].
    simpl. destruct (dd_get (loops_exited st) p); simpl; [done|].
    destruct (last (link_loops bm p)) as [r|]; simpl; [|done].
    by destruct (r =? p).
Qed.

(** ** Python's [for] with an invariant *)

Section ForEach.
Context {A S : Type}.
Variables (I : S -> Prop) (le : S -> S -> Prop) (Q : A -> S -> Prop).
Hypothesis le_refl : forall s, le s s.
Hypothesis le_trans : forall s1 s2 s3, le s1 s2 -> le s2 s3 -> le s1 s3.
Hypothesis Q_mono : forall x s s', le s s' -> Q x s -> Q x s'.

Lemma for_each_inv (body : S -> A -> outcome S) : forall xs s s',
  (forall s x s', x ∈ xs -> I s -> body s x = Done s' ->
      I s' /\ le s s' /\ Q x s') ->
  I s -> for_each xs body s = Done s' ->
  I s' /\ le s s' /\ forall x, x ∈ xs -> Q x s'.
Proof.
  induction xs as [|x xs IH]; intros s s' Hbody Hs; simpl.
  - intros [= <-]. split_and!; auto. intros x Hx. by apply not_elem_of_nil in Hx.
  - destruct (body s x) as [s1| |] eqn:Eb; simpl; try discriminate.
    intros Hrest.
    destruct (Hbody s x s1) as (Hs1 & Hle1 & Hq1); [left | done | done |].
    destruct (IH s1 s') as (Hs' & Hle' & Hq'); [|done|done|].
    { intros ? ? ? ?. apply Hbody. by right. }
    split_and!; eauto.
    intros y [-> | Hy]%elem_of_cons; eauto.
Qed.

Lemma for_each_terminates (body : S -> A -> outcome S) : forall xs s,
  (forall s x, x ∈ xs -> I s -> body s x <> OutOfGas) ->
  (forall s x s', x ∈ xs -> I s -> body s x = Done s' -> I s') ->
  I s -> for_each xs body s <> OutOfGas.
Proof.
  induction xs as [|x xs IH]; intros s Hterm Hpres Hs; simpl; [done|].
  destruct (body s x) as [s1| |] eqn:Eb; simpl; [|done|].
  - apply IH.
    + intros ? ? ?. apply Hterm. by right.
    + intros ? ? ? ?. apply Hpres. by right.
    + eapply Hpres; [left | done | done].
  - exfalso. eapply Hterm; [left | done | done].
Qed.
End ForEach.

(** ** One traversal, and the scan *)

Section TraversalFacts.
Context {P : Type}.
Variable bm : BMesh.
Variable point : nat -> nat -> bool -> outcome P.
Hypothesis Hok : mesh_ok bm = true.

Lemma make_loop_from_ok n : forall gas st loop forward ps st',
  visited_ok bm st ->
  loop ∈ all_loops bm -> ignorable_loop bm loop = false ->
  make_loop_from bm point n gas st loop forward = Done (ps, st') ->
  visited_ok bm st'
  /\ exists new, marks st' = marks st ++ new
      /\ length new = 2 * length ps
      /\ Forall (from_interior bm point) ps
      /\ (dd_get (if forward then loops_exited st else loops_entered st) loop
            = false -> first_mark forward loop ∈ new).
Proof.
  induction gas as [|gas IH]; intros st loop forward ps st' Hst Hl Hint;
    simpl; [done|].
  destruct (step bm n st loop forward) as [[c|]| |] eqn:Es; simpl;
    try discriminate.
  - destruct (point (c_loop c) (c_prev_loop c) (c_forward c)) as [p| |] eqn:Ep;
      simpl; try discriminate.
    destruct (make_loop_from bm point n gas (c_state c) (c_loop c) (c_forward c))
      as [[ps0 st0]| |] eqn:Er; simpl; try discriminate.
    intros [= <- <-].
    destruct (step_ok _ _ _ _ _ _ Hok Hst Hl Hint Es)
      as (Hc & Hcl & Hci & Hpl & Hpi & Hm).
    destruct (IH _ _ _ _ _ Hc Hcl Hci Er) as (Hst0 & new & Hnew & Hlen & Hall & _).
    split; [done|].
    exists ([first_mark forward loop; second_mark forward (c_prev_loop c)] ++ new).
    split_and!.
    + by rewrite Hnew, Hm, <- app_assoc.
    + rewrite length_app. simpl. lia.
    + constructor; [|done]. by exists (c_loop c), (c_prev_loop c), (c_forward c).
    + intros _. left.
  - intros [= <- <-]. split; [done|]. exists []. split_and!.
    + by rewrite app_nil_r.
    + done.
    + constructor.
    + apply step_break in Es. congruence.
Qed.

Lemma make_loop_from_terminates n :
  (forall a b c, point a b c <> OutOfGas) ->
  length (all_loops bm) <= n ->
  forall gas st loop forward,
  visited_ok bm st ->
  loop ∈ all_loops bm -> ignorable_loop bm loop = false ->
  2 * length (all_loops bm) < 2 * gas + length (marks st) ->
  make_loop_from bm point n gas st loop forward <> OutOfGas.
Proof.
  intros Hpt Hn.
  induction gas as [|gas IH]; intros st loop forward Hst Hl Hint Hgas; simpl.
  - pose proof (marks_bound _ _ Hst). lia.
  - pose proof (step_terminates bm n st loop forward Hok Hl Hint Hn) as Hs.
    destruct (step bm n st loop forward) as [[c|]| |] eqn:Es; simpl; try done.
    pose proof (Hpt (c_loop c) (c_prev_loop c) (c_forward c)) as Hp.
    destruct (point (c_loop c) (c_prev_loop c) (c_forward c)) as [p| |];
      simpl; try done.
    destruct (step_ok _ _ _ _ _ _ Hok Hst Hl Hint Es)
      as (Hc & Hcl & Hci & _ & _ & Hm).
    specialize (IH (c_state c) (c_loop c) (c_forward c) Hc Hcl Hci).
    destruct (make_loop_from bm point n gas (c_state c) (c_loop c) (c_forward c))
      as [[ps0 st0]| |]; simpl; try done.
    apply IH. rewrite Hm, length_app. simpl. lia.
Qed.

Lemma grows_refl (acc : list (list P) * visited) : grows acc acc.
Proof. exists []. by rewrite app_nil_r. Qed.

Lemma grows_trans (a1 a2 a3 : list (list P) * visited) :
  grows a1 a2 -> grows a2 a3 -> grows a1 a3.
Proof.
  intros [n1 H1] [n2 H2]. exists (n1 ++ n2). by rewrite H2, H1, <- app_assoc.
Qed.

Lemma covered_mono loop (acc acc' : list (list P) * visited) :
  grows acc acc' -> covered bm loop acc -> covered bm loop acc'.
Proof.
  intros [new Hnew] Hc Hint. destruct (Hc Hint). rewrite Hnew.
  split; apply elem_of_app; by left.
Qed.

Lemma make_loop_seeded n (acc : list (list P) * visited) loop
    (forward : bool) ps st' :
  scan_inv bm point acc ->
  loop ∈ all_loops bm -> ignorable_loop bm loop = false ->
  dd_get (if forward then loops_exited acc.2 else loops_entered acc.2) loop
    = false ->
  make_loop bm point n acc.2 loop forward = Done (ps, st') ->
  scan_inv bm point (acc.1 ++ [ps], st') /\ grows acc (acc.1 ++ [ps], st')
  /\ first_mark forward loop ∈ marks st'.
Proof.
  intros [Hst Hpts] Hl Hint Hflag Hrun.
  destruct (make_loop_from_ok _ _ _ _ _ _ _ Hst Hl Hint Hrun)
    as (Hst' & new & Hnew & _ & Hall & Hfirst).
  split_and!.
  - split; [done|]. simpl. apply Forall_app. split; [done|].
    by constructor.
  - by exists new.
  - rewrite Hnew. apply elem_of_app. right. by apply Hfirst.
Qed.

Lemma seed_ok n acc loop acc' :
  loop ∈ all_loops bm -> scan_inv bm point acc ->
  seed bm point n acc loop = Done acc' ->
  scan_inv bm point acc' /\ grows acc acc' /\ covered bm loop acc'.
Proof.
  intros Hl Hacc. unfold seed.
  destruct (ignorable_loop bm loop) eqn:Hint.
  { intros [= <-]. split_and!; [done | apply grows_refl | intros ?; congruence]. }
  destruct (dd_get (loops_exited acc.2) loop) eqn:Hex; simpl.
  - destruct (dd_get (loops_entered acc.2) loop) eqn:Hen; simpl.
    + intros [= <-]. split_and!; [done | apply grows_refl |].
      intros _. destruct Hacc as [[_ Ven Vex _] _]. split; [by apply Vex | by apply Ven].
    + destruct (make_loop bm point n acc.2 loop false) as [[ps st']| |] eqn:Er;
        simpl; try discriminate.
      intros [= <-].
      destruct (make_loop_seeded _ _ _ false _ _ Hacc Hl Hint Hen Er)
        as (Hinv & Hgr & Hm).
      split_and!; [done..|]. intros _. split; [|done].
      destruct Hacc as [[_ _ Vex _] _]. apply Vex in Hex.
      destruct Hgr as [new Hnew]. simpl in Hnew. simpl. rewrite Hnew.
      apply elem_of_app. by left.
  - destruct (make_loop bm point n acc.2 loop true) as [[ps st']| |] eqn:Er;
      simpl; try discriminate.
    destruct (make_loop_seeded _ _ _ true _ _ Hacc Hl Hint Hex Er)
      as (Hinv & Hgr & Hm).
    destruct (dd_get (loops_entered st') loop) eqn:Hen; simpl.
    + intros [= <-]. split_and!; [done..|]. intros _. split; [done|].
      destruct Hinv as [[_ Ven _ _] _]. by apply Ven.
    + destruct (make_loop bm point n st' loop false) as [[ps2 st2]| |] eqn:Er2;
        simpl; try discriminate.
      intros [= <-].
      destruct (make_loop_seeded _ (acc.1 ++ [ps], st') _ false _ _
                  Hinv Hl Hint Hen Er2) as (Hinv2 & Hgr2 & Hm2).
      split_and!; [done | by eapply grows_trans |].
      intros _. split; [|done].
      destruct Hgr2 as [new Hnew]. simpl in Hnew. simpl. rewrite Hnew.
      apply elem_of_app. by left.
Qed.

Lemma scan_ok n splines st :
  scan bm point n = Done (splines, st) ->
  visited_ok bm st
  /\ Forall (Forall (from_interior bm point)) splines
  /\ forall loop, loop ∈ all_loops bm -> ignorable_loop bm loop = false ->
       Exited loop ∈ marks st /\ Entered loop ∈ marks st.
Proof.
  unfold scan. intros Hrun.
  apply (for_each_inv (scan_inv bm point) grows
           (fun face acc => forall loop, loop ∈ face -> covered bm loop acc))
    in Hrun as ([Hst Hpts] & _ & Hcov).
  - split_and!; [done..|]. intros loop Hl Hint.
    apply elem_of_all_loops in Hl as (face & Hlf & Hf).
    by apply (Hcov face Hf loop Hlf).
  - apply grows_refl.
  - apply grows_trans.
  - intros face acc acc' Hgr Hc loop Hl. eapply covered_mono; eauto.
  - intros acc face acc' Hf Hacc Hface.
    apply (for_each_inv (scan_inv bm point) grows (covered bm)) in Hface; auto.
    + apply grows_refl.
    + apply grows_trans.
    + apply covered_mono.
    + intros acc1 loop acc2 Hl. apply seed_ok.
      apply elem_of_all_loops. eauto.
  - split; [apply fresh_ok | constructor].
Qed.

Lemma seed_terminates n acc loop :
  (forall a b c, point a b c <> OutOfGas) ->
  length (all_loops bm) < n ->
  loop ∈ all_loops bm -> scan_inv bm point acc ->
  seed bm point n acc loop <> OutOfGas.
Proof.
  intros Hpt Hn Hl Hacc. unfold seed.
  destruct (ignorable_loop bm loop) eqn:Hint; [done|].
  assert (Hrun : forall a (forward : bool), scan_inv bm point a ->
            make_loop bm point n a.2 loop forward <> OutOfGas).
  { intros a forward [Ha _]. apply make_loop_from_terminates; auto; lia. }
  assert (Hstep : forall a (forward : bool),
            scan_inv bm point a ->
            dd_get (if forward then loops_exited a.2 else loops_entered a.2) loop
              = false ->
            match (' (ps, st) ← make_loop bm point n a.2 loop forward;
                   Done (a.1 ++ [ps], st)) with
            | Done a' => scan_inv bm point a'
            | Raise _ => True
            | OutOfGas => False
            end).
  { intros a forward Ha Hflag. specialize (Hrun a forward Ha).
    destruct (make_loop bm point n a.2 loop forward) as [[ps st']| |] eqn:Er;
      simpl; try done.
    by destruct (make_loop_seeded _ _ _ _ _ _ Ha Hl Hint Hflag Er) as (? & _). }
  destruct (dd_get (loops_exited acc.2) loop) eqn:Hex; simpl.
  - destruct (dd_get (loops_entered acc.2) loop) eqn:Hen; simpl; [done|].
    specialize (Hstep acc false Hacc Hen). simpl in Hstep.
    by destruct (make_loop bm point n acc.2 loop false) as [[ps st']| |].
  - specialize (Hstep acc true Hacc Hex) as Hfirst.
    destruct (make_loop bm point n acc.2 loop true) as [[ps st']| |];
      simpl in *; try done.
    destruct (dd_get (loops_entered st') loop) eqn:Hen; simpl; [done|].
    specialize (Hstep (acc.1 ++ [ps], st') false Hfirst Hen). simpl in Hstep.
    by destruct (make_loop bm point n st' loop false) as [[ps2 st2]| |].
Qed.

Lemma scan_terminates n :
  (forall a b c, point a b c <> OutOfGas) ->
  length (all_loops bm) < n ->
  scan bm point n <> OutOfGas.
Proof.
  intros Hpt Hn. unfold scan.
  apply (for_each_terminates (scan_inv bm point)).
  - intros acc face Hf Hacc.
    apply (for_each_terminates (scan_inv bm point)); [| |done].
    + intros acc1 loop Hl. apply seed_terminates; auto.
      apply elem_of_all_loops. eauto.
    + intros acc1 loop acc2 Hl Hacc1 Hs.
      apply seed_ok in Hs as (? & _); auto.
      apply elem_of_all_loops. eauto.
  - intros acc face acc' Hf Hacc Hface.
    apply (for_each_inv (scan_inv bm point) grows (covered bm)) in Hface as (? & _); auto.
    + apply grows_refl.
    + apply grows_trans.
    + apply covered_mono.
    + intros acc1 loop acc2 Hl. apply seed_ok.
      apply elem_of_all_loops. eauto.
  - split; [apply fresh_ok | constructor].
Qed.
End TraversalFacts.

(** ** The traversal does not look at the points it makes *)

Lemma follows_bind {A B A' B'} strict (R : A -> B -> Prop) (R' : A' -> B' -> Prop)
    (o1 : outcome A) (o2 : outcome B) k1 k2 :
  follows strict R o1 o2 ->
  (forall a b, R a b -> follows strict R' (k1 a) (k2 b)) ->
  follows strict R' (o1 ≫= k1) (o2 ≫= k2).
Proof.
  destruct o1 as [a|e|]; simpl.
  - destruct o2 as [b| |]; try done. intros H Hk. by apply Hk.
  - intros H _ Hs. by rewrite (H Hs).
  - intros H _ Hs. by rewrite (H Hs).
Qed.

Lemma follows_refl {A} strict (o : outcome A) : follows strict eq o o.
Proof. by destruct o. Qed.

Lemma follows_verdict {A B} (R : A -> B -> Prop) o1 o2 :
  follows true R o1 o2 -> verdict_of o1 = verdict_of o2.
Proof.
  destruct o1; simpl.
  - by destruct o2.
  - by intros ->.
  - by intros ->.
Qed.

Lemma for_each_follows {A S1 S2} strict (R : S1 -> S2 -> Prop)
    (body1 : S1 -> A -> outcome S1) (body2 : S2 -> A -> outcome S2) :
  (forall s1 s2 x, R s1 s2 -> follows strict R (body1 s1 x) (body2 s2 x)) ->
  forall xs s1 s2, R s1 s2 ->
  follows strict R (for_each xs body1 s1) (for_each xs body2 s2).
Proof.
  intros Hbody. induction xs as [|x xs IH]; intros s1 s2 Hs; simpl; [done|].
  apply (follows_bind strict R); auto.
Qed.

Section TwoPointFunctions.
Context {P1 P2 : Type}.
Variable bm : BMesh.
Variable point1 : nat -> nat -> bool -> outcome P1.
Variable point2 : nat -> nat -> bool -> outcome P2.
Variable strict : bool.
Variable R : P1 -> P2 -> Prop.
Hypothesis points_follow : forall loop prev_loop forward,
  follows strict R (point1 loop prev_loop forward)
    (point2 loop prev_loop forward).

Lemma make_loop_from_follows n : forall gas st loop forward,
  follows strict (fun r1 r2 => Forall2 R r1.1 r2.1 /\ r1.2 = r2.2)
    (make_loop_from bm point1 n gas st loop forward)
    (make_loop_from bm point2 n gas st loop forward).
Proof.
  induction gas as [|gas IH]; intros st loop forward; simpl; [done|].
  apply (follows_bind strict eq); [apply follows_refl|]. intros r ? <-.
  destruct r as [c|]; [|simpl; auto].
  apply (follows_bind strict R); [apply points_follow|]. intros p1 p2 Hp.
  eapply follows_bind; [apply IH|].
  intros [ps1 st1] [ps2 st2] [Hps Hst]. simpl in *. split; auto.
Qed.

Lemma seed_follows n acc1 acc2 loop :
  same_run R acc1 acc2 ->
  follows strict (same_run R)
    (seed bm point1 n acc1 loop) (seed bm point2 n acc2 loop).
Proof.
  assert (Hcall : forall (a1 : list (list P1) * visited)
                    (a2 : list (list P2) * visited) forward,
            same_run R a1 a2 ->
            follows strict (same_run R)
              ('(ps, st) ← make_loop bm point1 n a1.2 loop forward;
               Done (a1.1 ++ [ps], st))
              ('(ps, st) ← make_loop bm point2 n a2.2 loop forward;
               Done (a2.1 ++ [ps], st))).
  { intros a1 a2 forward [Hspl Hst]. rewrite Hst.
    eapply follows_bind; [apply make_loop_from_follows|].
    intros [ps1 st1] [ps2 st2] [Hps Hst']. simpl in *. split; simpl; [|done].
    apply Forall2_app; [done|]. by constructor. }
  intros Hacc. unfold seed.
  destruct (ignorable_loop bm loop); [done|].
  apply (follows_bind strict (same_run R)).
  - pose proof Hacc as [_ Hst].
    replace (dd_get (loops_exited acc1.2) loop)
      with (dd_get (loops_exited acc2.2) loop) by (by rewrite Hst).
    destruct (dd_get (loops_exited acc2.2) loop); simpl; [done|].
    by apply (Hcall acc1 acc2 true).
  - intros a1 a2 Ha. pose proof Ha as [_ Hst].
    replace (dd_get (loops_entered a1.2) loop)
      with (dd_get (loops_entered a2.2) loop) by (by rewrite Hst).
    destruct (dd_get (loops_entered a2.2) loop); simpl; [done|].
    by apply (Hcall a1 a2 false).
Qed.

Lemma scan_follows n :
  follows strict (same_run R) (scan bm point1 n) (scan bm point2 n).
Proof.
  unfold scan. apply for_each_follows; [|by split].
  intros a1 a2 face Ha. apply for_each_follows; [|done].
  intros. by apply seed_follows.
Qed.
End TwoPointFunctions.

(** The crossings behind the points of a finished scan. *)
Lemma scan_crossings {P} bm (point : nat -> nat -> bool -> outcome P) n splines st :
  scan bm point n = Done (splines, st) ->
  exists crossings,
    scan bm crossing n = Done (crossings, st)
    /\ Forall2 (Forall2 (fun p x => point x.1.1 x.1.2 x.2 = Done p))
         splines crossings.
Proof.
  intros Hrun.
  assert (Hfol : follows false
            (same_run (fun p x => point x.1.1 x.1.2 x.2 = Done p))
            (scan bm point n) (scan bm crossing n)).
  { apply scan_follows. intros loop prev_loop forward.
    by destruct (point loop prev_loop forward) eqn:E. }
  rewrite Hrun in Hfol. simpl in Hfol.
  destruct (scan bm crossing n) as [[crossings st']| |]; try done.
  destruct Hfol as [H Hst]. simpl in *. subst. eauto.
Qed.

(** ** Vectors *)

Lemma vec_ext {F} (a b : Vector F) :
  vx a = vx b -> vy a = vy b -> vz a = vz b -> a = b.
Proof. destruct a, b; simpl; congruence. Qed.

(** *** In exact arithmetic *)

Lemma tiny_real_small : (0 < tiny_real < 1)%R.
Proof.
  unfold tiny_real. assert (1 < 10 ^ 35)%R by (apply Rlt_pow_R1; [lra | lia]).
  split; [apply Rinv_0_lt_compat; lra|].
  rewrite <- Rinv_1. apply Rinv_lt_contravar; lra.
Qed.

Global Opaque tiny_real.

Lemma len_squared_real (a : Vector R) :
  len_squared a = (vx a * vx a + vy a * vy a + vz a * vz a)%R.
Proof. unfold len_squared. simpl. ring. Qed.

Lemma len_squared_nonneg (a : Vector R) : (0 <= len_squared a)%R.
Proof. rewrite len_squared_real. nra. Qed.

Lemma magnitude_scale (k : R) (a : Vector R) :
  magnitude (vscale k a) = (Rabs k * magnitude a)%R.
Proof.
  assert (Hlen : len_squared (vscale k a) = (Rsqr k * len_squared a)%R)
    by (rewrite !len_squared_real; unfold Rsqr; simpl; ring).
  unfold magnitude. rewrite Hlen.
  change (sqrt (Rsqr k * len_squared a) = (Rabs k * sqrt (len_squared a))%R).
  rewrite sqrt_mult; [|apply Rle_0_sqr | apply len_squared_nonneg].
  by rewrite sqrt_Rsqr_abs.
Qed.

Lemma normalized_above (a : Vector R) :
  (tiny_real < len_squared a)%R ->
  normalized a = vscale (/ magnitude a) a.
Proof.
  intros Ha. unfold normalized, magnitude.
  change (dltb tiny (len_squared a))
    with (if Rlt_dec tiny_real (len_squared a) then true else false).
  destruct (Rlt_dec _ _); [|done].
  apply vec_ext; simpl; unfold Rdiv; ring.
Qed.

Lemma normalized_below (a : Vector R) :
  (len_squared a <= tiny_real)%R -> normalized a = origin.
Proof.
  intros Ha. unfold normalized.
  change (dltb tiny (len_squared a))
    with (if Rlt_dec tiny_real (len_squared a) then true else false).
  destruct (Rlt_dec _ _); [lra | done].
Qed.

Lemma normalized_unit (a : Vector R) :
  (tiny_real < len_squared a)%R -> magnitude (normalized a) = 1%R.
Proof.
  intros Ha. rewrite normalized_above by done.
  assert (0 < magnitude a)%R.
  { apply sqrt_lt_R0. pose proof tiny_real_small. lra. }
  rewrite magnitude_scale, Rabs_pos_eq.
  - field. lra.
  - left. by apply Rinv_0_lt_compat.
Qed.

Lemma vsub_vadd_l (m d : Vector R) : vsub (vadd m d) m = d.
Proof. apply vec_ext; simpl; ring. Qed.

Lemma normalized_of (m : R) (a u : Vector R) :
  (1 <= m)%R -> (m * m)%R = len_squared a -> u = vscale (/ m) a ->
  normalized a = u.
Proof.
  intros Hm Hsq ->.
  assert (Hmag : magnitude a = m).
  { unfold magnitude. simpl. apply sqrt_lem_1;
      [apply len_squared_nonneg | lra | done]. }
  rewrite normalized_above, Hmag; [done|].
  pose proof tiny_real_small. rewrite <- Hsq. nra.
Qed.

Lemma normalized_opp (a : Vector R) :
  normalized (vscale (-1) a) = vscale (-1) (normalized a).
Proof.
  assert (Hlen : len_squared (vscale (-1) a) = len_squared a).
  { rewrite !len_squared_real. simpl. ring. }
  destruct (Rlt_dec tiny_real (len_squared a)) as [Ha|Ha].
  - rewrite !normalized_above by (by rewrite ?Hlen).
    unfold magnitude. rewrite Hlen. apply vec_ext; simpl; ring.
  - rewrite !normalized_below by (rewrite ?Hlen; lra).
    apply vec_ext; simpl; ring.
Qed.

Lemma cross_opp_r (a b : Vector R) :
  cross a (vscale (-1) b) = vscale (-1) (cross a b).
Proof. apply vec_ext; simpl; ring. Qed.

(** ** Python's list index *)

Lemma py_index_is_Some {A} (xs : list A) (i : Z) :
  is_Some (py_index xs i) <-> index_ok (length xs) i.
Proof.
  unfold py_index, index_ok.
  destruct (Z.leb_spec 0 i).
  - rewrite lookup_lt_is_Some. lia.
  - destruct (Z.leb_spec (- Z.of_nat (length xs)) i).
    + rewrite lookup_lt_is_Some. lia.
    + split; [by intros [? ?] | lia].
Qed.

Lemma py_index_fmap {A B} (f : A -> B) (xs : list A) (i : Z) :
  py_index (f <$> xs) i = f <$> py_index xs i.
Proof.
  unfold py_index. rewrite length_fmap.
  repeat case_match; by rewrite ?list_lookup_fmap.
Qed.

Lemma table_index_ok len d xs i :
  index_ok len d -> Forall (index_ok len) xs -> index_ok len (table d xs i).
Proof.
  intros Hd Hxs. unfold table. revert i.
  induction Hxs as [|x xs Hx _ IH]; intros [|i]; simpl; auto.
Qed.

(** ** The point of one crossing *)

Section ControlPoints.
Context {F D : Type} {A : Arith F D}.

Lemma control_point_inv (geo : MeshData F) bm midpoints s c ht wu wd loop
    prev_loop (forward : bool) cp :
  control_point geo bm midpoints s c ht wu wd loop prev_loop forward = Done cp ->
  exists m,
    py_index midpoints (loop_edge bm loop) = Some m
    /\ co cp = vadd m (vscale (if forward then wu else wd)
                              (averaged_normal geo loop prev_loop))
    /\ match ht with
       | AUTO => handle_left cp = None /\ handle_right cp = None
       | ALIGNED =>
           let binormal :=
             normalized (cross (averaged_normal geo loop prev_loop)
                               (edge_direction geo bm loop)) in
           let tangent :=
             if forward then edge_direction geo bm loop
             else vscale (d_of_Z (-1)) (edge_direction geo bm loop) in
           handle_left cp =
             Some (vsub (vsub (co cp) (vscale s binormal)) (vscale c tangent))
           /\ handle_right cp =
               Some (vadd (vadd (co cp) (vscale s binormal)) (vscale c tangent))
       end.
Proof.
  unfold control_point.
  destruct (py_index midpoints (loop_edge bm loop)) as [m|]; simpl;
    [|discriminate].
  intros H. exists m. split; [done|].
  destruct ht; injection H as <-; simpl; auto.
Qed.

Lemma control_point_done (geo : MeshData F) bm s c ht wu wd loop prev_loop
    forward :
  index_ok (length (mesh_edges geo)) (loop_edge bm loop) ->
  exists cp,
    control_point geo bm (edge_midpoints geo) s c ht wu wd loop prev_loop forward
      = Done cp.
Proof.
  intros Hlt. unfold control_point.
  destruct (proj2 (py_index_is_Some (edge_midpoints geo) (loop_edge bm loop)))
    as [m ->].
  { unfold edge_midpoints. by rewrite length_fmap. }
  simpl. destruct ht; eauto.
Qed.

Lemma control_point_terminates (geo : MeshData F) bm midpoints s c ht wu wd
    loop prev_loop forward :
  control_point geo bm midpoints s c ht wu wd loop prev_loop forward <> OutOfGas.
Proof.
  unfold control_point.
  destruct (py_index midpoints (loop_edge bm loop)); simpl; [|done].
  by destruct ht.
Qed.

Lemma edge_midpoints_lookup (geo : MeshData F) i m :
  py_index (edge_midpoints geo) i = Some m ->
  exists e, py_index (mesh_edges geo) i = Some e
    /\ m = vdiv (vadd (vertex_co geo e.1) (vertex_co geo e.2)) (d_of_Z 2).
Proof.
  unfold edge_midpoints. rewrite py_index_fmap.
  destruct (py_index (mesh_edges geo) i) as [e|]; simpl; [|done].
  intros [= <-]. eauto.
Qed.

(** ** The crossings behind the points of [create_bezier] *)

Context {T : Trig D}.

Lemma create_bezier_crossings (geo : MeshData F) bm twists ca cs ht wu wd n
    splines :
  create_bezier geo bm twists ca cs ht wu wd n = Done splines ->
  exists crossings st,
    scan bm crossing n = Done (crossings, st)
    /\ Forall2 (Forall2 (fun cp x =>
          control_point geo bm (edge_midpoints geo) (dmul (dsin ca) cs)
            (dmul (dcos ca) cs) ht wu wd x.1.1 x.1.2 x.2 = Done cp))
         splines crossings.
Proof.
  unfold create_bezier.
  destruct (scan bm _ n) as [[spl st]| |] eqn:E; simpl; try discriminate.
  intros [= <-]. apply scan_crossings in E as (crossings & ? & ?). eauto.
Qed.

(** With every edge index in range, the run ends as its crossings do. *)
Lemma create_bezier_finishes (geo : MeshData F) bm twists ca cs ht wu wd n
    crossings st :
  (forall loop, index_ok (length (mesh_edges geo)) (loop_edge bm loop)) ->
  scan bm crossing n = Done (crossings, st) ->
  exists splines,
    create_bezier geo bm twists ca cs ht wu wd n = Done splines
    /\ Forall2 (Forall2 (fun cp x =>
          control_point geo bm (edge_midpoints geo) (dmul (dsin ca) cs)
            (dmul (dcos ca) cs) ht wu wd x.1.1 x.1.2 x.2 = Done cp))
         splines crossings.
Proof.
  intros Hrange Hrun. unfold create_bezier.
  set (point := control_point geo bm (edge_midpoints geo) (dmul (dsin ca) cs)
                  (dmul (dcos ca) cs) ht wu wd).
  assert (Hag : follows true
            (same_run (fun cp x => point x.1.1 x.1.2 x.2 = Done cp))
            (scan bm point n) (scan bm crossing n)).
  { apply scan_follows. intros loop prev_loop forward.
    destruct (control_point_done geo bm (dmul (dsin ca) cs) (dmul (dcos ca) cs)
                ht wu wd loop prev_loop forward (Hrange loop)) as [cp Hcp].
    unfold point. by rewrite Hcp. }
  rewrite Hrun in Hag.
  destruct (scan bm point n) as [[spl st']| |]; simpl in *.
  - destruct Hag as [H _]. eauto.
  - by specialize (Hag eq_refl).
  - by specialize (Hag eq_refl).
Qed.

(** On a well-formed mesh the whole run ends once [n] exceeds the number
    of half-edges. *)
Lemma create_bezier_terminates (geo : MeshData F) bm twists ca cs ht wu wd n :
  mesh_ok bm = true -> length (all_loops bm) < n ->
  create_bezier geo bm twists ca cs ht wu wd n <> OutOfGas.
Proof.
  intros Hok Hn. unfold create_bezier.
  set (point := control_point geo bm (edge_midpoints geo) (dmul (dsin ca) cs)
                  (dmul (dcos ca) cs) ht wu wd).
  pose proof (scan_terminates bm point Hok n) as Hscan.
  destruct (scan bm point n) as [[spl st]| |]; simpl; try done.
  intros _. apply Hscan; [|done..]. intros. apply control_point_terminates.
Qed.

Lemma two_quads_in_range loop :
  index_ok (length (mesh_edges (two_quads_geo : MeshData F)))
    (loop_edge two_quads loop).
Proof.
  apply table_index_ok; [|repeat constructor]; unfold index_ok; simpl; lia.
Qed.

Lemma pillow_in_range loop :
  index_ok (length (mesh_edges (pillow_geo : MeshData F)))
    (loop_edge pillow loop).
Proof.
  apply table_index_ok; [|repeat constructor]; unfold index_ok; simpl; lia.
Qed.


Lemma two_quads_runs twists ca cs ht wu wd :
  exists splines,
    create_bezier (two_quads_geo : MeshData F) two_quads twists ca cs ht wu wd 9
      = Done splines.
Proof.
  destruct (scan two_quads crossing 9) as [[crossings st]| |] eqn:E;
    [|vm_compute in E; discriminate E..].
  destruct (create_bezier_finishes two_quads_geo two_quads twists ca cs ht wu wd
              9 crossings st two_quads_in_range E) as (splines & Hrun & _).
  eauto.
Qed.
End ControlPoints.

Lemma Forall2_forget {A B} (R : A -> B -> Prop) (Q : A -> Prop) xs ys :
  (forall x y, R x y -> Q x) -> Forall2 R xs ys -> Forall Q xs.
Proof. intros HRQ. induction 1; constructor; eauto. Qed.

(** ** How a run can fail *)

Lemma verdict_bind_done {A B} (o : outcome A) (f : A -> B) :
  verdict_of (o ≫= fun a => Done (f a)) = verdict_of o.
Proof. by destruct o. Qed.


Lemma for_each_raises {A S} (I : S -> Prop) (Q : exn -> Prop)
    (body : S -> A -> outcome S) : forall xs s e,
  (forall s x s', x ∈ xs -> I s -> body s x = Done s' -> I s') ->
  (forall s x e, x ∈ xs -> I s -> body s x = Raise e -> Q e) ->
  I s -> for_each xs body s = Raise e -> Q e.
Proof.
  induction xs as [|x xs IH]; intros s e Hpres Hraise Hs; simpl; [done|].
  destruct (body s x) as [s1|e1|] eqn:Eb; simpl; [| |done].
  - apply IH.
    + intros ? ? ? ?. apply Hpres. by right.
    + intros ? ? ? ?. apply Hraise. by right.
    + eapply Hpres; [left | done | done].
  - intros [= <-]. eapply Hraise; [left | done | done].
Qed.

Section Failures.
Context {P : Type}.
Variable bm : BMesh.
Variable point : nat -> nat -> bool -> outcome P.
Hypothesis Hok : mesh_ok bm = true.
Hypothesis point_total : forall a b c e, point a b c <> Raise e.



End Failures.

Section Verdicts.
Context {F D : Type} {A : Arith F D} {T : Trig D}.

Lemma control_point_same_verdict (geo : MeshData F) bm midpoints s c ht wu wd
    s' c' ht' wu' wd' loop prev_loop forward :
  follows true (fun _ _ => True)
    (control_point geo bm midpoints s c ht wu wd loop prev_loop forward)
    (control_point geo bm midpoints s' c' ht' wu' wd' loop prev_loop forward).
Proof.
  unfold control_point.
  destruct (py_index midpoints (loop_edge bm loop)); simpl; [|done].
  by destruct ht, ht'.
Qed.

Lemma create_bezier_verdict (geo : MeshData F) bm twists ca cs ht wu wd n :
  (forall loop, index_ok (length (mesh_edges geo)) (loop_edge bm loop)) ->
  verdict_of (create_bezier geo bm twists ca cs ht wu wd n)
  = verdict_of (scan bm crossing n).
Proof.
  intros Hrange. unfold create_bezier.
  set (point := control_point geo bm (edge_midpoints geo) (dmul (dsin ca) cs)
                  (dmul (dcos ca) cs) ht wu wd).
  transitivity (verdict_of (scan bm point n)).
  { by destruct (scan bm point n) as [[spl st]| |]. }
  apply (follows_verdict (same_run (fun _ _ => True))).
  apply scan_follows. intros loop prev_loop forward.
  destruct (control_point_done geo bm (dmul (dsin ca) cs) (dmul (dcos ca) cs)
              ht wu wd loop prev_loop forward (Hrange loop)) as [cp Hcp].
  unfold point. by rewrite Hcp.
Qed.
End Verdicts.

(** ** The trace of one traversal *)

Lemma make_loop_from_trace bm n : forall gas st loop forward crossings st',
  make_loop_from bm crossing n gas st loop forward = Done (crossings, st') ->
  marks st' = marks st ++ marks_of loop forward crossings
  /\ dd_get (if (final_start loop forward crossings).2 then loops_exited st'
             else loops_entered st')
        (final_start loop forward crossings).1 = true.
Proof.
  induction gas as [|gas IH]; intros st loop forward crossings st'; simpl;
    [done|].
  destruct (step bm n st loop forward) as [[c|]| |] eqn:Es; simpl;
    try discriminate.
  - destruct (make_loop_from bm crossing n gas (c_state c) (c_loop c)
                (c_forward c)) as [[cs0 st0]| |] eqn:Er; simpl; try discriminate.
    intros [= <- <-]. simpl.
    destruct (IH _ _ _ _ _ Er) as [Hm Hfin]. split; [|done].
    rewrite Hm. destruct forward; simpl in Es.
    + apply forward_step_inv in Es as (_ & _ & _ & _ & _ & _ & ->).
      simpl. by rewrite <- !app_assoc.
    + apply backward_step_inv in Es as (_ & _ & _ & _ & _ & ->).
      simpl. by rewrite <- !app_assoc.
  - intros [= <- <-]. simpl. split; [by rewrite app_nil_r|].
    by apply step_break in Es.
Qed.

Lemma first_marks_in_trace loop forward crossings l f :
  (l, f) ∈ completed_starts loop forward crossings ->
  first_mark f l ∈ marks_of loop forward crossings.
Proof.
  revert loop forward.
  induction crossings as [|x rest IH]; intros loop forward; simpl.
  - intros H. by apply not_elem_of_nil in H.
  - intros [[= -> ->] | H]%elem_of_cons; [left|].
    right. right. by apply IH.
Qed.

Lemma completed_starts_nodup loop forward crossings :
  NoDup (marks_of loop forward crossings) ->
  NoDup (completed_starts loop forward crossings).
Proof.
  revert loop forward.
  induction crossings as [|x rest IH]; intros loop forward; simpl.
  - constructor.
  - intros [Hfirst [_ Hrest]%NoDup_cons]%NoDup_cons.
    constructor; [|by apply IH].
    intros Hin%first_marks_in_trace. apply Hfirst. by right.
Qed.

(** ** The two walks undo each other *)

Lemma walk_next_first bm n : forall a p,
  walk_next bm n a = Some p ->
  exists j, 1 <= j <= n
    /\ Nat.iter j (link_loop_next bm) a = p
    /\ ignorable_loop bm p = false
    /\ forall i, 1 <= i < j ->
         ignorable_loop bm (Nat.iter i (link_loop_next bm) a) = true.
Proof.
  induction n as [|n IH]; intros a p; simpl; [done|].
  destruct (ignorable_loop bm (link_loop_next bm a)) eqn:E; simpl.
  - intros (j & Hj & Hp & Hint & Hbetween)%IH.
    exists (S j). rewrite Nat.iter_succ_r. split_and!; [lia.. | done | done |].
    intros [|[|i]] Hi; [lia | done |].
    rewrite Nat.iter_succ_r. apply Hbetween. lia.
  - intros [= <-]. exists 1. split_and!; [lia.. | done | done |].
    intros i Hi. lia.
Qed.

Lemma walk_prev_first bm n : forall b v q,
  walk_prev bm n b = Some (v, q) ->
  exists j, 1 <= j <= n
    /\ Nat.iter j (link_loop_prev bm) b = q
    /\ ignorable_loop bm q = false
    /\ forall i, 1 <= i < j ->
         ignorable_loop bm (Nat.iter i (link_loop_prev bm) b) = true.
Proof.
  induction n as [|n IH]; intros b v q; simpl; [done|].
  destruct (ignorable_loop bm (link_loop_prev bm b)) eqn:E; simpl.
  - intros (j & Hj & Hp & Hint & Hbetween)%IH.
    exists (S j). rewrite Nat.iter_succ_r. split_and!; [lia.. | done | done |].
    intros [|[|i]] Hi; [lia | done |].
    rewrite Nat.iter_succ_r. apply Hbetween. lia.
  - intros [= <- <-]. exists 1. split_and!; [lia.. | done | done |].
    intros i Hi. lia.
Qed.

Lemma walk_next_at bm n : forall j a,
  1 <= j <= n ->
  ignorable_loop bm (Nat.iter j (link_loop_next bm) a) = false ->
  (forall i, 1 <= i < j ->
     ignorable_loop bm (Nat.iter i (link_loop_next bm) a) = true) ->
  walk_next bm n a = Some (Nat.iter j (link_loop_next bm) a).
Proof.
  induction n as [|n IH]; intros j a Hj Hint Hbetween; [lia|].
  destruct j as [|[|j]]; [lia | |].
  - simpl in *. by rewrite Hint.
  - pose proof (Hbetween 1 ltac:(lia)) as H1. simpl in H1.
    rewrite Nat.iter_succ_r. cbn [walk_next]. rewrite H1. cbn [negb].
    apply IH; [lia | by rewrite <- Nat.iter_succ_r |].
    intros i Hi. rewrite <- Nat.iter_succ_r. apply Hbetween. lia.
Qed.

Lemma walk_prev_at bm n : forall j b,
  1 <= j <= n ->
  ignorable_loop bm (Nat.iter j (link_loop_prev bm) b) = false ->
  (forall i, 1 <= i < j ->
     ignorable_loop bm (Nat.iter i (link_loop_prev bm) b) = true) ->
  exists v, walk_prev bm n b = Some (v, Nat.iter j (link_loop_prev bm) b).
Proof.
  induction n as [|n IH]; intros j b Hj Hint Hbetween; [lia|].
  destruct j as [|[|j]]; [lia | |].
  - simpl in *. rewrite Hint. simpl. eauto.
  - pose proof (Hbetween 1 ltac:(lia)) as H1. simpl in H1.
    rewrite Nat.iter_succ_r. cbn [walk_prev]. rewrite H1. cbn [negb].
    apply IH; [lia | by rewrite <- Nat.iter_succ_r |].
    intros i Hi. rewrite <- Nat.iter_succ_r. apply Hbetween. lia.
Qed.

Section BackAndForth.
Variables (f g : nat -> nat) (L : list nat).
Hypothesis f_closed : forall x, x ∈ L -> f x ∈ L.
Hypothesis g_f : forall x, x ∈ L -> g (f x) = x.

Lemma iter_back i j x :
  x ∈ L -> i <= j -> Nat.iter i g (Nat.iter j f x) = Nat.iter (j - i) f x.
Proof.
  intros Hx. induction i as [|i IH]; intros Hij; simpl.
  - by rewrite Nat.sub_0_r.
  - rewrite IH by lia. replace (j - i) with (S (j - S i)) by lia. simpl.
    apply g_f. by apply iter_closed.
Qed.
End BackAndForth.

Section Stretches.
Variable bm : BMesh.
Hypothesis Hok : mesh_ok bm = true.

Lemma walk_next_prev n a p :
  a ∈ all_loops bm -> ignorable_loop bm a = false ->
  walk_next bm n a = Some p -> exists v, walk_prev bm n p = Some (v, a).
Proof.
  intros Ha Hint (j & Hj & <- & Hp & Hbetween)%walk_next_first.
  pose proof (iter_back _ _ _ (next_closed bm Hok) (prev_next bm Hok)) as Hback.
  destruct (walk_prev_at bm n j (Nat.iter j (link_loop_next bm) a))
    as [v Hv]; [done | | |].
  - rewrite Hback, Nat.sub_diag by done. done.
  - intros i Hi. rewrite Hback by (done || lia). apply Hbetween. lia.
  - exists v. rewrite Hv, Hback, Nat.sub_diag by done. done.
Qed.

Lemma walk_prev_next n b v q :
  b ∈ all_loops bm -> ignorable_loop bm b = false ->
  walk_prev bm n b = Some (v, q) -> walk_next bm n q = Some b.
Proof.
  intros Hb Hint (j & Hj & <- & Hq & Hbetween)%walk_prev_first.
  pose proof (iter_back _ _ _ (prev_closed bm Hok) (next_prev bm Hok)) as Hback.
  rewrite (walk_next_at bm n j).
  - by rewrite Hback, Nat.sub_diag.
  - done.
  - rewrite Hback, Nat.sub_diag by done. done.
  - intros i Hi. rewrite Hback by (done || lia). apply Hbetween. lia.
Qed.
End Stretches.

(** ** The assertions on the visited maps cannot fail *)

Lemma fresh_paired bm n : paired bm n fresh.
Proof. intros a p _ _ _. simpl. unfold dd_get. by rewrite !lookup_empty. Qed.

Lemma no_self_radial_at bm l r :
  no_self_radial bm = true -> l ∈ all_loops bm -> r ∈ link_loops bm l -> r <> l.
Proof.
  unfold no_self_radial. rewrite forallb_forall. intros Hall Hl Hr ->.
  apply list_elem_of_In, Hall, negb_true_iff, bool_decide_eq_false in Hl. done.
Qed.

Section Pairing.
Variable bm : BMesh.
Variable n : nat.
Hypothesis Hok : mesh_ok bm = true.

Lemma step_paired st loop forward c :
  paired bm n st ->
  loop ∈ all_loops bm -> ignorable_loop bm loop = false ->
  step bm n st loop forward = Done (Some c) ->
  paired bm n (c_state c).
Proof.
  intros Hpair Hl Hint. destruct forward; simpl.
  - intros (_ & Hw & _ & _ & _ & _ & ->)%forward_step_inv.
    intros a p Ha Hai Hwa. simpl. rewrite !dd_get_insert.
    destruct (decide (loop = a)) as [->|Hne].
    + rewrite Hw in Hwa. injection Hwa as ->. by rewrite decide_True.
    + rewrite decide_False; [by apply Hpair|].
      intros <-. apply Hne.
      destruct (walk_next_prev bm Hok n _ _ Hl Hint Hw) as [v1 H1].
      destruct (walk_next_prev bm Hok n _ _ Ha Hai Hwa) as [v2 H2].
      congruence.
  - intros (_ & (v & Hw & _) & _ & _ & _ & ->)%backward_step_inv.
    pose proof (walk_prev_next bm Hok n _ _ _ Hl Hint Hw) as Hback.
    intros a p Ha Hai Hwa. simpl. rewrite !dd_get_insert.
    destruct (decide (c_prev_loop c = a)) as [<-|Hne].
    + rewrite Hback in Hwa. injection Hwa as ->. by rewrite decide_True.
    + rewrite decide_False; [by apply Hpair|].
      intros <-. apply Hne.
      destruct (walk_next_prev bm Hok n _ _ Ha Hai Hwa) as [v2 H2].
      congruence.
Qed.

Lemma step_does_not_raise st loop forward e :
  no_self_radial bm = true -> paired bm n st ->
  loop ∈ all_loops bm -> ignorable_loop bm loop = false ->
  step bm n st loop forward <> Raise e.
Proof.
  intros Hself Hpair Hl Hint. destruct forward; simpl;
    unfold forward_step, backward_step.
  - destruct (dd_get (loops_exited st) loop) eqn:Hex; [done|].
    destruct (walk_next bm n loop) as [p|] eqn:Hw; simpl; [|done].
    destruct (walk_next_inv _ _ _ _ Hok Hl Hw) as [Hp Hpi].
    rewrite <- (Hpair loop p Hl Hint Hw), Hex. simpl.
    destruct (interior_head _ _ Hpi) as [r Hr]. rewrite Hr. simpl.
    apply head_Some_elem_of in Hr.
    pose proof (no_self_radial_at _ _ _ Hself Hp Hr) as Hne.
    apply Nat.eqb_neq in Hne. by rewrite Hne.
  - destruct (dd_get (loops_entered st) loop) eqn:Hen; [done|].
    destruct (walk_prev bm n loop) as [[v q]|] eqn:Hw; simpl; [|done].
    destruct (walk_prev_inv _ _ _ _ _ Hok Hl Hw) as (Hq & Hqi & _).
    pose proof (walk_prev_next bm Hok n _ _ _ Hl Hint Hw) as Hback.
    rewrite (Hpair q loop Hq Hqi Hback), Hen. simpl.
    destruct (interior_last _ _ Hqi) as [r Hr]. rewrite Hr. simpl.
    apply last_Some_elem_of in Hr.
    pose proof (no_self_radial_at _ _ _ Hself Hq Hr) as Hne.
    apply Nat.eqb_neq in Hne. by rewrite Hne.
Qed.

Context {P : Type}.
Variable point : nat -> nat -> bool -> outcome P.
Hypothesis point_total : forall a b c e, point a b c <> Raise e.
Hypothesis Hself : no_self_radial bm = true.

Lemma make_loop_from_paired : forall gas st loop forward ps st',
  visited_ok bm st -> paired bm n st ->
  loop ∈ all_loops bm -> ignorable_loop bm loop = false ->
  make_loop_from bm point n gas st loop forward = Done (ps, st') ->
  paired bm n st'.
Proof.
  induction gas as [|gas IH]; intros st loop forward ps st' Hst Hpair Hl Hint;
    simpl; [done|].
  destruct (step bm n st loop forward) as [[c|]| |] eqn:Es; simpl;
    try discriminate.
  - destruct (point (c_loop c) (c_prev_loop c) (c_forward c)) as [p| |];
      simpl; try discriminate.
    destruct (make_loop_from bm point n gas (c_state c) (c_loop c) (c_forward c))
      as [[ps0 st0]| |] eqn:Er; simpl; try discriminate.
    intros [= <- <-].
    destruct (step_ok _ _ _ _ _ _ Hok Hst Hl Hint Es) as (Hc & Hcl & Hci & _).
    eapply IH; [exact Hc | | exact Hcl | exact Hci | exact Er].
    exact (step_paired _ _ _ _ Hpair Hl Hint Es).
  - by intros [= <- <-].
Qed.

Lemma make_loop_from_does_not_raise : forall gas st loop forward e,
  visited_ok bm st -> paired bm n st ->
  loop ∈ all_loops bm -> ignorable_loop bm loop = false ->
  make_loop_from bm point n gas st loop forward <> Raise e.
Proof.
  induction gas as [|gas IH]; intros st loop forward e Hst Hpair Hl Hint;
    simpl; [done|].
  pose proof (step_does_not_raise st loop forward) as Hs.
  destruct (step bm n st loop forward) as [[c|]|e1|] eqn:Es; simpl; try done.
  - pose proof (point_total (c_loop c) (c_prev_loop c) (c_forward c)) as Hp.
    destruct (point (c_loop c) (c_prev_loop c) (c_forward c)) as [p|e2|];
      simpl; [|by destruct (Hp e2) | done].
    destruct (step_ok _ _ _ _ _ _ Hok Hst Hl Hint Es) as (Hc & Hcl & Hci & _).
    pose proof (step_paired _ _ _ _ Hpair Hl Hint Es) as Hpc.
    specialize (IH (c_state c) (c_loop c) (c_forward c)).
    destruct (make_loop_from bm point n gas (c_state c) (c_loop c) (c_forward c))
      as [[ps0 st0]|e3|]; simpl; try done.
    intros [= <-]. by eapply (IH e3).
  - by destruct (Hs e1).
Qed.

Lemma seed_paired acc loop acc' :
  loop ∈ all_loops bm ->
  scan_inv bm point acc /\ paired bm n acc.2 ->
  seed bm point n acc loop = Done acc' ->
  scan_inv bm point acc' /\ paired bm n acc'.2.
Proof.
  intros Hl [Hacc Hpair] Hseed.
  split; [by apply (seed_ok bm point Hok n acc loop acc' Hl Hacc) in Hseed as (? & _)|].
  revert Hseed. unfold seed.
  destruct (ignorable_loop bm loop) eqn:Hint; [by intros [= <-]|].
  assert (Hrun : forall (a : list (list P) * visited) (forward : bool) ps st',
            scan_inv bm point a -> paired bm n a.2 ->
            make_loop bm point n a.2 loop forward = Done (ps, st') ->
            paired bm n st').
  { intros a forward ps st' [Ha _] Hp. by apply make_loop_from_paired. }
  destruct (dd_get (loops_exited acc.2) loop) eqn:Hex; simpl.
  - destruct (dd_get (loops_entered acc.2) loop) eqn:Hen; simpl;
      [by intros [= <-]|].
    destruct (make_loop bm point n acc.2 loop false) as [[ps st']| |] eqn:Er;
      simpl; try discriminate.
    intros [= <-]. simpl. by eapply Hrun.
  - destruct (make_loop bm point n acc.2 loop true) as [[ps st']| |] eqn:Er;
      simpl; try discriminate.
    destruct (make_loop_seeded bm point Hok _ _ _ true _ _ Hacc Hl Hint Hex Er)
      as (Hinv & _).
    pose proof (Hrun _ _ _ _ Hacc Hpair Er) as Hp1.
    destruct (dd_get (loops_entered st') loop) eqn:Hen; simpl;
      [by intros [= <-]|].
    destruct (make_loop bm point n st' loop false) as [[ps2 st2]| |] eqn:Er2;
      simpl; try discriminate.
    intros [= <-]. simpl. by eapply (Hrun (acc.1 ++ [ps], st')).
Qed.

Lemma seed_does_not_raise acc loop e :
  loop ∈ all_loops bm ->
  scan_inv bm point acc /\ paired bm n acc.2 ->
  seed bm point n acc loop <> Raise e.
Proof.
  intros Hl [Hacc Hpair]. unfold seed.
  destruct (ignorable_loop bm loop) eqn:Hint; [done|].
  assert (Hrun : forall (a : list (list P) * visited) (forward : bool) e',
            scan_inv bm point a -> paired bm n a.2 ->
            make_loop bm point n a.2 loop forward <> Raise e').
  { intros a forward e' [Ha _] Hp. by apply make_loop_from_does_not_raise. }
  destruct (dd_get (loops_exited acc.2) loop) eqn:Hex; simpl.
  - destruct (dd_get (loops_entered acc.2) loop) eqn:Hen; simpl; [done|].
    pose proof (Hrun acc false) as H.
    destruct (make_loop bm point n acc.2 loop false) as [[ps st']|e1|] eqn:Er;
      simpl; try done.
    intros [= <-]. by eapply H.
  - pose proof (Hrun acc true) as H.
    destruct (make_loop bm point n acc.2 loop true) as [[ps st']|e1|] eqn:Er;
      simpl; [| intros [= <-]; by eapply H | done].
    destruct (make_loop_seeded bm point Hok _ _ _ true _ _ Hacc Hl Hint Hex Er)
      as (Hinv & _).
    pose proof (make_loop_from_paired _ _ _ _ _ _ (proj1 Hacc) Hpair Hl Hint Er)
      as Hp1.
    destruct (dd_get (loops_entered st') loop) eqn:Hen; simpl; [done|].
    pose proof (Hrun (acc.1 ++ [ps], st') false) as H2.
    destruct (make_loop bm point n st' loop false) as [[ps2 st2]|e2|] eqn:Er2;
      simpl; try done.
    intros [= <-]. by eapply H2.
Qed.

Lemma face_paired face : forall acc acc',
  (forall loop, loop ∈ face -> loop ∈ all_loops bm) ->
  scan_inv bm point acc /\ paired bm n acc.2 ->
  for_each face (seed bm point n) acc = Done acc' ->
  scan_inv bm point acc' /\ paired bm n acc'.2.
Proof.
  induction face as [|loop face IH]; intros acc acc' Hface Hacc; simpl.
  - by intros [= <-].
  - destruct (seed bm point n acc loop) as [acc1| |] eqn:Es; simpl;
      try discriminate.
    apply IH; [intros l Hl; apply Hface; by right|].
    eapply seed_paired; [|exact Hacc|exact Es]. apply Hface. left.
Qed.

Lemma scan_does_not_raise e : scan bm point n <> Raise e.
Proof.
  unfold scan. intros Hrun.
  apply (for_each_raises
           (fun acc => scan_inv bm point acc /\ paired bm n acc.2)
           (fun _ => False)) in Hrun; [done | | |].
  - intros acc face acc' Hf Hacc. apply face_paired; [|done].
    intros loop Hl. apply elem_of_all_loops. eauto.
  - intros acc face e' Hf Hacc Hraise.
    apply (for_each_raises
             (fun acc => scan_inv bm point acc /\ paired bm n acc.2)
             (fun _ => False)) in Hraise; [done | | |done].
    + intros acc1 loop acc2 Hl. apply seed_paired.
      apply elem_of_all_loops. eauto.
    + intros acc1 loop e'' Hl Hacc1. apply seed_does_not_raise; [|done].
      apply elem_of_all_loops. eauto.
  - split; [split; [apply fresh_ok | constructor] | apply fresh_paired].
Qed.
End Pairing.

(** * The specified properties *)

(** ** Coverage *)

(** C1.  On a well-formed mesh on which the scan ends without a failed
    assertion, every interior half-edge of the mesh has had [loops_exited]
    set to [True] exactly once and [loops_entered] set to [True] exactly
    once, over all traversals together (and both read [True] at the end);
    a boundary half-edge has had neither set, and every point of every
    spline was made at a crossing between two interior half-edges. *)
Theorem scan_marks_interior_loops_once {P} (bm : BMesh)
    (point : nat -> nat -> bool -> outcome P) (n : nat) splines st :
  mesh_ok bm = true ->
  scan bm point n = Done (splines, st) ->
  (forall loop, loop ∈ all_loops bm -> ignorable_loop bm loop = false ->
     times_set st (Exited loop) = 1 /\ times_set st (Entered loop) = 1
     /\ dd_get (loops_exited st) loop = true
     /\ dd_get (loops_entered st) loop = true)
  /\ (forall loop, ignorable_loop bm loop = true ->
        times_set st (Exited loop) = 0 /\ times_set st (Entered loop) = 0
        /\ dd_get (loops_exited st) loop = false
        /\ dd_get (loops_entered st) loop = false)
  /\ Forall (Forall (from_interior bm point)) splines.
Proof.
  intros Hok Hrun.
  destruct (scan_ok bm point Hok n splines st Hrun) as (Hst & Hpts & Hcov).
  split_and!; [| |done].
  - intros loop Hl Hint. destruct (Hcov loop Hl Hint) as [Hex Hen].
    split_and!; try by eapply times_set_once.
    + by apply (vo_exited _ _ Hst).
    + by apply (vo_entered _ _ Hst).
  - intros loop Hign.
    assert (Hex : Exited loop ∉ marks st).
    { intros Hm. apply (vo_interior _ _ Hst) in Hm as [_ Hm]. simpl in Hm.
      congruence. }
    assert (Hen : Entered loop ∉ marks st).
    { intros Hm. apply (vo_interior _ _ Hst) in Hm as [_ Hm]. simpl in Hm.
      congruence. }
    split_and!; try by apply times_set_never.
    + apply not_true_is_false. by rewrite (vo_exited _ _ Hst).
    + apply not_true_is_false. by rewrite (vo_entered _ _ Hst).
Qed.

(** The scan of the tetrahedron: all twelve half-edges are interior. *)
Lemma scan_marks_interior_loops_once_tetrahedron :
  exists splines st,
    scan tetrahedron crossing 13 = Done (splines, st)
    /\ (forall loop, loop ∈ all_loops tetrahedron ->
          ignorable_loop tetrahedron loop = false ->
          times_set st (Exited loop) = 1 /\ times_set st (Entered loop) = 1
          /\ dd_get (loops_exited st) loop = true
          /\ dd_get (loops_entered st) loop = true)
    /\ (forall loop, ignorable_loop tetrahedron loop = true ->
          times_set st (Exited loop) = 0 /\ times_set st (Entered loop) = 0
          /\ dd_get (loops_exited st) loop = false
          /\ dd_get (loops_entered st) loop = false)
    /\ Forall (Forall (from_interior tetrahedron crossing)) splines.
Proof.
  destruct (scan tetrahedron crossing 13) as [[splines st]| |] eqn:E.
  - exists splines, st. split; [reflexivity|].
    apply (scan_marks_interior_loops_once tetrahedron crossing 13 splines st);
      [vm_compute; reflexivity | exact E].
  - vm_compute in E. discriminate E.
  - vm_compute in E. discriminate E.
Defined.

(** ** The two branches of an iteration *)

(** C2, as the code has it.  An iteration that does not break read its
    closure flag as [False] ([loops_exited] when forward, [loops_entered]
    when backward), set that same flag on the current half-edge before its
    walk, and after the walk set the other flag on the half-edge the walk
    stopped at: backward, [loops_entered[current]] first and then
    [loops_exited] of the post-walk half-edge. *)
Theorem step_sets_closure_flag_then_other bm n st loop (forward : bool) c :
  step bm n st loop forward = Done (Some c) ->
  dd_get (if forward then loops_exited st else loops_entered st) loop = false
  /\ (if forward then walk_next bm n loop = Some (c_prev_loop c)
      else exists v, walk_prev bm n loop = Some (v, c_prev_loop c))
  /\ c_state c =
       (if forward then set_entered (set_exited st loop) (c_prev_loop c)
        else set_exited (set_entered st loop) (c_prev_loop c))
  /\ marks (c_state c) =
       marks st ++ (if forward then [Exited loop; Entered (c_prev_loop c)]
                    else [Entered loop; Exited (c_prev_loop c)]).
Proof.
  destruct forward; simpl.
  - intros (Hex & Hw & _ & _ & _ & _ & ->)%forward_step_inv.
    split_and!; try done. simpl. by rewrite <- app_assoc.
  - intros (Hen & (v & Hw & _) & _ & _ & _ & ->)%backward_step_inv.
    split_and!; eauto. simpl. by rewrite <- app_assoc.
Qed.

(** A backward iteration from loop 0 of the tetrahedron, nothing visited yet. *)
Lemma step_sets_closure_flag_then_other_tetrahedron :
  exists c,
    step tetrahedron 13 fresh 0 false = Done (Some c)
    /\ dd_get (loops_entered fresh) 0 = false
    /\ (exists v, walk_prev tetrahedron 13 0 = Some (v, c_prev_loop c))
    /\ c_state c = set_exited (set_entered fresh 0) (c_prev_loop c)
    /\ marks (c_state c) = marks fresh ++ [Entered 0; Exited (c_prev_loop c)].
Proof.
  destruct (step tetrahedron 13 fresh 0 false) as [[c|]| |] eqn:E.
  - exists c. split; [reflexivity|].
    exact (step_sets_closure_flag_then_other tetrahedron 13 fresh 0 false c E).
  - vm_compute in E. discriminate E.
  - vm_compute in E. discriminate E.
  - vm_compute in E. discriminate E.
Defined.

(** C2 as stated fails: a backward iteration from loop 0 of the tetrahedron
    sets [loops_entered[0]] first; [loops_exited[0]] still reads [False]
    after it, the [loops_exited] it set being that of loop 2, where the
    walk stopped. *)
Lemma backward_step_does_not_exit_current :
  exists c,
    backward_step tetrahedron 13 fresh 0 = Done (Some c)
    /\ marks (c_state c) = [Entered 0; Exited 2]
    /\ dd_get (loops_exited (c_state c)) 0 = false
    /\ dd_get (loops_entered (c_state c)) 0 = true.
Proof.
  destruct (backward_step tetrahedron 13 fresh 0) as [[c|]| |] eqn:E;
    vm_compute in E; try discriminate E.
  injection E as <-. exists (Build_crossed
    (set_exited (set_entered fresh 0) 2) 2 3 true).
  vm_compute. auto.
Qed.

(** ** Handles of a backward crossing *)

(** C3, as the code has it.  In ALIGNED mode, at a crossing whose recomputed
    direction is backward, the tangent in the handles is the negated unit
    vector from the vertex of [loop] to that of [loop.link_loop_next]; the
    binormal is the normalized cross product of the averaged normal with
    that unit vector before it is negated, which is the opposite of the
    normalized cross product with the negated tangent.  Stated in exact
    arithmetic. *)
Theorem aligned_backward_handles (geo : MeshData R) bm midpoints s c wu wd loop
    prev_loop cp :
  control_point geo bm midpoints s c ALIGNED wu wd loop prev_loop false
    = Done cp ->
  let normal := averaged_normal geo loop prev_loop in
  let tangent := vscale (-1) (edge_direction geo bm loop) in
  let binormal := normalized (cross normal (edge_direction geo bm loop)) in
  handle_left cp =
    Some (vsub (vsub (co cp) (vscale s binormal)) (vscale c tangent))
  /\ handle_right cp =
       Some (vadd (vadd (co cp) (vscale s binormal)) (vscale c tangent))
  /\ binormal = vscale (-1) (normalized (cross normal tangent)).
Proof.
  intros (m & _ & _ & Hl & Hr)%control_point_inv. cbv zeta in *.
  split_and!; [done..|].
  rewrite cross_opp_r, normalized_opp. apply vec_ext; simpl; ring.
Qed.

(** The backward crossing of the two quads, from loop 0 onto loop 4. *)
Lemma aligned_backward_handles_two_quads :
  exists cp : ControlPoint R,
    control_point two_quads_geo two_quads (edge_midpoints two_quads_geo)
      1 0 ALIGNED 0 0 4 0 false = Done cp
    /\ let normal := averaged_normal two_quads_geo 4 0 in
       let tangent := vscale (-1) (edge_direction two_quads_geo two_quads 4) in
       let binormal :=
         normalized (cross normal (edge_direction two_quads_geo two_quads 4)) in
       handle_left cp =
         Some (vsub (vsub (co cp) (vscale 1 binormal)) (vscale 0 tangent))
       /\ handle_right cp =
            Some (vadd (vadd (co cp) (vscale 1 binormal)) (vscale 0 tangent))
       /\ binormal = vscale (-1) (normalized (cross normal tangent)).
Proof.
  destruct (control_point_done two_quads_geo two_quads 1%R 0%R ALIGNED 0%R 0%R
              4 0 false (two_quads_in_range 4)) as [cp E].
  exists cp. split; [exact E|].
  exact (aligned_backward_handles two_quads_geo two_quads
           (edge_midpoints two_quads_geo) 1%R 0%R 0%R 0%R 4 0 cp E).
Defined.

(** C3 as stated fails.  Where the traversal of the two quads lands on loop
    4 from loop 0 going backward, with [s = 1] and [c = 0], the right handle
    is the point plus [(1, 0, 0)]; with the binormal taken from the negated
    tangent it would be the point plus [(-1, 0, 0)]. *)
Lemma aligned_backward_binormal_not_from_negated_tangent :
  exists (cp : ControlPoint R) hr,
    control_point two_quads_geo two_quads (edge_midpoints two_quads_geo)
      1 0 ALIGNED 0 0 4 0 false = Done cp
    /\ handle_right cp = Some hr
    /\ let normal := averaged_normal two_quads_geo 4 0 in
       let tangent := vscale (-1) (edge_direction two_quads_geo two_quads 4) in
       hr <> vadd (vadd (co cp) (vscale 1 (normalized (cross normal tangent))))
                  (vscale 0 tangent).
Proof.
  destruct (control_point_done two_quads_geo two_quads 1%R 0%R ALIGNED 0%R 0%R
              4 0 false (two_quads_in_range 4)) as [cp E].
  pose proof (control_point_inv _ _ _ _ _ _ _ _ _ _ _ _ E)
    as (m & _ & _ & _ & Hr).
  eexists cp, _. split; [exact E|]. split; [exact Hr|]. cbv zeta.
  assert (HN : averaged_normal two_quads_geo 4 0 = vec 0 0 1).
  { unfold averaged_normal.
    apply (normalized_of 2); [lra | rewrite len_squared_real; simpl; ring |].
    apply vec_ext; simpl; field. }
  assert (HT : edge_direction two_quads_geo two_quads 4 = vec 0 (-1) 0).
  { unfold edge_direction.
    apply (normalized_of 1); [lra | rewrite len_squared_real; simpl; ring |].
    apply vec_ext; simpl; field. }
  change (d_of_Z (-1)) with (-1)%R in Hr.
  rewrite HN, HT.
  assert (HB : normalized (cross (vec 0 0 1) (vec 0 (-1) 0)) = vec 1 0 0).
  { apply (normalized_of 1); [lra | rewrite len_squared_real; simpl; ring |].
    apply vec_ext; simpl; field. }
  rewrite cross_opp_r, normalized_opp, HB.
  intros Heq. apply (f_equal vx) in Heq. simpl in Heq. lra.
Qed.

(** ** Edges with more than two faces *)




(** ** Termination *)

(** C5.  On a well-formed mesh, a traversal seeded at an interior half-edge
    whose closure flag is unset, in any sound visited state, ends once [n]
    exceeds the number of half-edges: it fails an assertion or returns.
    Both walks inside a face end, and an iteration breaks exactly when its
    closure check fires.  When the traversal returns, it went through a
    list of crossings with one point each (at least one, at most as many
    as there are half-edges); no two of the iterations that made them
    started at the same half-edge in the same direction; no mark was set
    twice; and the closure flag is set where the last crossing landed,
    which made the next iteration break without a point. *)
Theorem make_loop_terminates {P} (bm : BMesh)
    (point : nat -> nat -> bool -> outcome P) (n : nat) st loop
    (forward : bool) :
  mesh_ok bm = true ->
  (forall a b c, point a b c <> OutOfGas) ->
  length (all_loops bm) < n ->
  visited_ok bm st ->
  loop ∈ all_loops bm -> ignorable_loop bm loop = false ->
  dd_get (if forward then loops_exited st else loops_entered st) loop = false ->
  make_loop bm point n st loop forward <> OutOfGas
  /\ is_Some (walk_next bm n loop) /\ is_Some (walk_prev bm n loop)
  /\ (forall st0 l (f : bool),
        step bm n st0 l f = Done None <->
        dd_get (if f then loops_exited st0 else loops_entered st0) l = true)
  /\ forall ps st', make_loop bm point n st loop forward = Done (ps, st') ->
       exists crossings,
         make_loop bm crossing n st loop forward = Done (crossings, st')
         /\ length crossings = length ps
         /\ 0 < length ps <= length (all_loops bm)
         /\ NoDup (completed_starts loop forward crossings)
         /\ marks st' = marks st ++ marks_of loop forward crossings
         /\ NoDup (marks st')
         /\ dd_get (if (final_start loop forward crossings).2
                    then loops_exited st' else loops_entered st')
               (final_start loop forward crossings).1 = true.
Proof.
  intros Hok Hpt Hn Hst Hl Hint Hflag. split_and!.
  - apply make_loop_from_terminates; auto; lia.
  - destruct (walk_next_ends bm Hok n loop) as (p & -> & _); eauto; lia.
  - destruct (walk_prev_ends bm Hok n loop) as (p & -> & _); eauto; lia.
  - intros st0 l f. apply step_break.
  - intros ps st' Hrun.
    pose proof (make_loop_from_follows bm point crossing false
                  (fun p x => point x.1.1 x.1.2 x.2 = Done p)) as Hfol.
    specialize (Hfol (fun a b c => ltac:(by destruct (point a b c) eqn:E))
                  n n st loop forward).
    unfold make_loop in *. rewrite Hrun in Hfol. simpl in Hfol.
    destruct (make_loop_from bm crossing n n st loop forward)
      as [[crossings st'']| |] eqn:Ec; try done.
    simpl in Hfol. destruct Hfol as [Hpts <-].
    exists crossings.
    destruct (make_loop_from_ok bm point Hok _ _ _ _ _ _ _ Hst Hl Hint Hrun)
      as (Hst' & new & Hnew & Hlen & _ & Hfirst).
    destruct (make_loop_from_trace _ _ _ _ _ _ _ _ Ec) as [Htrace Hfin].
    pose proof (marks_bound _ _ Hst') as Hb.
    rewrite Hnew, length_app in Hb.
    apply Forall2_length in Hpts as Hlenc.
    split_and!; try done.
    + destruct ps; [|simpl; lia]. simpl in Hlen.
      destruct new; [|done]. specialize (Hfirst Hflag).
      by apply not_elem_of_nil in Hfirst.
    + lia.
    + apply completed_starts_nodup. destruct Hst' as [Hnd _ _ _].
      rewrite Htrace in Hnd. by apply NoDup_app in Hnd as (_ & _ & ?).
    + by destruct Hst'.
Qed.

(** The first traversal of the two quads, forward from loop 0. *)
Lemma make_loop_terminates_two_quads :
  make_loop two_quads crossing 9 fresh 0 true <> OutOfGas
  /\ is_Some (walk_next two_quads 9 0) /\ is_Some (walk_prev two_quads 9 0)
  /\ (forall st0 l (f : bool),
        step two_quads 9 st0 l f = Done None <->
        dd_get (if f then loops_exited st0 else loops_entered st0) l = true)
  /\ forall ps st', make_loop two_quads crossing 9 fresh 0 true = Done (ps, st') ->
       exists crossings,
         make_loop two_quads crossing 9 fresh 0 true = Done (crossings, st')
         /\ length crossings = length ps
         /\ 0 < length ps <= length (all_loops two_quads)
         /\ NoDup (completed_starts 0 true crossings)
         /\ marks st' = marks fresh ++ marks_of 0 true crossings
         /\ NoDup (marks st')
         /\ dd_get (if (final_start 0 true crossings).2
                    then loops_exited st' else loops_entered st')
               (final_start 0 true crossings).1 = true.
Proof.
  apply (make_loop_terminates two_quads crossing 9 fresh 0 true).
  - vm_compute. reflexivity.
  - intros a b c. unfold crossing. discriminate.
  - simpl. lia.
  - apply fresh_ok.
  - apply list_elem_of_In. simpl. auto.
  - vm_compute. reflexivity.
  - vm_compute. reflexivity.
Defined.

(** ** Where a point is put *)

(** C6, as the code has it.  In any arithmetic, the points of a finished
    run are, in order, those of the traversal's crossings; at a crossing
    that lands on [loop] from [prev_loop] with recomputed direction
    [forward], the point is computed as the midpoint of the edge of [loop]
    plus [offset] times the normalized sum of the two loop normals, [offset]
    being [weave_up] when [forward] and [weave_down] otherwise; and where
    the squared length of that sum is not above [1.0e-35], its normalized
    form is the zero vector.  In exact arithmetic the displacement from the
    midpoint is that multiple of the normalized sum; its length is
    [|offset|] where the squared length of the sum is above [1.0e-35], and
    the point is the midpoint itself where it is not. *)
Theorem control_point_position :
  (forall F D (A : Arith F D) (T : Trig D) (geo : MeshData F) bm twists ca cs
          ht wu wd n splines,
     create_bezier geo bm twists ca cs ht wu wd n = Done splines ->
     exists crossings st,
       scan bm crossing n = Done (crossings, st)
       /\ Forall2 (Forall2 (fun cp (x : nat * nat * bool) =>
            let '(loop, prev_loop, forward) := x in
            exists e,
              py_index (mesh_edges geo) (loop_edge bm loop) = Some e
              /\ let midpoint :=
                   vdiv (vadd (vertex_co geo e.1) (vertex_co geo e.2))
                        (d_of_Z 2) in
                 let sum :=
                   vadd (calc_normal geo loop) (calc_normal geo prev_loop) in
                 let offset := if forward then wu else wd in
                 co cp = vadd midpoint (vscale offset (normalized sum))
                 /\ (dltb tiny (len_squared sum) = false ->
                     normalized sum = origin)))
            splines crossings)
  /\ (forall (geo : MeshData R) bm twists ca cs ht wu wd n splines,
     create_bezier geo bm twists ca cs ht wu wd n = Done splines ->
     exists crossings st,
       scan bm crossing n = Done (crossings, st)
       /\ Forall2 (Forall2 (fun cp (x : nat * nat * bool) =>
            let '(loop, prev_loop, forward) := x in
            exists e,
              py_index (mesh_edges geo) (loop_edge bm loop) = Some e
              /\ let midpoint :=
                   vdiv (vadd (vertex_co geo e.1) (vertex_co geo e.2)) 2 in
                 let sum :=
                   vadd (calc_normal geo loop) (calc_normal geo prev_loop) in
                 let offset := if forward then wu else wd in
                 vsub (co cp) midpoint = vscale offset (normalized sum)
                 /\ ((tiny < len_squared sum)%R ->
                     magnitude (vsub (co cp) midpoint) = Rabs offset)
                 /\ ((len_squared sum <= tiny)%R -> co cp = midpoint)))
            splines crossings).
Proof.
  split.
  - intros F D A T geo bm twists ca cs ht wu wd n splines
      (crossings & st & Hscan & Hpts)%create_bezier_crossings.
    exists crossings, st. split; [done|].
    eapply Forall2_impl; [exact Hpts|]. intros spline xs Hspline.
    eapply Forall2_impl; [exact Hspline|].
    intros cp [[loop prev_loop] forward] Hcp. simpl in Hcp.
    apply control_point_inv in Hcp as (m & Hm & Hco & _).
    apply edge_midpoints_lookup in Hm as (e & He & ->).
    exists e. split; [done|]. cbv zeta. split; [done|].
    intros Hsmall. unfold normalized. by rewrite Hsmall.
  - intros geo bm twists ca cs ht wu wd n splines
      (crossings & st & Hscan & Hpts)%create_bezier_crossings.
    exists crossings, st. split; [done|].
    eapply Forall2_impl; [exact Hpts|]. intros spline xs Hspline.
    eapply Forall2_impl; [exact Hspline|].
    intros cp [[loop prev_loop] forward] Hcp. simpl in Hcp.
    apply control_point_inv in Hcp as (m & Hm & Hco & _).
    apply edge_midpoints_lookup in Hm as (e & He & ->).
    exists e. split; [done|]. unfold averaged_normal in Hco.
    cbv zeta. rewrite Hco, vsub_vadd_l. split_and!; [done | |].
    + intros Hsum. rewrite magnitude_scale, normalized_unit by done.
      apply Rmult_1_r.
    + intros Hsum. rewrite normalized_below by done.
      apply vec_ext; simpl; ring.
Qed.

(** A run on the two quads in exact arithmetic, weaving up by 1 and down
    by 1. *)
Lemma control_point_position_two_quads :
  exists splines : list (list (ControlPoint R)),
    create_bezier two_quads_geo two_quads [] (PI / 4) 1 ALIGNED 1 (-1) 9
      = Done splines
    /\ (exists crossings st,
       scan two_quads crossing 9 = Done (crossings, st)
       /\ Forall2 (Forall2 (fun cp (x : nat * nat * bool) =>
            let '(loop, prev_loop, forward) := x in
            exists e,
              py_index (mesh_edges two_quads_geo) (loop_edge two_quads loop)
                = Some e
              /\ let midpoint :=
                   vdiv (vadd (vertex_co two_quads_geo e.1)
                              (vertex_co two_quads_geo e.2)) (d_of_Z 2) in
                 let sum :=
                   vadd (calc_normal two_quads_geo loop)
                        (calc_normal two_quads_geo prev_loop) in
                 let offset := if forward then 1%R else (-1)%R in
                 co cp = vadd midpoint (vscale offset (normalized sum))
                 /\ (dltb tiny (len_squared sum) = false ->
                     normalized sum = origin)))
            splines crossings)
    /\ (exists crossings st,
       scan two_quads crossing 9 = Done (crossings, st)
       /\ Forall2 (Forall2 (fun cp (x : nat * nat * bool) =>
            let '(loop, prev_loop, forward) := x in
            exists e,
              py_index (mesh_edges two_quads_geo) (loop_edge two_quads loop)
                = Some e
              /\ let midpoint :=
                   vdiv (vadd (vertex_co two_quads_geo e.1)
                              (vertex_co two_quads_geo e.2)) 2 in
                 let sum :=
                   vadd (calc_normal two_quads_geo loop)
                        (calc_normal two_quads_geo prev_loop) in
                 let offset := if forward then 1%R else (-1)%R in
                 vsub (co cp) midpoint = vscale offset (normalized sum)
                 /\ ((tiny < len_squared sum)%R ->
                     magnitude (vsub (co cp) midpoint) = Rabs offset)
                 /\ ((len_squared sum <= tiny)%R -> co cp = midpoint)))
            splines crossings).
Proof.
  destruct (two_quads_runs [] (PI / 4)%R 1%R ALIGNED 1%R (-1)%R)
    as [splines E].
  exists splines. split; [exact E|]. split.
  - exact (proj1 control_point_position R R real_arith real_trig two_quads_geo
             two_quads [] (PI / 4)%R 1%R ALIGNED 1%R (-1)%R 9 splines E).
  - exact (proj2 control_point_position two_quads_geo two_quads []
             (PI / 4)%R 1%R ALIGNED 1%R (-1)%R 9 splines E).
Defined.

(** C6 as stated fails where the two normals cancel.  On the pillow, in the
    arithmetic the code runs on and with both weave offsets 1, the first
    crossing of the scan lands on loop 4 from loop 1, and the point made
    there sits on the midpoint [(1, 1, 0)] of their edge: at distance 0
    from it, not 1. *)
Lemma pillow_point_stays_on_midpoint :
  exists rest others st (cp : ControlPoint spec_float),
    scan pillow crossing 7 = Done (((4, 1, false) :: rest) :: others, st)
    /\ control_point pillow_geo pillow (edge_midpoints pillow_geo)
         (d_of_Z 0) (d_of_Z 0) AUTO (d_of_Z 1) (d_of_Z 1) 4 1 false = Done cp
    /\ py_index (mesh_edges pillow_geo) (loop_edge pillow 4) = Some (1, 2)
    /\ vdiv (vadd (vertex_co pillow_geo 1) (vertex_co pillow_geo 2)) (d_of_Z 2)
         = at_Z 1 1 0
    /\ calc_normal pillow_geo 4 = at_Z 0 0 (-1)
    /\ calc_normal pillow_geo 1 = at_Z 0 0 1
    /\ co cp = at_Z 1 1 0
    /\ magnitude (vsub (co cp) (at_Z 1 1 0)) = d_of_Z 0
    /\ dltb (d_of_Z 0) (d_of_Z 1) = true.
Proof.
  destruct (scan pillow crossing 7) as [[crossings st]| |] eqn:E;
    [|vm_compute in E; discriminate E..].
  vm_compute in E. injection E as <- <-.
  do 3 eexists. eexists. split; [reflexivity|].
  split; [vm_compute; reflexivity|].
  repeat split; vm_compute; reflexivity.
Qed.

(** The normals need not cancel exactly for that.  In the arithmetic the
    code runs on, [(0, -2^-64, 0)] has squared length [2^-128], which is
    not above [1.0e-35], and normalizes to the zero vector;
    [(0, -2^-58, 0)], of squared length [2^-116], normalizes to
    [(0, -1, 0)]. *)
Lemma normalized_threshold :
  normalized (vec (binary32 0 0) (binary32 (-1) (-64)) (binary32 0 0))
    = (origin : Vector spec_float)
  /\ normalized (vec (binary32 0 0) (binary32 (-1) (-58)) (binary32 0 0))
      = vec (binary32 0 0) (binary32 (-1) 0) (binary32 0 0).
Proof. split; vm_compute; reflexivity. Qed.

(** Nor is the length exact in the arithmetic the code runs on where the
    normals do not cancel.  On the three pages, with both weave offsets 1,
    the crossing that lands on loop 3 from loop 0 has the normals
    [(1, 0, 0)] and [(0, 1, 0)]; the point made there lies
    [11863283 * 2^-24] along [x] and along [y] from the midpoint
    [(0, 0, 1/2)] of the edge, which is less than 1 away. *)
Lemma three_pages_point_short_of_offset :
  exists cp : ControlPoint spec_float,
    control_point three_pages_geo three_pages (edge_midpoints three_pages_geo)
      (d_of_Z 0) (d_of_Z 0) AUTO (d_of_Z 1) (d_of_Z 1) 3 0 false = Done cp
    /\ py_index (edge_midpoints three_pages_geo) (loop_edge three_pages 3)
         = Some (vec (binary32 0 0) (binary32 0 0) (binary32 1 (-1)))
    /\ dltb tiny (len_squared (vadd (calc_normal three_pages_geo 3)
                                    (calc_normal three_pages_geo 0))) = true
    /\ vsub (co cp) (vec (binary32 0 0) (binary32 0 0) (binary32 1 (-1)))
         = vec (binary32 11863283 (-24)) (binary32 11863283 (-24))
               (binary32 0 0)
    /\ dltb (magnitude
               (vsub (co cp)
                     (vec (binary32 0 0) (binary32 0 0) (binary32 1 (-1)))))
            (d_of_Z 1) = true.
Proof.
  eexists. split; [vm_compute; reflexivity|].
  split_and!; vm_compute; reflexivity.
Qed.

(** ** Handles *)

(** C7, as the code has it.  In ALIGNED mode, in any arithmetic, every point
    of a finished run has both handles, computed from the point with the
    same two vectors [s * binormal] and [c * tangent]: subtracted one after
    the other for the left handle, added one after the other for the right
    one.  The binormal is the normalized cross product of the averaged
    normal with the unit vector along the half-edge landed on, the tangent
    that unit vector, negated when the recomputed direction is backward.
    In exact arithmetic the right handle is then as far from the point as
    the point is from the left one:
    [handle_right - co = co - handle_left]. *)
Theorem aligned_handles_symmetric :
  (forall F D (A : Arith F D) (T : Trig D) (geo : MeshData F) bm twists ca cs
          wu wd n splines,
     create_bezier geo bm twists ca cs ALIGNED wu wd n = Done splines ->
     exists crossings st,
       scan bm crossing n = Done (crossings, st)
       /\ Forall2 (Forall2 (fun cp (x : nat * nat * bool) =>
            let '(loop, prev_loop, forward) := x in
            let s := dmul (dsin ca) cs in
            let c := dmul (dcos ca) cs in
            let binormal :=
              normalized (cross (averaged_normal geo loop prev_loop)
                                (edge_direction geo bm loop)) in
            let tangent :=
              if forward then edge_direction geo bm loop
              else vscale (d_of_Z (-1)) (edge_direction geo bm loop) in
            handle_left cp =
              Some (vsub (vsub (co cp) (vscale s binormal))
                         (vscale c tangent))
            /\ handle_right cp =
                 Some (vadd (vadd (co cp) (vscale s binormal))
                            (vscale c tangent))))
            splines crossings)
  /\ (forall (geo : MeshData R) bm twists ca cs wu wd n splines,
     create_bezier geo bm twists ca cs ALIGNED wu wd n = Done splines ->
     Forall (Forall (fun cp => exists hl hr,
               handle_left cp = Some hl /\ handle_right cp = Some hr
               /\ vsub hr (co cp) = vsub (co cp) hl)) splines).
Proof.
  split.
  - intros F D A T geo bm twists ca cs wu wd n splines
      (crossings & st & Hscan & Hpts)%create_bezier_crossings.
    exists crossings, st. split; [done|].
    eapply Forall2_impl; [exact Hpts|]. intros spline xs Hspline.
    eapply Forall2_impl; [exact Hspline|].
    intros cp [[loop prev_loop] forward] Hcp. simpl in Hcp.
    by apply control_point_inv in Hcp as (m & _ & _ & Hl & Hr).
  - intros geo bm twists ca cs wu wd n splines
      (crossings & st & _ & Hpts)%create_bezier_crossings.
    eapply Forall2_forget; [|exact Hpts]. intros spline xs Hspline.
    eapply Forall2_forget; [|exact Hspline]. intros cp x Hcp. simpl in Hcp.
    apply control_point_inv in Hcp as (m & _ & _ & Hl & Hr).
    eexists _, _. split; [exact Hl|]. split; [exact Hr|].
    apply vec_ext; simpl; ring.
Qed.

(** An ALIGNED run on the two quads in exact arithmetic. *)
Lemma aligned_handles_symmetric_two_quads :
  exists splines : list (list (ControlPoint R)),
    create_bezier two_quads_geo two_quads [] (PI / 4) 1 ALIGNED 1 (-1) 9
      = Done splines
    /\ (exists crossings st,
       scan two_quads crossing 9 = Done (crossings, st)
       /\ Forall2 (Forall2 (fun cp (x : nat * nat * bool) =>
            let '(loop, prev_loop, forward) := x in
            let s := (sin (PI / 4) * 1)%R in
            let c := (cos (PI / 4) * 1)%R in
            let binormal :=
              normalized (cross (averaged_normal two_quads_geo loop prev_loop)
                                (edge_direction two_quads_geo two_quads loop)) in
            let tangent :=
              if forward then edge_direction two_quads_geo two_quads loop
              else vscale (-1) (edge_direction two_quads_geo two_quads loop) in
            handle_left cp =
              Some (vsub (vsub (co cp) (vscale s binormal))
                         (vscale c tangent))
            /\ handle_right cp =
                 Some (vadd (vadd (co cp) (vscale s binormal))
                            (vscale c tangent))))
            splines crossings)
    /\ Forall (Forall (fun cp => exists hl hr,
            handle_left cp = Some hl /\ handle_right cp = Some hr
            /\ vsub hr (co cp) = vsub (co cp) hl)) splines.
Proof.
  destruct (two_quads_runs [] (PI / 4)%R 1%R ALIGNED 1%R (-1)%R)
    as [splines E].
  exists splines. split; [exact E|]. split.
  - exact (proj1 aligned_handles_symmetric R R real_arith real_trig
             two_quads_geo two_quads [] (PI / 4)%R 1%R 1%R (-1)%R 9 splines E).
  - exact (proj2 aligned_handles_symmetric two_quads_geo two_quads []
             (PI / 4)%R 1%R 1%R (-1)%R 9 splines E).
Defined.

(** C7 as stated fails in the arithmetic the code runs on.  Take for [s]
    and [c] the two doubles next to [sin (pi / 4)], below and above it, as
    a crossing angle of [pi / 4] and a crossing strength of 1 give them;
    both become the C float [11863283 * 2^-24].  Where the traversal of the
    two quads lands on loop 4 from loop 0 going backward, with weave
    offsets 1 and -1, the point is [(0, 1/2, -1)]; its right handle lies
    [11863284 * 2^-24] further along [y], its left handle
    [11863283 * 2^-24] back. *)
Lemma aligned_handles_not_symmetric_in_floats :
  let s := binary64 6369051672525772 (-53) in
  let c := binary64 6369051672525773 (-53) in
  narrow s = binary32 11863283 (-24) /\ narrow c = binary32 11863283 (-24)
  /\ exists (cp : ControlPoint spec_float) hl hr,
    control_point two_quads_geo two_quads (edge_midpoints two_quads_geo)
      s c ALIGNED (d_of_Z 1) (d_of_Z (-1)) 4 0 false = Done cp
    /\ handle_left cp = Some hl /\ handle_right cp = Some hr
    /\ co cp = vec (binary32 0 0) (binary32 1 (-1)) (binary32 (-1) 0)
    /\ vy (vsub hr (co cp)) = binary32 11863284 (-24)
    /\ vy (vsub (co cp) hl) = binary32 11863283 (-24)
    /\ vsub hr (co cp) <> vsub (co cp) hl.
Proof.
  cbv zeta. split; [vm_compute; reflexivity|].
  split; [vm_compute; reflexivity|].
  do 3 eexists. split; [vm_compute; reflexivity|].
  split; [reflexivity|]. split; [reflexivity|].
  split_and!; [vm_compute; reflexivity..|].
  vm_compute. discriminate.
Qed.

(** ** Parameter ranges *)

(** C8, as the code has it.  [execute] checks no parameter: whether a run
    returns, fails an assertion or an index, does not depend on the
    operator's properties, in any arithmetic; and a run that returns has
    made a pipe exactly when [thickness > 0] held. *)
Theorem execute_does_not_validate {F D} {A : Arith F D} {T : Trig D}
    (self self' : CelticKnotOperator D) (geo : MeshData F) bm n :
  verdict_of (execute self geo bm n) = verdict_of (execute self' geo bm n)
  /\ match execute self geo bm n with
     | Done r => pipe r <> None <-> dltb (d_of_Z 0) (thickness self) = true
     | _ => True
     end.
Proof.
  split.
  - unfold execute. rewrite !verdict_bind_done. unfold create_bezier.
    set (point := control_point geo bm (edge_midpoints geo) _ _ _ _ _).
    set (point' := control_point geo bm (edge_midpoints geo) _ _ _ _ _).
    transitivity (verdict_of (scan bm point n)).
    { by destruct (scan bm point n) as [[spl st]| |]. }
    transitivity (verdict_of (scan bm point' n)).
    2: { by destruct (scan bm point' n) as [[spl st]| |]. }
    apply (follows_verdict (same_run (fun _ _ => True))).
    apply scan_follows. intros. apply control_point_same_verdict.
  - unfold execute.
    destruct (create_bezier geo bm _ _ _ _ _ _ n); simpl; [|done..].
    destruct (dltb (d_of_Z 0) (thickness self)); split; done.
Qed.

(** C8 as stated fails.  With [crossing_angle], [crossing_strength] and
    [thickness] all [-1], the run on the two quads returns its spline of
    two points, without a pipe. *)
Lemma execute_accepts_out_of_range :
  let self := {| weave_up := 1; weave_down := -1; handle_type := ALIGNED;
                 crossing_angle := -1; crossing_strength := -1;
                 thickness := -1 |} in
  ~ in_range self
  /\ (crossing_angle self < 0)%R /\ (crossing_strength self < 0)%R
  /\ (thickness self < 0)%R
  /\ exists r,
       execute self two_quads_geo two_quads 9 = Done r
       /\ length <$> curve r = [2]
       /\ pipe r = None.
Proof.
  cbv zeta. simpl. split_and!; try lra.
  { unfold in_range. simpl. lra. }
  destruct (scan two_quads crossing 9) as [[crossings st]| |] eqn:E;
    [|vm_compute in E; discriminate E..].
  pose proof E as Hscan. vm_compute in E. injection E as <- _.
  destruct (create_bezier_finishes two_quads_geo two_quads
              (get_celtic_twists two_quads) (-1)%R (-1)%R ALIGNED 1%R (-1)%R 9 _ _
              two_quads_in_range Hscan) as (splines & Hrun & Hpts).
  unfold execute. simpl. rewrite Hrun. simpl. eexists. split; [reflexivity|].
  simpl. split.
  - apply Forall2_length in Hpts as Hlen.
    destruct splines as [|s1 [|s2 rest]]; simpl in Hlen; try lia.
    apply Forall2_cons in Hpts as [H1 _].
    apply Forall2_length in H1. simpl in *. congruence.
  - destruct (Rlt_dec 0 (-1)); [lra | done].
Qed.

(** ** The twists argument *)

(** C9.  [create_bezier] does not read its [twists] argument: any two
    values give the same splines, or the same failure. *)
Theorem create_bezier_ignores_twists {F D} {A : Arith F D} {T : Trig D}
    (geo : MeshData F) bm twists1 twists2 ca cs ht wu wd n :
  create_bezier geo bm twists1 ca cs ht wu wd n
  = create_bezier geo bm twists2 ca cs ht wu wd n.
Proof. reflexivity. Qed.

(** ** Which vertex decides the direction *)

(** C10.  On a well-formed mesh whose edges have two distinct ends, an
    iteration from [loop] that completes has crossed at the half-edge
    [prev_loop] that its walk ended on, and set [forward] by comparing the
    vertex of the half-edge it landed on with a vertex of [prev_loop]'s
    edge.  Going forward it walked by [link_loop_next], landed on
    [prev_loop.link_loops[0]] and compared with the vertex of [prev_loop]
    itself.  Going backward it walked by [link_loop_prev], landed on
    [prev_loop.link_loops[-1]] and compared with the [v] its walk stored
    last, which is the vertex of [prev_loop.link_loop_next].  The two
    compared vertices are different.  And the iteration does complete, in
    either direction, from an interior half-edge whose closure flag is
    unset, in a state whose marks are paired, once [n] is at least the
    number of half-edges and no half-edge is its own radial neighbour. *)
Theorem direction_compares_other_end bm n st loop (forward : bool) :
  mesh_ok bm = true -> edges_proper bm = true ->
  loop ∈ all_loops bm ->
  (forall c, step bm n st loop forward = Done (Some c) ->
     c_forward c =
       (loop_vert bm (c_loop c) =? compared_vertex bm forward (c_prev_loop c))
     /\ (if forward then
           walk_next bm n loop = Some (c_prev_loop c)
           /\ head (link_loops bm (c_prev_loop c)) = Some (c_loop c)
         else
           walk_prev bm n loop =
             Some (compared_vertex bm false (c_prev_loop c), c_prev_loop c)
           /\ last (link_loops bm (c_prev_loop c)) = Some (c_loop c))
     /\ compared_vertex bm true (c_prev_loop c)
          <> compared_vertex bm false (c_prev_loop c))
  /\ (no_self_radial bm = true -> paired bm n st ->
      ignorable_loop bm loop = false -> length (all_loops bm) <= n ->
      dd_get (if forward then loops_exited st else loops_entered st) loop
        = false ->
      exists c, step bm n st loop forward = Done (Some c)).
Proof.
  intros Hok Hprop Hl. split.
  - intros c Hstep.
    assert (Hp : c_prev_loop c ∈ all_loops bm ->
            compared_vertex bm true (c_prev_loop c)
              <> compared_vertex bm false (c_prev_loop c)).
    { intros Hin. unfold edges_proper in Hprop. rewrite forallb_forall in Hprop.
      apply list_elem_of_In, Hprop, negb_true_iff, Nat.eqb_neq in Hin.
      simpl. congruence. }
    destruct forward; simpl in *.
    + apply forward_step_inv in Hstep as (_ & Hw & _ & Hhd & _ & Hf & _).
      destruct (walk_next_inv _ _ _ _ Hok Hl Hw) as [Hin _].
      split_and!; [done | done | done | by apply Hp].
    + apply backward_step_inv in Hstep as (_ & (v & Hw & Hf) & _ & Hlast & _).
      destruct (walk_prev_inv _ _ _ _ _ Hok Hl Hw) as (Hin & _ & ->).
      split_and!; [done | done | done | by apply Hp].
  - intros Hself Hpair Hint Hn Hflag.
    pose proof (step_does_not_raise bm n Hok st loop forward) as Hraise.
    pose proof (step_terminates bm n st loop forward Hok Hl Hint Hn) as Hterm.
    pose proof (step_break bm n st loop forward) as Hbreak.
    destruct (step bm n st loop forward) as [[c|]|e|]; [by eauto | | |done].
    + rewrite (proj1 Hbreak eq_refl) in Hflag. discriminate.
    + by destruct (Hraise e).
Qed.

(** A forward and a backward iteration from loop 0 of the tetrahedron, in
    the state the scan starts in. *)
Lemma direction_compares_other_end_tetrahedron :
  (exists c,
    step tetrahedron 13 fresh 0 true = Done (Some c)
    /\ c_forward c =
         (loop_vert tetrahedron (c_loop c)
            =? compared_vertex tetrahedron true (c_prev_loop c))
    /\ (walk_next tetrahedron 13 0 = Some (c_prev_loop c)
        /\ head (link_loops tetrahedron (c_prev_loop c)) = Some (c_loop c))
    /\ compared_vertex tetrahedron true (c_prev_loop c)
         <> compared_vertex tetrahedron false (c_prev_loop c))
  /\ (exists c,
    step tetrahedron 13 fresh 0 false = Done (Some c)
    /\ c_forward c =
         (loop_vert tetrahedron (c_loop c)
            =? compared_vertex tetrahedron false (c_prev_loop c))
    /\ (walk_prev tetrahedron 13 0 =
          Some (compared_vertex tetrahedron false (c_prev_loop c),
                c_prev_loop c)
        /\ last (link_loops tetrahedron (c_prev_loop c)) = Some (c_loop c))
    /\ compared_vertex tetrahedron true (c_prev_loop c)
         <> compared_vertex tetrahedron false (c_prev_loop c)).
Proof.
  assert (Hok : mesh_ok tetrahedron = true) by (vm_compute; reflexivity).
  assert (Hprop : edges_proper tetrahedron = true) by (vm_compute; reflexivity).
  assert (Hself : no_self_radial tetrahedron = true)
    by (vm_compute; reflexivity).
  assert (Hl : 0 ∈ all_loops tetrahedron)
    by (apply list_elem_of_In; simpl; auto).
  assert (Hint : ignorable_loop tetrahedron 0 = false) by reflexivity.
  assert (Hn : length (all_loops tetrahedron) <= 13) by (simpl; lia).
  split.
  - destruct (direction_compares_other_end tetrahedron 13 fresh 0 true
                Hok Hprop Hl) as [Hties Hruns].
    destruct (Hruns Hself (fresh_paired tetrahedron 13) Hint Hn eq_refl)
      as [c Hc].
    exists c. split; [exact Hc|]. exact (Hties c Hc).
  - destruct (direction_compares_other_end tetrahedron 13 fresh 0 false
                Hok Hprop Hl) as [Hties Hruns].
    destruct (Hruns Hself (fresh_paired tetrahedron 13) Hint Hn eq_refl)
      as [c Hc].
    exists c. split; [exact Hc|]. exact (Hties c Hc).
Defined.

(** * Further properties *)

(** ** What the scan keeps *)

Lemma scan_keeps {P} bm (point : nat -> nat -> bool -> outcome P) n
    (J : list (list P) * visited -> Prop) :
  J ([], fresh) ->
  (forall acc loop acc', loop ∈ all_loops bm -> J acc ->
     seed bm point n acc loop = Done acc' -> J acc') ->
  forall splines st, scan bm point n = Done (splines, st) -> J (splines, st).
Proof.
  intros Hinit Hseed splines st. unfold scan.
  assert (Hface : forall face, (forall l, l ∈ face -> l ∈ all_loops bm) ->
            forall acc acc', J acc ->
            for_each face (seed bm point n) acc = Done acc' -> J acc').
  { induction face as [|loop face IH]; intros Hin acc acc' Hacc; simpl.
    - by intros [= <-].
    - destruct (seed bm point n acc loop) as [acc1| |] eqn:Es; simpl;
        try discriminate.
      apply IH; [intros l Hl; apply Hin; by right|].
      eapply Hseed; [|exact Hacc|exact Es]. apply Hin. left. }
  assert (Hfaces : forall faces, (forall f, f ∈ faces -> f ∈ bm_faces bm) ->
            forall acc acc', J acc ->
            for_each faces (fun acc face => for_each face (seed bm point n) acc)
              acc = Done acc' -> J acc').
  { induction faces as [|face faces IH]; intros Hin acc acc' Hacc; simpl.
    - by intros [= <-].
    - destruct (for_each face (seed bm point n) acc) as [acc1| |] eqn:Ef; simpl;
        try discriminate.
      apply IH; [intros f Hf; apply Hin; by right|].
      eapply Hface; [|exact Hacc|exact Ef].
      intros l Hl. apply elem_of_all_loops. exists face. split; [done|].
      apply Hin. left. }
  by apply Hfaces.
Qed.

(** Every spline of a finished scan was returned by a call of [make_loop]
    at an interior loop whose closure flag was unset, in a sound state. *)
Lemma scan_each_spline {P} bm (point : nat -> nat -> bool -> outcome P) n
    (Q : list P -> Prop) splines st :
  mesh_ok bm = true ->
  (forall st loop (forward : bool) ps st',
     visited_ok bm st ->
     loop ∈ all_loops bm -> ignorable_loop bm loop = false ->
     dd_get (if forward then loops_exited st else loops_entered st) loop = false ->
     make_loop bm point n st loop forward = Done (ps, st') -> Q ps) ->
  scan bm point n = Done (splines, st) -> Forall Q splines.
Proof.
  intros Hok HQ Hrun.
  apply (scan_keeps bm point n
           (fun acc => scan_inv bm point acc /\ Forall Q acc.1)) in Hrun;
    [by destruct Hrun | |].
  { split; [split; [apply fresh_ok | constructor] | constructor]. }
  intros acc loop acc' Hl [Hacc Hall] Hseed.
  split; [by apply (seed_ok bm point Hok n acc loop acc' Hl Hacc) in Hseed as (? & _)|].
  revert Hseed. unfold seed.
  destruct (ignorable_loop bm loop) eqn:Hint; [by intros [= <-]|].
  destruct (dd_get (loops_exited acc.2) loop) eqn:Hex; simpl.
  - destruct (dd_get (loops_entered acc.2) loop) eqn:Hen; simpl;
      [by intros [= <-]|].
    destruct (make_loop bm point n acc.2 loop false) as [[ps st']| |] eqn:Er;
      simpl; try discriminate.
    intros [= <-]. simpl. apply Forall_app. split; [done|].
    constructor; [|constructor].
    by apply (HQ acc.2 loop false ps st' (proj1 Hacc) Hl Hint Hen).
  - destruct (make_loop bm point n acc.2 loop true) as [[ps st']| |] eqn:Er;
      simpl; try discriminate.
    destruct (make_loop_seeded bm point Hok _ _ _ true _ _ Hacc Hl Hint Hex Er)
      as (Hinv & _).
    assert (Hall1 : Forall Q (acc.1 ++ [ps])).
    { apply Forall_app. split; [done|]. constructor; [|constructor].
      by apply (HQ acc.2 loop true ps st' (proj1 Hacc) Hl Hint Hex). }
    destruct (dd_get (loops_entered st') loop) eqn:Hen; simpl;
      [by intros [= <-]|].
    destruct (make_loop bm point n st' loop false) as [[ps2 st2]| |] eqn:Er2;
      simpl; try discriminate.
    intros [= <-]. simpl. apply Forall_app. split; [done|].
    constructor; [|constructor].
    by apply (HQ st' loop false ps2 st2 (proj1 Hinv) Hl Hint Hen).
Qed.

(** ** A run on a well-formed mesh returns *)

(** X1.  On a well-formed mesh on which no loop is its own radial
    neighbour, with every edge index in range, the run fails no assertion
    and no index and returns, once [n] exceeds the number of half-edges:
    the visited-flag assertions of [make_loop] can never fail, since the
    flag they test is set and unset together with the closure flag just
    read. *)
Theorem execute_returns {F D} {A : Arith F D} {T : Trig D}
    (self : CelticKnotOperator D) (geo : MeshData F) bm n :
  mesh_ok bm = true -> no_self_radial bm = true ->
  (forall loop, index_ok (length (mesh_edges geo)) (loop_edge bm loop)) ->
  length (all_loops bm) < n ->
  exists r, execute self geo bm n = Done r.
Proof.
  intros Hok Hself Hrange Hn.
  pose proof (create_bezier_verdict geo bm (get_celtic_twists bm)
                (crossing_angle self) (crossing_strength self)
                (handle_type self) (weave_up self) (weave_down self) n Hrange)
    as Hv.
  assert (Hcross : forall a b c e, crossing a b c <> Raise e) by done.
  assert (Hcross' : forall a b c, crossing a b c <> OutOfGas) by done.
  pose proof (scan_does_not_raise bm n Hok crossing Hcross Hself) as Hraise.
  pose proof (scan_terminates bm crossing Hok n Hcross' Hn) as Hterm.
  unfold execute.
  destruct (scan bm crossing n) as [a|e|]; [|by destruct (Hraise e) | done].
  destruct (create_bezier geo bm _ _ _ _ _ _ n) as [spl| |]; simpl in *;
    try discriminate.
  eauto.
Qed.

(** The two quads with the operator's defaults. *)
Lemma execute_returns_two_quads :
  exists r, execute default_operator two_quads_geo two_quads 9 = Done r.
Proof.
  apply (execute_returns default_operator two_quads_geo two_quads 9).
  - vm_compute. reflexivity.
  - vm_compute. reflexivity.
  - exact two_quads_in_range.
  - simpl. lia.
Defined.

(** ** Meshes without interior edges *)

Lemma for_each_skip {A S} (body : S -> A -> outcome S) xs s :
  (forall x, x ∈ xs -> body s x = Done s) -> for_each xs body s = Done s.
Proof.
  induction xs as [|x xs IH]; intros Hskip; simpl; [done|].
  rewrite Hskip by left. simpl. apply IH. intros y Hy. apply Hskip. by right.
Qed.

(** X2.  When every loop of the mesh is on the boundary, the run makes no
    spline at all, whatever [n] is: nothing is seeded. *)
Theorem all_boundary_no_splines {F D} {A : Arith F D} {T : Trig D}
    (geo : MeshData F) bm twists ca cs ht wu wd n :
  (forall loop, loop ∈ all_loops bm -> ignorable_loop bm loop = true) ->
  create_bezier geo bm twists ca cs ht wu wd n = Done [].
Proof.
  intros Hall. unfold create_bezier, scan.
  rewrite for_each_skip; [done|].
  intros face Hface. apply for_each_skip. intros loop Hl. unfold seed.
  rewrite Hall; [done|]. apply elem_of_all_loops. eauto.
Qed.

(** The quad on its own, given no fuel at all. *)
Lemma all_boundary_no_splines_single_quad :
  create_bezier two_quads_geo single_quad [] 0 0 AUTO 0 0 0 = Done [].
Proof.
  apply (all_boundary_no_splines two_quads_geo single_quad [] 0%R 0%R AUTO 0%R
           0%R 0).
  intros loop Hl. apply list_elem_of_In in Hl. simpl in Hl.
  destruct Hl as [<- | [<- | [<- | [<- | []]]]]; reflexivity.
Defined.

(** ** Splines are never empty *)

Lemma make_loop_nonempty {P} bm (point : nat -> nat -> bool -> outcome P) n st
    loop (forward : bool) ps st' :
  dd_get (if forward then loops_exited st else loops_entered st) loop = false ->
  make_loop bm point n st loop forward = Done (ps, st') -> ps <> [].
Proof.
  intros Hflag. unfold make_loop. destruct n as [|n]; simpl; [done|].
  destruct (step bm (S n) st loop forward) as [[c|]| |] eqn:Es; simpl;
    try discriminate.
  - destruct (point (c_loop c) (c_prev_loop c) (c_forward c)); simpl;
      try discriminate.
    destruct (make_loop_from bm point (S n) n (c_state c) (c_loop c)
                (c_forward c)) as [[ps0 st0]| |]; simpl; try discriminate.
    by intros [= <- <-].
  - apply step_break in Es. congruence.
Qed.

(** X3.  Every spline of a finished run has at least one point, on any
    mesh: [make_loop] is only called where the closure flag of the seed is
    unset, so its first iteration does not break. *)
Theorem splines_nonempty {F D} {A : Arith F D} {T : Trig D}
    (geo : MeshData F) bm twists ca cs ht wu wd n splines :
  create_bezier geo bm twists ca cs ht wu wd n = Done splines ->
  Forall (fun spline => spline <> []) splines.
Proof.
  unfold create_bezier.
  destruct (scan bm _ n) as [[spl st]| |] eqn:E; simpl; try discriminate.
  intros [= <-].
  apply (scan_keeps bm _ n (fun acc => Forall (fun spline => spline <> []) acc.1))
    in E; [done | constructor |].
  intros acc loop acc' _ Hacc. unfold seed.
  destruct (ignorable_loop bm loop); [by intros [= <-]|].
  destruct (dd_get (loops_exited acc.2) loop) eqn:Hex; simpl.
  - destruct (dd_get (loops_entered acc.2) loop) eqn:Hen; simpl;
      [by intros [= <-]|].
    destruct (make_loop bm _ n acc.2 loop false) as [[ps st']| |] eqn:Er;
      simpl; try discriminate.
    intros [= <-]. simpl. apply Forall_app. split; [done|].
    constructor; [|constructor]. by apply (make_loop_nonempty _ _ _ _ _ false _ _ Hen Er).
  - destruct (make_loop bm _ n acc.2 loop true) as [[ps st']| |] eqn:Er;
      simpl; try discriminate.
    assert (Hall1 : Forall (fun spline => spline <> []) (acc.1 ++ [ps])).
    { apply Forall_app. split; [done|]. constructor; [|constructor].
      by apply (make_loop_nonempty _ _ _ _ _ true _ _ Hex Er). }
    destruct (dd_get (loops_entered st') loop) eqn:Hen; simpl;
      [by intros [= <-]|].
    destruct (make_loop bm _ n st' loop false) as [[ps2 st2]| |] eqn:Er2;
      simpl; try discriminate.
    intros [= <-]. simpl. apply Forall_app. split; [done|].
    constructor; [|constructor].
    by apply (make_loop_nonempty _ _ _ _ _ false _ _ Hen Er2).
Qed.

(** A run on the two quads. *)
Lemma splines_nonempty_two_quads :
  exists splines,
    create_bezier two_quads_geo two_quads [] 0 0 AUTO 1 1 9 = Done splines
    /\ Forall (fun spline => spline <> []) splines.
Proof.
  destruct (two_quads_runs [] 0%R 0%R AUTO 1%R 1%R) as [splines E].
  exists splines. split; [exact E|].
  exact (splines_nonempty two_quads_geo two_quads [] 0%R 0%R AUTO 1%R 1%R 9
           splines E).
Defined.

(** ** The visited maps only gain entries *)

Lemma step_keeps_flags bm n st loop forward c l :
  step bm n st loop forward = Done (Some c) ->
  (dd_get (loops_entered st) l = true ->
   dd_get (loops_entered (c_state c)) l = true)
  /\ (dd_get (loops_exited st) l = true ->
      dd_get (loops_exited (c_state c)) l = true).
Proof.
  destruct forward; simpl.
  - intros (_ & _ & _ & _ & _ & _ & ->)%forward_step_inv. simpl.
    rewrite !dd_get_insert. split; intros H; by case_decide.
  - intros (_ & _ & _ & _ & _ & ->)%backward_step_inv. simpl.
    rewrite !dd_get_insert. split; intros H; by case_decide.
Qed.

(** X4.  A traversal that returns has cleared no flag: a half-edge that
    read as entered (or exited) before it still does afterwards, on any
    mesh and from any state. *)
Theorem make_loop_keeps_flags {P} bm (point : nat -> nat -> bool -> outcome P)
    n st loop forward ps st' l :
  make_loop bm point n st loop forward = Done (ps, st') ->
  (dd_get (loops_entered st) l = true -> dd_get (loops_entered st') l = true)
  /\ (dd_get (loops_exited st) l = true -> dd_get (loops_exited st') l = true).
Proof.
  unfold make_loop. generalize n at 2. intros gas.
  revert st loop forward ps.
  induction gas as [|gas IH]; intros st loop forward ps; simpl; [done|].
  destruct (step bm n st loop forward) as [[c|]| |] eqn:Es; simpl;
    try discriminate.
  - destruct (point (c_loop c) (c_prev_loop c) (c_forward c)); simpl;
      try discriminate.
    destruct (make_loop_from bm point n gas (c_state c) (c_loop c)
                (c_forward c)) as [[ps0 st0]| |] eqn:Er; simpl;
      try discriminate.
    intros [= <- <-].
    destruct (step_keeps_flags _ _ _ _ _ _ l Es) as [H1 H2].
    destruct (IH _ _ _ _ Er) as [H3 H4]. split; auto.
  - by intros [= <- <-].
Qed.

(** The second traversal of the tetrahedron, seeded backward at loop 0
    after the first has set [loops_exited[0]]. *)
Lemma make_loop_keeps_flags_tetrahedron :
  exists st ps st',
    dd_get (loops_exited st) 0 = true
    /\ make_loop tetrahedron crossing 13 st 0 false = Done (ps, st')
    /\ (dd_get (loops_entered st) 0 = true ->
        dd_get (loops_entered st') 0 = true)
    /\ (dd_get (loops_exited st) 0 = true ->
        dd_get (loops_exited st') 0 = true).
Proof.
  destruct (make_loop tetrahedron crossing 13 fresh 0 true)
    as [[ps0 st]| |] eqn:E0; [|vm_compute in E0; discriminate E0..].
  destruct (make_loop tetrahedron crossing 13 st 0 false)
    as [[ps st']| |] eqn:E.
  - exists st, ps, st'. split.
    + vm_compute in E0. injection E0 as _ <-. vm_compute. reflexivity.
    + split; [exact E|].
      exact (make_loop_keeps_flags tetrahedron crossing 13 st 0 false ps st' 0 E).
  - vm_compute in E0. injection E0 as _ <-. vm_compute in E. discriminate E.
  - vm_compute in E0. injection E0 as _ <-. vm_compute in E. discriminate E.
Defined.

(** ** One point for every interior half-edge *)

Lemma seed_counts {P} bm (point : nat -> nat -> bool -> outcome P) n acc loop acc' :
  mesh_ok bm = true -> loop ∈ all_loops bm ->
  scan_inv bm point acc /\ length (marks acc.2) = 2 * length (concat acc.1) ->
  seed bm point n acc loop = Done acc' ->
  scan_inv bm point acc' /\ length (marks acc'.2) = 2 * length (concat acc'.1).
Proof.
  intros Hok Hl [Hacc Hcount] Hseed.
  split; [by apply (seed_ok bm point Hok n acc loop acc' Hl Hacc) in Hseed as (? & _)|].
  revert Hseed. unfold seed.
  destruct (ignorable_loop bm loop) eqn:Hint; [by intros [= <-]|].
  assert (Hrun : forall (a : list (list P) * visited) (forward : bool) ps st',
            scan_inv bm point a ->
            length (marks a.2) = 2 * length (concat a.1) ->
            make_loop bm point n a.2 loop forward = Done (ps, st') ->
            length (marks st') = 2 * length (concat (a.1 ++ [ps]))).
  { intros a forward ps st' [Ha _] Hc Hrun.
    destruct (make_loop_from_ok bm point Hok _ _ _ _ _ _ _ Ha Hl Hint Hrun)
      as (_ & new & -> & Hlen & _).
    rewrite concat_app, !length_app. simpl. rewrite app_nil_r. lia. }
  destruct (dd_get (loops_exited acc.2) loop) eqn:Hex; simpl.
  - destruct (dd_get (loops_entered acc.2) loop) eqn:Hen; simpl;
      [by intros [= <-]|].
    destruct (make_loop bm point n acc.2 loop false) as [[ps st']| |] eqn:Er;
      simpl; try discriminate.
    intros [= <-]. simpl. by eapply Hrun.
  - destruct (make_loop bm point n acc.2 loop true) as [[ps st']| |] eqn:Er;
      simpl; try discriminate.
    destruct (make_loop_seeded bm point Hok _ _ _ true _ _ Hacc Hl Hint Hex Er)
      as (Hinv & _).
    pose proof (Hrun _ _ _ _ Hacc Hcount Er) as Hc1.
    destruct (dd_get (loops_entered st') loop) eqn:Hen; simpl;
      [by intros [= <-]|].
    destruct (make_loop bm point n st' loop false) as [[ps2 st2]| |] eqn:Er2;
      simpl; try discriminate.
    intros [= <-]. simpl. by eapply (Hrun (acc.1 ++ [ps], st')).
Qed.

Lemma marks_of_covered bm st :
  NoDup (all_loops bm) -> visited_ok bm st ->
  (forall loop, loop ∈ all_loops bm -> ignorable_loop bm loop = false ->
     Exited loop ∈ marks st /\ Entered loop ∈ marks st) ->
  length (marks st) = 2 * length (interior_loops bm).
Proof.
  intros Hnd Hst Hcov.
  assert (Hperm : marks st ≡ₚ
            (Exited <$> interior_loops bm) ++ (Entered <$> interior_loops bm)).
  { apply NoDup_Permutation.
    - by destruct Hst.
    - assert (Hi : NoDup (interior_loops bm)) by by apply NoDup_filter.
      apply NoDup_app. split_and!.
      + apply NoDup_fmap; [|done]. by intros ? ? [= ->].
      + intros m (l1 & -> & _)%list_elem_of_fmap (l2 & [=] & _)%list_elem_of_fmap.
      + apply NoDup_fmap; [|done]. by intros ? ? [= ->].
    - intros m. rewrite elem_of_app, !list_elem_of_fmap. split.
      + intros Hm. destruct (vo_interior _ _ Hst m Hm) as [Hl Hint].
        destruct m as [l|l]; [right | left]; exists l; split; try done;
          by apply list_elem_of_filter.
      + intros [(l & -> & [Hint Hl]%list_elem_of_filter)
               |(l & -> & [Hint Hl]%list_elem_of_filter)];
          by apply Hcov. }
  rewrite Hperm, length_app, !length_fmap. lia.
Qed.

(** X5.  On a well-formed mesh whose faces list each half-edge once, a
    finished run has made exactly one point per interior half-edge, all
    splines together. *)
Theorem one_point_per_interior_loop {F D} {A : Arith F D} {T : Trig D}
    (geo : MeshData F) bm twists ca cs ht wu wd n
    splines :
  mesh_ok bm = true -> NoDup (all_loops bm) ->
  create_bezier geo bm twists ca cs ht wu wd n = Done splines ->
  length (concat splines) = length (interior_loops bm).
Proof.
  intros Hok Hnd. unfold create_bezier.
  set (point := control_point geo bm (edge_midpoints geo) (dmul (dsin ca) cs)
                  (dmul (dcos ca) cs) ht wu wd).
  destruct (scan bm point n) as [[spl st]| |] eqn:E; simpl; try discriminate.
  intros [= <-].
  destruct (scan_ok bm point Hok n spl st E) as (Hst & _ & Hcov).
  apply (scan_keeps bm point n
           (fun acc => scan_inv bm point acc
                       /\ length (marks acc.2) = 2 * length (concat acc.1)))
    in E.
  - destruct E as [_ Hcount]. simpl in Hcount.
    rewrite (marks_of_covered bm st Hnd Hst Hcov) in Hcount. lia.
  - split; [split; [apply fresh_ok | constructor] | done].
  - intros acc loop acc' Hl. by apply seed_counts.
Qed.

(** A run on the two quads: two interior half-edges, two points. *)
Lemma one_point_per_interior_loop_two_quads :
  exists splines,
    create_bezier two_quads_geo two_quads [] 0 0 AUTO 1 1 9 = Done splines
    /\ length (concat splines) = length (interior_loops two_quads).
Proof.
  destruct (two_quads_runs [] 0%R 0%R AUTO 1%R 1%R) as [splines E].
  exists splines. split; [exact E|].
  apply (one_point_per_interior_loop two_quads_geo two_quads [] 0%R 0%R AUTO
           1%R 1%R 9 splines).
  - vm_compute. reflexivity.
  - apply (bool_decide_unpack _). vm_compute. exact I.
  - exact E.
Defined.

(** ** The weave alternates *)

Lemma oriented_at bm l r :
  oriented bm = true -> l ∈ all_loops bm -> r ∈ link_loops bm l ->
  loop_vert bm r = loop_vert bm (link_loop_next bm l)
  /\ loop_vert bm r <> loop_vert bm l.
Proof.
  unfold oriented. rewrite forallb_forall. intros Hall Hl Hr.
  apply list_elem_of_In, Hall in Hl. rewrite forallb_forall in Hl.
  apply list_elem_of_In, Hl, andb_true_iff in Hr as [H1 H2].
  apply Nat.eqb_eq in H1. apply negb_true_iff, Nat.eqb_neq in H2. done.
Qed.

Lemma step_flips bm n st loop forward c :
  mesh_ok bm = true -> oriented bm = true ->
  loop ∈ all_loops bm ->
  step bm n st loop forward = Done (Some c) ->
  c_forward c = negb forward.
Proof.
  intros Hok Hor Hl. destruct forward; simpl.
  - intros (_ & Hw & _ & Hhd & _ & -> & _)%forward_step_inv.
    destruct (walk_next_inv _ _ _ _ Hok Hl Hw) as [Hp _].
    apply head_Some_elem_of in Hhd.
    destruct (oriented_at _ _ _ Hor Hp Hhd) as [_ Hne].
    by apply Nat.eqb_neq.
  - intros (_ & (v & Hw & ->) & _ & Hhd & _)%backward_step_inv.
    destruct (walk_prev_inv _ _ _ _ _ Hok Hl Hw) as (Hp & _ & ->).
    apply last_Some_elem_of in Hhd.
    destruct (oriented_at _ _ _ Hor Hp Hhd) as [Heq _].
    by apply Nat.eqb_eq.
Qed.

Lemma make_loop_from_alternates bm n :
  mesh_ok bm = true -> oriented bm = true ->
  forall gas st loop forward crossings st',
  visited_ok bm st ->
  loop ∈ all_loops bm -> ignorable_loop bm loop = false ->
  make_loop_from bm crossing n gas st loop forward = Done (crossings, st') ->
  alternates forward crossings.
Proof.
  intros Hok Hor.
  induction gas as [|gas IH]; intros st loop forward crossings st' Hst Hl Hint;
    simpl; [done|].
  destruct (step bm n st loop forward) as [[c|]| |] eqn:Es; simpl;
    try discriminate.
  - destruct (make_loop_from bm crossing n gas (c_state c) (c_loop c)
                (c_forward c)) as [[cs0 st0]| |] eqn:Er; simpl;
      try discriminate.
    intros [= <- <-]. simpl.
    destruct (step_ok _ _ _ _ _ _ Hok Hst Hl Hint Es) as (Hc & Hcl & Hci & _).
    split; [exact (step_flips _ _ _ _ _ _ Hok Hor Hl Es)|].
    exact (IH _ _ _ _ _ Hc Hcl Hci Er).
  - by intros [= <- <-].
Qed.

(** X6.  On a well-formed, consistently wound mesh, the recomputed
    direction flips at every crossing along every spline of a finished
    scan; the points of a spline therefore take [weave_up] and
    [weave_down] in turn. *)
Theorem weave_alternates bm n splines st :
  mesh_ok bm = true -> oriented bm = true ->
  scan bm crossing n = Done (splines, st) ->
  Forall (fun crossings => exists forward, alternates forward crossings)
    splines.
Proof.
  intros Hok Hor. apply scan_each_spline; [done|].
  intros st0 loop forward ps st' Hst Hl Hint _ Hrun. exists forward.
  exact (make_loop_from_alternates bm n Hok Hor _ _ _ _ _ _ Hst Hl Hint Hrun).
Qed.

(** The tetrahedron. *)
Lemma weave_alternates_tetrahedron :
  exists splines st,
    scan tetrahedron crossing 13 = Done (splines, st)
    /\ Forall (fun crossings => exists forward, alternates forward crossings)
         splines.
Proof.
  destruct (scan tetrahedron crossing 13) as [[splines st]| |] eqn:E.
  - exists splines, st. split; [reflexivity|].
    apply (weave_alternates tetrahedron 13 splines st);
      [vm_compute; reflexivity | vm_compute; reflexivity | exact E].
  - vm_compute in E. discriminate E.
  - vm_compute in E. discriminate E.
Defined.

(** ** Handles and positions *)

(** X7.  The positions of the points do not depend on the handle type, the
    crossing angle or the crossing strength: two runs that differ only in
    these fail alike or return splines with the same positions, point by
    point. *)
Theorem positions_ignore_handle_settings {F D} {A : Arith F D} {T : Trig D}
    (geo : MeshData F) bm twists ca cs ht ca' cs' ht' wu wd n :
  follows true (Forall2 (Forall2 (fun a b => co a = co b)))
    (create_bezier geo bm twists ca cs ht wu wd n)
    (create_bezier geo bm twists ca' cs' ht' wu wd n).
Proof.
  unfold create_bezier.
  eapply follows_bind.
  - apply (scan_follows bm _ _ true (fun a b => co a = co b)).
    intros loop prev_loop forward. unfold control_point.
    destruct (py_index (edge_midpoints geo) (loop_edge bm loop)); simpl;
      [|done].
    by destruct ht, ht'.
  - intros [spl st] [spl' st'] [Hspl _]. done.
Qed.

(** X8.  With handle type AUTO no point of a finished run has a handle. *)
Theorem auto_has_no_handles {F D} {A : Arith F D} {T : Trig D}
    (geo : MeshData F) bm twists ca cs wu wd n splines :
  create_bezier geo bm twists ca cs AUTO wu wd n = Done splines ->
  Forall (Forall (fun cp => handle_left cp = None /\ handle_right cp = None))
    splines.
Proof.
  intros (crossings & st & _ & Hpts)%create_bezier_crossings.
  eapply Forall2_forget; [|exact Hpts]. intros spline xs Hspline.
  eapply Forall2_forget; [|exact Hspline]. intros cp x Hcp. simpl in Hcp.
  by apply control_point_inv in Hcp as (m & _ & _ & Hh).
Qed.

(** An AUTO run on the two quads. *)
Lemma auto_has_no_handles_two_quads :
  exists splines,
    create_bezier two_quads_geo two_quads [] (PI / 4) 1 AUTO 1 (-1) 9
      = Done splines
    /\ Forall (Forall (fun cp => handle_left cp = None /\ handle_right cp = None))
         splines.
Proof.
  destruct (two_quads_runs [] (PI / 4)%R 1%R AUTO 1%R (-1)%R) as [splines E].
  exists splines. split; [exact E|].
  exact (auto_has_no_handles two_quads_geo two_quads [] (PI / 4)%R 1%R 1%R
           (-1)%R 9 splines E).
Defined.

(** X9.  In exact arithmetic, with a crossing strength of zero (the
    operator's default) the handles of an ALIGNED run collapse: both handles
    of every point sit on the point itself, whatever the crossing angle. *)
Theorem zero_strength_handles_collapse (geo : MeshData R) bm twists ca wu wd n
    splines :
  create_bezier geo bm twists ca 0 ALIGNED wu wd n = Done splines ->
  Forall (Forall (fun cp => handle_left cp = Some (co cp)
                            /\ handle_right cp = Some (co cp))) splines.
Proof.
  intros (crossings & st & _ & Hpts)%create_bezier_crossings.
  eapply Forall2_forget; [|exact Hpts]. intros spline xs Hspline.
  eapply Forall2_forget; [|exact Hspline]. intros cp x Hcp. simpl in Hcp.
  apply control_point_inv in Hcp as (m & _ & _ & Hl & Hr).
  rewrite Hl, Hr. split; f_equal; apply vec_ext; simpl; ring.
Qed.

(** An ALIGNED run on the two quads with strength zero. *)
Lemma zero_strength_handles_collapse_two_quads :
  exists splines,
    create_bezier two_quads_geo two_quads [] (PI / 4) 0 ALIGNED 1 (-1) 9
      = Done splines
    /\ Forall (Forall (fun cp => handle_left cp = Some (co cp)
                                /\ handle_right cp = Some (co cp))) splines.
Proof.
  destruct (two_quads_runs [] (PI / 4)%R 0%R ALIGNED 1%R (-1)%R) as [splines E].
  exists splines. split; [exact E|].
  exact (zero_strength_handles_collapse two_quads_geo two_quads [] (PI / 4)%R
           1%R (-1)%R 9 splines E).
Defined.

(** X10.  In any arithmetic, the point of a crossing fails on
    [midpoints[loop.edge.index]] exactly when Python does not accept that
    index for a list as long as the mesh has edges: when it is that number
    or more, or below minus that number.  A negative index down to minus
    that number counts from the end, so that [-1] reads the last midpoint.
    The point fails in no other way. *)
Theorem control_point_index_error {F D} {A : Arith F D} (geo : MeshData F)
    bm s c ht wu wd loop prev_loop forward :
  (control_point geo bm (edge_midpoints geo) s c ht wu wd loop prev_loop forward
     = Raise IndexError
   <-> (loop_edge bm loop < - Z.of_nat (length (mesh_edges geo))
        \/ Z.of_nat (length (mesh_edges geo)) <= loop_edge bm loop)%Z)
  /\ (loop_edge bm loop = (-1)%Z ->
      py_index (edge_midpoints geo) (loop_edge bm loop)
      = last (edge_midpoints geo))
  /\ verdict_of (control_point geo bm (edge_midpoints geo) s c ht wu wd
                   loop prev_loop forward) <> Failed AssertionError
  /\ verdict_of (control_point geo bm (edge_midpoints geo) s c ht wu wd
                   loop prev_loop forward) <> CutOff.
Proof.
  assert (Hlen : length (edge_midpoints geo) = length (mesh_edges geo))
    by apply length_fmap.
  pose proof (py_index_is_Some (edge_midpoints geo) (loop_edge bm loop)) as Hi.
  rewrite Hlen in Hi. unfold index_ok in Hi.
  split_and!.
  - unfold control_point.
    destruct (py_index (edge_midpoints geo) (loop_edge bm loop)) as [m|];
      simpl.
    + assert (is_Some (Some m)) as Hm%Hi by eauto.
      destruct ht; (split; [done | lia]).
    + split; [intros _ | done].
      destruct (decide (- Z.of_nat (length (mesh_edges geo))
                          <= loop_edge bm loop
                          < Z.of_nat (length (mesh_edges geo)))%Z) as [Hin|Hout];
        [|lia].
      apply Hi in Hin as [? [=]].
  - intros ->. unfold py_index. simpl.
    destruct (edge_midpoints geo) as [|m ms] using rev_ind; [done|].
    rewrite last_snoc, length_app. simpl.
    destruct (Z.leb_spec (- Z.of_nat (length ms + 1)) (-1)); [|lia].
    replace (Z.to_nat (Z.of_nat (length ms + 1) + -1)) with (length ms) by lia.
    by rewrite lookup_app_r, Nat.sub_diag.
  - unfold control_point.
    destruct (py_index (edge_midpoints geo) (loop_edge bm loop)); simpl;
      [by destruct ht | done].
  - unfold control_point.
    destruct (py_index (edge_midpoints geo) (loop_edge bm loop)); simpl;
      [by destruct ht | done].
Qed.

(** ** The twists *)

(** X11.  [get_celtic_twists] gives one entry per edge, in order: IGNORE
    for an edge with no loop at all, TWIST_CW for any other - also for a
    boundary edge, whose single loop the traversal ignores.  STRAIGHT and
    TWIST_CCW never occur. *)
Theorem twists_per_edge bm :
  length (get_celtic_twists bm) = length (bm_edges bm)
  /\ Forall (fun t => t = IGNORE \/ t = TWIST_CW) (get_celtic_twists bm)
  /\ forall i, get_celtic_twists bm !! i = Some IGNORE <->
       exists edge, bm_edges bm !! i = Some edge /\ edge_link_loops bm edge = [].
Proof.
  unfold get_celtic_twists. split_and!.
  - apply length_fmap.
  - apply Forall_fmap, Forall_forall. intros edge _. simpl.
    destruct (length (edge_link_loops bm edge) =? 0); auto.
  - intros i. rewrite list_lookup_fmap.
    destruct (bm_edges bm !! i) as [edge|]; simpl.
    + destruct (edge_link_loops bm edge) as [|l ls] eqn:E; simpl.
      * split; [eauto | done].
      * split; [done | intros (e' & [= <-] & H); congruence].
    + split; [done | by intros (e' & ? & _)].
Qed.

(** ** Strands of a manifold mesh *)

Lemma edges_proper_at bm l :
  edges_proper bm = true -> l ∈ all_loops bm ->
  loop_vert bm (link_loop_next bm l) <> loop_vert bm l.
Proof.
  unfold edges_proper. rewrite forallb_forall. intros Hall Hl.
  by apply list_elem_of_In, Hall, negb_true_iff, Nat.eqb_neq in Hl.
Qed.

Section Strands.
Variable bm : BMesh.
Variable n : nat.
Hypothesis Hok : mesh_ok bm = true.
Hypothesis Hman : manifold bm = true.
Hypothesis Hprop : edges_proper bm = true.
Hypothesis Hn : length (all_loops bm) <= n.

Lemma next_interior_walk l :
  l ∈ all_loops bm -> ignorable_loop bm l = false ->
  walk_next bm n l = Some (next_interior bm n l)
  /\ valid bm (next_interior bm n l, true).
Proof.
  intros Hl Hint.
  destruct (walk_next_ends bm Hok n l Hl Hint Hn) as (p & Hw & Hp & Hpi).
  unfold next_interior. rewrite Hw. simpl. done.
Qed.

Lemma prev_interior_walk l :
  l ∈ all_loops bm -> ignorable_loop bm l = false ->
  walk_prev bm n l =
    Some (loop_vert bm (link_loop_next bm (prev_interior bm n l)),
          prev_interior bm n l)
  /\ valid bm (prev_interior bm n l, true).
Proof.
  intros Hl Hint.
  destruct (walk_prev_ends bm Hok n l Hl Hint Hn) as (p & Hw & Hp & Hpi).
  unfold prev_interior. rewrite Hw. simpl. done.
Qed.

Lemma next_prev_interior l :
  l ∈ all_loops bm -> ignorable_loop bm l = false ->
  next_interior bm n (prev_interior bm n l) = l.
Proof.
  intros Hl Hint. destruct (prev_interior_walk l Hl Hint) as [Hw _].
  apply (walk_prev_next bm Hok n _ _ _ Hl Hint) in Hw.
  unfold next_interior at 1. by rewrite Hw.
Qed.

Lemma prev_next_interior l :
  l ∈ all_loops bm -> ignorable_loop bm l = false ->
  prev_interior bm n (next_interior bm n l) = l.
Proof.
  intros Hl Hint. destruct (next_interior_walk l Hl Hint) as [Hw _].
  apply (walk_next_prev bm Hok n _ _ Hl Hint) in Hw as [v Hw].
  unfold prev_interior at 1. by rewrite Hw.
Qed.

Lemma radial_spec l :
  l ∈ all_loops bm -> ignorable_loop bm l = false ->
  link_loops bm l = [radial bm l]
  /\ valid bm (radial bm l, true)
  /\ radial bm (radial bm l) = l
  /\ ((loop_vert bm (radial bm l) = loop_vert bm l
       /\ loop_vert bm (link_loop_next bm (radial bm l))
          = loop_vert bm (link_loop_next bm l))
      \/ (loop_vert bm (radial bm l) = loop_vert bm (link_loop_next bm l)
          /\ loop_vert bm (link_loop_next bm (radial bm l)) = loop_vert bm l)).
Proof.
  intros Hl Hint.
  assert (Hone : forall x, x ∈ all_loops bm -> ignorable_loop bm x = false ->
            exists r, link_loops bm x = [r]
              /\ ((loop_vert bm r = loop_vert bm x
                   /\ loop_vert bm (link_loop_next bm r)
                      = loop_vert bm (link_loop_next bm x))
                  \/ (loop_vert bm r = loop_vert bm (link_loop_next bm x)
                      /\ loop_vert bm (link_loop_next bm r) = loop_vert bm x))).
  { intros x Hx Hxi. unfold manifold in Hman. rewrite forallb_forall in Hman.
    apply list_elem_of_In, Hman in Hx. unfold ignorable_loop in Hxi.
    destruct (link_loops bm x) as [|r [|r' rs]]; [done | | done].
    exists r. split; [done|].
    apply orb_true_iff in Hx as [Hx | Hx];
      apply andb_true_iff in Hx as [H1 H2]; apply Nat.eqb_eq in H1, H2; auto. }
  destruct (Hone l Hl Hint) as (r & Hr & Hverts).
  assert (Hrad : radial bm l = r) by (unfold radial; by rewrite Hr).
  rewrite Hrad.
  assert (Hin : r ∈ link_loops bm l) by (rewrite Hr; left).
  destruct (mesh_ok_at bm l Hok Hl) as (_ & _ & _ & _ & Hsym).
  destruct (Hsym r Hin) as [HrL Hback].
  pose proof (neighbour_interior _ _ _ Hback) as Hri.
  destruct (Hone r HrL Hri) as (r' & Hr' & _).
  rewrite Hr' in Hback. apply list_elem_of_singleton in Hback as ->.
  split_and!; try done. unfold radial. by rewrite Hr'.
Qed.

Lemma landing_valid s : valid bm s -> valid bm (landing bm n s).
Proof.
  intros [Hl Hint]. unfold landing. destruct s as [l [|]]; simpl in *.
  - destruct (next_interior_walk l Hl Hint) as [_ [Hp Hpi]].
    by destruct (radial_spec _ Hp Hpi) as (_ & ? & _).
  - destruct (prev_interior_walk l Hl Hint) as [_ [Hp Hpi]].
    by destruct (radial_spec _ Hp Hpi) as (_ & ? & _).
Qed.

Lemma reversed_valid s : valid bm s -> valid bm (reversed bm n s).
Proof.
  intros [Hl Hint]. unfold reversed. destruct s as [l [|]]; simpl in *.
  - by destruct (next_interior_walk l Hl Hint) as [_ ?].
  - by destruct (prev_interior_walk l Hl Hint) as [_ ?].
Qed.

Lemma stretch_valid s : valid bm s -> valid bm (stretch bm n s, true).
Proof.
  intros [Hl Hint]. unfold stretch. destruct s as [l [|]]; simpl in *.
  - done.
  - by destruct (prev_interior_walk l Hl Hint) as [_ ?].
Qed.

Lemma reversed_reversed s : valid bm s -> reversed bm n (reversed bm n s) = s.
Proof.
  intros [Hl Hint]. unfold reversed. destruct s as [l [|]]; simpl in *.
  - by rewrite prev_next_interior.
  - by rewrite next_prev_interior.
Qed.

Lemma stretch_reversed s :
  valid bm s -> stretch bm n (reversed bm n s) = stretch bm n s.
Proof.
  intros [Hl Hint]. unfold stretch, reversed. destruct s as [l [|]]; simpl in *.
  - by rewrite prev_next_interior.
  - done.
Qed.

Lemma reversed_ne s : reversed bm n s <> s.
Proof. unfold reversed. destruct s as [l [|]]; simpl; congruence. Qed.

Lemma same_stretch s t :
  valid bm s -> valid bm t -> stretch bm n s = stretch bm n t ->
  t = s \/ t = reversed bm n s.
Proof.
  intros [Hs Hsi] [Ht Hti]. unfold stretch, reversed.
  destruct s as [l [|]], t as [l' [|]]; simpl in *; intros Heq.
  - left. by rewrite Heq.
  - right. rewrite Heq. by rewrite next_prev_interior.
  - right. by rewrite Heq.
  - left. rewrite <- (next_prev_interior l), <- (next_prev_interior l') by done.
    by rewrite Heq.
Qed.

Lemma landing_reversed_landing s :
  valid bm s -> landing bm n (reversed bm n (landing bm n s)) = reversed bm n s.
Proof.
  intros [Hl Hint]. destruct s as [l [|]]; simpl in *.
  - destruct (next_interior_walk l Hl Hint) as [_ [Hp Hpi]]. simpl in *.
    set (p := next_interior bm n l) in *.
    destruct (radial_spec p Hp Hpi) as (_ & [Hr Hri] & Hrr & Hverts).
    simpl in *. set (r := radial bm p) in *.
    pose proof (edges_proper_at bm p Hprop Hp) as Hpp.
    unfold landing at 2. simpl. fold p. fold r.
    destruct (loop_vert bm r =? loop_vert bm p) eqn:E.
    + apply Nat.eqb_eq in E. unfold reversed at 1. simpl.
      unfold landing. simpl. rewrite prev_next_interior by done.
      fold r. rewrite Hrr. unfold reversed. simpl. fold p. f_equal.
      apply Nat.eqb_neq. destruct Hverts as [[_ H]|[H _]]; congruence.
    + apply Nat.eqb_neq in E. unfold reversed at 1. simpl.
      unfold landing. simpl. rewrite next_prev_interior by done.
      fold r. rewrite Hrr. unfold reversed. simpl. fold p. f_equal.
      apply Nat.eqb_neq. congruence.
  - destruct (prev_interior_walk l Hl Hint) as [_ [Hq Hqi]]. simpl in *.
    set (q := prev_interior bm n l) in *.
    destruct (radial_spec q Hq Hqi) as (_ & [Hr Hri] & Hrr & Hverts).
    simpl in *. set (r := radial bm q) in *.
    pose proof (edges_proper_at bm q Hprop Hq) as Hqq.
    unfold landing at 2. simpl. fold q. fold r.
    destruct (loop_vert bm r =? loop_vert bm (link_loop_next bm q)) eqn:E.
    + apply Nat.eqb_eq in E. unfold reversed at 1. simpl.
      unfold landing. simpl. rewrite prev_next_interior by done.
      fold r. rewrite Hrr. unfold reversed. simpl. fold q. f_equal.
      apply Nat.eqb_eq. destruct Hverts as [[H _]|[_ H]]; congruence.
    + apply Nat.eqb_neq in E. unfold reversed at 1. simpl.
      unfold landing. simpl. rewrite next_prev_interior by done.
      fold r. rewrite Hrr. unfold reversed. simpl. fold q. f_equal.
      apply Nat.eqb_eq. destruct Hverts as [[H _]|[H _]]; congruence.
Qed.

Lemma landing_inj s t :
  valid bm s -> valid bm t -> landing bm n s = landing bm n t -> s = t.
Proof.
  intros Hs Ht Heq.
  rewrite <- (reversed_reversed s), <- (reversed_reversed t) by done.
  f_equal.
  rewrite <- (landing_reversed_landing s), <- (landing_reversed_landing t)
    by done.
  by rewrite Heq.
Qed.
End Strands.

Section Closing.
Variable bm : BMesh.
Variable n : nat.
Hypothesis Hok : mesh_ok bm = true.
Hypothesis Hman : manifold bm = true.
Hypothesis Hprop : edges_proper bm = true.
Hypothesis Hself : no_self_radial bm = true.
Hypothesis Hn : length (all_loops bm) <= n.

Lemma landing_ne_reversed s : valid bm s -> landing bm n s <> reversed bm n s.
Proof.
  intros [Hl Hint]. unfold landing, reversed. destruct s as [l [|]]; simpl in *.
  - destruct (next_interior_walk bm n Hok Hn l Hl Hint) as [_ [Hp Hpi]].
    simpl in *.
    destruct (radial_spec bm Hok Hman _ Hp Hpi) as (Hr & _).
    intros [= Heq _].
    apply (no_self_radial_at bm (next_interior bm n l)
             (radial bm (next_interior bm n l)) Hself Hp); [|done].
    rewrite Hr. left.
  - destruct (prev_interior_walk bm n Hok Hn l Hl Hint) as [_ [Hp Hpi]].
    simpl in *.
    destruct (radial_spec bm Hok Hman _ Hp Hpi) as (Hr & _).
    intros [= Heq _].
    apply (no_self_radial_at bm (prev_interior bm n l)
             (radial bm (prev_interior bm n l)) Hself Hp); [|done].
    rewrite Hr. left.
Qed.

Lemma flag_stretch st s :
  paired bm n st -> valid bm s ->
  dd_get (if s.2 then loops_exited st else loops_entered st) s.1
  = dd_get (loops_exited st) (stretch bm n s).
Proof.
  intros Hpair [Hl Hint]. unfold stretch. destruct s as [l [|]]; simpl in *;
    [done|].
  destruct (prev_interior_walk bm n Hok Hn l Hl Hint) as [Hw [Hq Hqi]].
  simpl in *. symmetry. apply Hpair; [done..|].
  by apply (walk_prev_next bm Hok n _ _ _ Hl Hint) in Hw.
Qed.

Lemma step_landing st s c :
  valid bm s ->
  step bm n st s.1 s.2 = Done (Some c) ->
  (c_loop c, c_forward c) = landing bm n s
  /\ crossing_from bm n s.1 s.2 = Some (c_loop c, c_prev_loop c, c_forward c)
  /\ forall a, dd_get (loops_exited (c_state c)) a = true <->
       a = stretch bm n s \/ dd_get (loops_exited st) a = true.
Proof.
  intros [Hl Hint]. destruct s as [l [|]]; simpl in *.
  - intros (_ & Hw & _ & Hhd & _ & Hf & ->)%forward_step_inv.
    destruct (next_interior_walk bm n Hok Hn l Hl Hint) as [Hw' _].
    rewrite Hw in Hw'. injection Hw' as Hp.
    unfold landing, crossing_from, stretch. simpl.
    rewrite Hw, <- Hp. simpl. rewrite Hhd. simpl.
    unfold radial. rewrite Hhd. simpl. rewrite Hf. split_and!; [done..|].
    intros a. rewrite dd_get_insert. case_decide; subst; split; auto.
    intros [? | ?]; [done | done].
  - intros (_ & (v & Hw & Hf) & _ & Hhd & _ & ->)%backward_step_inv.
    destruct (prev_interior_walk bm n Hok Hn l Hl Hint) as [Hw' [Hq Hqi]].
    simpl in *.
    rewrite Hw in Hw'. injection Hw' as Hv Hp.
    destruct (radial_spec bm Hok Hman _ Hq Hqi) as (Hr & _).
    unfold landing, crossing_from, stretch. simpl.
    rewrite Hw, <- Hp in *. simpl. rewrite Hhd. simpl.
    rewrite Hr in Hhd. simpl in Hhd. injection Hhd as Hrad.
    rewrite Hrad, Hf, Hv. split_and!; [done..|].
    intros a. rewrite dd_get_insert. case_decide; subst; split; auto.
    intros [? | ?]; [done | done].
Qed.

Section FromSeed.
Variable s0 : nat * bool.
Hypothesis Hs0 : valid bm s0.

Lemma chain_valid seen s :
  chain bm n s0 seen s -> valid bm s /\ Forall (valid bm) seen.
Proof.
  induction 1 as [|y older Hch [IHy IHolder] Hnew]; [by split|].
  split; [by apply landing_valid | by constructor].
Qed.

(** Everything in the chain but the seed is where an older state landed. *)
Lemma chain_came_from older y :
  chain bm n s0 older y ->
  forall x, x ∈ y :: older -> x = s0 \/ exists z, z ∈ older /\ landing bm n z = x.
Proof.
  induction 1 as [|y older Hch IH Hnew]; intros x Hx.
  - apply list_elem_of_singleton in Hx. by left.
  - apply elem_of_cons in Hx as [-> | Hx].
    + right. exists y. split; [left | done].
    + destruct (IH x Hx) as [-> | (z & Hz & <-)]; [by left|].
      right. exists z. split; [by right | done].
Qed.

(** Every older state landed in the chain. *)
Lemma chain_goes_to older y :
  chain bm n s0 older y ->
  forall x, x ∈ older -> landing bm n x ∈ y :: older.
Proof.
  induction 1 as [|y older Hch IH Hnew]; intros x Hx.
  - by apply not_elem_of_nil in Hx.
  - apply elem_of_cons in Hx as [-> | Hx]; [left|].
    right. by apply IH.
Qed.

Lemma chain_has_seed older y : chain bm n s0 older y -> s0 ∈ y :: older.
Proof.
  induction 1 as [|y older Hch IH Hnew]; [left | by right].
Qed.

Lemma strands_done_back st s :
  strands_done bm n st -> valid bm s ->
  dd_get (loops_exited st) (stretch bm n (landing bm n s)) = true ->
  dd_get (loops_exited st) (stretch bm n s) = true.
Proof.
  intros Hdone Hs Hflag.
  pose proof (landing_valid bm n Hok Hman Hn s Hs) as Hls.
  pose proof (reversed_valid bm n Hok Hn _ Hls) as Hrls.
  rewrite <- (stretch_reversed bm n Hok Hn s Hs).
  rewrite <- (landing_reversed_landing bm n Hok Hman Hprop Hn s Hs).
  apply Hdone; [done|]. by rewrite stretch_reversed.
Qed.

Lemma chain_untouched st0 seen s :
  strands_done bm n st0 ->
  dd_get (loops_exited st0) (stretch bm n s0) = false ->
  chain bm n s0 seen s ->
  dd_get (loops_exited st0) (stretch bm n s) = false
  /\ forall x, x ∈ seen -> dd_get (loops_exited st0) (stretch bm n x) = false.
Proof.
  intros Hdone Hseed. induction 1 as [|y older Hch [IHy IHolder] Hnew].
  - split; [done|]. intros x Hx. by apply not_elem_of_nil in Hx.
  - destruct (chain_valid _ _ Hch) as [Hy _]. split.
    + apply not_true_is_false. intros Hflag.
      apply (strands_done_back st0 y Hdone Hy) in Hflag. congruence.
    + intros x [-> | Hx]%elem_of_cons; auto.
Qed.

(** Where a traversal finds its closure flag set, it is back at its seed,
    and every strand is again run as a whole. *)
Lemma break_at_seed st0 st seen s :
  strands_done bm n st0 ->
  dd_get (loops_exited st0) (stretch bm n s0) = false ->
  chain bm n s0 seen s ->
  (forall a, dd_get (loops_exited st) a = true <->
     dd_get (loops_exited st0) a = true \/ a ∈ (stretch bm n <$> seen)) ->
  dd_get (loops_exited st) (stretch bm n s) = true ->
  s = s0 /\ strands_done bm n st.
Proof.
  intros Hdone Hseed Hch Hmarks Hflag.
  destruct (chain_valid _ _ Hch) as [Hs Hseen].
  destruct (chain_untouched st0 seen s Hdone Hseed Hch) as [Hfresh Hfresh'].
  apply Hmarks in Hflag as [Hflag | Hflag]; [congruence|].
  apply list_elem_of_fmap in Hflag as (x & Hstretch & Hx).
  inversion Hch as [Hnil Hs0'|y older Hch' Hnew Hseen' Hs']; subst;
    [by apply not_elem_of_nil in Hx|].
  destruct (chain_valid _ _ Hch') as [Hy Holder].
  assert (Hvalid : forall z, z ∈ y :: older -> valid bm z).
  { intros z Hz. by apply (proj1 (Forall_forall _ _) Hseen). }
  assert (Hback : landing bm n y = s0).
  { destruct (same_stretch bm n Hok Hn x (landing bm n y) (Hvalid x Hx) Hs)
      as [Heq | Heq]; [done | |].
    - destruct (chain_came_from _ _ Hch' x Hx) as [<- | (z & Hz & Hland)];
        [done|].
      exfalso. apply Hnew.
      assert (z = y) as <-; [|by apply list_elem_of_fmap_2].
      apply (landing_inj bm n Hok Hman Hprop Hn);
        [apply Hvalid; by right | done | congruence].
    - exfalso.
      assert (Hrev : reversed bm n y = landing bm n x).
      { rewrite <- (landing_reversed_landing bm n Hok Hman Hprop Hn y Hy).
        rewrite Heq.
        by rewrite (reversed_reversed bm n Hok Hn x (Hvalid x Hx)). }
      apply elem_of_cons in Hx as [-> | Hx].
      + by apply (landing_ne_reversed y).
      + apply (chain_goes_to _ _ Hch') in Hx. rewrite <- Hrev in Hx.
        apply elem_of_cons in Hx as [Hx | Hx].
        * by apply (reversed_ne bm n y).
        * apply Hnew. rewrite <- (stretch_reversed bm n Hok Hn y Hy).
          by apply list_elem_of_fmap_2. }
  split; [done|].
  intros t Ht Htflag. apply Hmarks.
  apply Hmarks in Htflag as [Htflag | Htflag]; [left; by apply Hdone|].
  right. apply list_elem_of_fmap in Htflag as (z & Hstretch' & Hz).
  destruct (same_stretch bm n Hok Hn z t (Hvalid z Hz) Ht) as [-> | ->];
    [done | |].
  - apply list_elem_of_fmap_2.
    apply elem_of_cons in Hz as [-> | Hz].
    + rewrite Hback. by apply (chain_has_seed _ _ Hch').
    + by apply (chain_goes_to _ _ Hch').
  - destruct (chain_came_from _ _ Hch' z Hz) as [-> | (w & Hw & <-)].
    + rewrite <- Hback.
      rewrite (landing_reversed_landing bm n Hok Hman Hprop Hn y Hy).
      rewrite (stretch_reversed bm n Hok Hn y Hy).
      apply list_elem_of_fmap_2. left.
    + assert (Hwv : valid bm w) by (apply Hvalid; by right).
      rewrite (landing_reversed_landing bm n Hok Hman Hprop Hn w Hwv).
      rewrite (stretch_reversed bm n Hok Hn w Hwv).
      apply list_elem_of_fmap_2. by right.
Qed.

Lemma traversal_closes st0 :
  strands_done bm n st0 ->
  dd_get (loops_exited st0) (stretch bm n s0) = false ->
  forall gas st seen s crossings st',
  chain bm n s0 seen s ->
  (forall a, dd_get (loops_exited st) a = true <->
     dd_get (loops_exited st0) a = true \/ a ∈ (stretch bm n <$> seen)) ->
  visited_ok bm st -> paired bm n st ->
  make_loop_from bm crossing n gas st s.1 s.2 = Done (crossings, st') ->
  final_start s.1 s.2 crossings = s0
  /\ strands_done bm n st'
  /\ forall x rest, crossings = x :: rest ->
       crossing_from bm n s.1 s.2 = Some x.
Proof.
  intros Hdone Hseed.
  induction gas as [|gas IH]; intros st seen s crossings st' Hch Hmarks Hst
    Hpair; simpl; [done|].
  destruct (chain_valid _ _ Hch) as [Hs Hseen].
  destruct (step bm n st s.1 s.2) as [[c|]| |] eqn:Es; simpl;
    try discriminate.
  - destruct (make_loop_from bm crossing n gas (c_state c) (c_loop c)
                (c_forward c)) as [[cs0 st1]| |] eqn:Er; simpl;
      try discriminate.
    intros [= <- <-].
    destruct (step_landing st s c Hs Es) as (Hland & Hfrom & Hex).
    destruct Hs as [Hl Hint].
    destruct (step_ok _ _ _ _ _ _ Hok Hst Hl Hint Es) as (Hc & _).
    pose proof (step_paired bm n Hok _ _ _ _ Hpair Hl Hint Es) as Hpc.
    assert (Hunset : dd_get (loops_exited st) (stretch bm n s) = false).
    { rewrite <- (flag_stretch st s Hpair (conj Hl Hint)).
      apply not_true_is_false. intros Hflag.
      apply (proj2 (step_break bm n st s.1 s.2)) in Hflag. congruence. }
    assert (Hnew : stretch bm n s ∉ (stretch bm n <$> seen)).
    { intros Hin. assert (dd_get (loops_exited st) (stretch bm n s) = true)
        by (apply Hmarks; by right). congruence. }
    destruct (IH (c_state c) (s :: seen) (landing bm n s) cs0 st1) as
      (Hfin & Hdone' & _).
    + by constructor.
    + intros a. rewrite Hex, Hmarks, fmap_cons, elem_of_cons. tauto.
    + done.
    + done.
    + by rewrite <- Hland.
    + simpl. rewrite <- Hland in Hfin. simpl in Hfin.
      split_and!; [done | done |].
      by intros x rest [= <- _].
  - intros [= <- <-]. simpl.
    assert (Hflag : dd_get (loops_exited st) (stretch bm n s) = true).
    { rewrite <- (flag_stretch st s Hpair Hs).
      by apply (proj1 (step_break bm n st s.1 s.2)). }
    destruct (break_at_seed st0 st seen s Hdone Hseed Hch Hmarks Hflag)
      as [<- Hdone'].
    split_and!; [by destruct s | done | done].
Qed.
End FromSeed.
End Closing.

Lemma final_start_last loop forward crossings :
  crossings <> [] ->
  exists final, last crossings = Some final
    /\ final_start loop forward crossings = (final.1.1, final.2).
Proof.
  revert loop forward. induction crossings as [|x rest IH]; [done|].
  intros loop forward _. simpl. destruct rest as [|y rest].
  - exists x. by split.
  - destruct (IH x.1.1 x.2) as (final & Hlast & Hfin); [done|].
    exists final. by split.
Qed.

Lemma fresh_strands_done bm n : strands_done bm n fresh.
Proof. intros s _. simpl. unfold dd_get. by rewrite !lookup_empty. Qed.

Lemma make_loop_closes bm n st loop (forward : bool) crossings st' :
  mesh_ok bm = true -> manifold bm = true -> edges_proper bm = true ->
  no_self_radial bm = true -> length (all_loops bm) <= n ->
  visited_ok bm st -> paired bm n st -> strands_done bm n st ->
  loop ∈ all_loops bm -> ignorable_loop bm loop = false ->
  dd_get (if forward then loops_exited st else loops_entered st) loop = false ->
  make_loop bm crossing n st loop forward = Done (crossings, st') ->
  closes bm n crossings /\ strands_done bm n st'.
Proof.
  intros Hok Hman Hprop Hself Hn Hst Hpair Hdone Hl Hint Hflag Hrun.
  pose proof (make_loop_nonempty _ _ _ _ _ _ _ _ Hflag Hrun) as Hne.
  assert (Hs0 : valid bm (loop, forward)) by done.
  assert (Hseed : dd_get (loops_exited st) (stretch bm n (loop, forward)) = false).
  { by rewrite <- (flag_stretch bm n Hok Hn st (loop, forward) Hpair Hs0). }
  destruct (traversal_closes bm n Hok Hman Hprop Hself Hn (loop, forward) Hs0
              st Hdone Hseed n st [] (loop, forward) crossings st')
    as (Hfin & Hdone' & Hfirst).
  - constructor.
  - intros a. rewrite fmap_nil, elem_of_nil. tauto.
  - done.
  - done.
  - exact Hrun.
  - split; [|done]. simpl in *.
    destruct crossings as [|x rest]; [done|].
    destruct (final_start_last loop forward (x :: rest) Hne)
      as (final & Hlast & Hfin').
    exists x, final. split_and!; [done | done |].
    rewrite Hfin in Hfin'. injection Hfin' as <- <-. by apply (Hfirst x rest).
Qed.

(** X12.  On a mesh that is a 2-manifold away from its boundary, every
    spline of a finished scan closes: iterating once more from where the
    last crossing landed, in the direction recomputed there, would give the
    first crossing of the spline again.  So the traversal stops exactly
    when it is back at its seed, and the cyclic spline joins up. *)
Theorem splines_close bm n splines st :
  mesh_ok bm = true -> manifold bm = true -> edges_proper bm = true ->
  no_self_radial bm = true -> length (all_loops bm) <= n ->
  scan bm crossing n = Done (splines, st) ->
  Forall (closes bm n) splines.
Proof.
  intros Hok Hman Hprop Hself Hn Hrun.
  assert (Htotal : forall a b c e, crossing a b c <> Raise e) by done.
  apply (scan_keeps bm crossing n
           (fun acc => scan_inv bm crossing acc /\ paired bm n acc.2
                       /\ strands_done bm n acc.2
                       /\ Forall (closes bm n) acc.1)) in Hrun;
    [by destruct Hrun as (_ & _ & _ & ?) | |].
  { split_and!; [split; [apply fresh_ok | constructor] | apply fresh_paired
                | apply fresh_strands_done | constructor]. }
  intros acc loop acc' Hl (Hacc & Hpair & Hdone & Hall).
  unfold seed.
  destruct (ignorable_loop bm loop) eqn:Hint; [by intros [= <-]|].
  assert (Hone : forall (a : list (list (nat * nat * bool)) * visited)
                   (forward : bool) ps st',
            scan_inv bm crossing a -> paired bm n a.2 ->
            strands_done bm n a.2 -> Forall (closes bm n) a.1 ->
            dd_get (if forward then loops_exited a.2 else loops_entered a.2)
              loop = false ->
            make_loop bm crossing n a.2 loop forward = Done (ps, st') ->
            scan_inv bm crossing (a.1 ++ [ps], st') /\ paired bm n st'
            /\ strands_done bm n st'
            /\ Forall (closes bm n) (a.1 ++ [ps])).
  { intros a forward ps st' Ha Hp Hd Hc Hflag Her.
    destruct (make_loop_seeded bm crossing Hok n a loop forward ps st' Ha Hl
                Hint Hflag Her) as (Hinv & _).
    destruct (make_loop_closes bm n a.2 loop forward ps st' Hok Hman Hprop
                Hself Hn (proj1 Ha) Hp Hd Hl Hint Hflag Her) as [Hcl Hd'].
    split_and!; [done | | done |].
    - by eapply (make_loop_from_paired bm n Hok crossing); [apply Ha | exact Hp
        | exact Hl | exact Hint | exact Her].
    - apply Forall_app. split; [done | by constructor]. }
  destruct (dd_get (loops_exited acc.2) loop) eqn:Hex; simpl.
  - destruct (dd_get (loops_entered acc.2) loop) eqn:Hen; simpl;
      [by intros [= <-]|].
    destruct (make_loop bm crossing n acc.2 loop false) as [[ps st']| |] eqn:Er;
      simpl; try discriminate.
    intros [= <-]. simpl. by apply (Hone acc false).
  - destruct (make_loop bm crossing n acc.2 loop true) as [[ps st']| |] eqn:Er;
      simpl; try discriminate.
    destruct (Hone acc true ps st' Hacc Hpair Hdone Hall Hex Er)
      as (Hacc1 & Hpair1 & Hdone1 & Hall1).
    destruct (dd_get (loops_entered st') loop) eqn:Hen; simpl;
      [by intros [= <-]|].
    destruct (make_loop bm crossing n st' loop false) as [[ps2 st2]| |] eqn:Er2;
      simpl; try discriminate.
    intros [= <-]. simpl.
    by apply (Hone (acc.1 ++ [ps], st') false).
Qed.

Lemma splines_close_tetrahedron :
  exists splines st,
    scan tetrahedron crossing 12 = Done (splines, st)
    /\ Forall (closes tetrahedron 12) splines.
Proof.
  destruct (scan tetrahedron crossing 12) as [[splines st]| |] eqn:E;
    [exists splines, st; split; [reflexivity|] | vm_compute in E; discriminate E ..].
  apply (splines_close tetrahedron 12 splines st);
    [vm_compute; reflexivity .. | | exact E].
  vm_compute. lia.
Defined.
